(** * A segmented write-ahead log: model of the Go sources and its properties

    The development follows the sources [model.go] (data model, accessors,
    [NewWAL], [Update], the read cache helpers), the utility file
    ([fileNameWithoutExtension], [fileNameWithoutSuffix], [convertIndex])
    and the coordinator file ([Process], [convert], [Read],
    [ReadConverted], [Set], [Open], [getSegmentData], [getLastSegment],
    [findSegment], [setupLastSegment], [newSegment], [cleanLog]).

    Go values are embedded as follows.
    - [[]byte] is a {!slice}: the visible bytes and the bytes of the backing
      array between length and capacity (a slice expression is checked
      against the capacity, an index expression against the length).
    - [string] is [string]; [int64], [uint64], [uint32] and [int] are [Z]
      with the wrap-around written where the source can overflow.
    - [*Segment] is an address into a heap of [Segment] records, so that
      the aliasing between [wal.segments] and the pointers handed to
      [Update] is kept.
    - [*T], an element of the batch of [Set], is an [option T]: the batch
      is only read, and [None] is the nil pointer.
    - The files are a map from names to bytes, without directories: a call
      that fails because a directory is missing is a failure of the fault
      schedule, and the names are those of the program when the path of
      the WAL is clean ({!clean_root}).
    - A method on [*WAL] is a function on the whole system state [Sys]
      (the WAL struct, the heap, the files, the console, the clock and the
      fault schedule of the operating system); [None] stands for a run-time
      panic and a Go [error] result is a value of the type [error]. *)

From Stdlib Require Import ZArith Lia List Ascii String.
From Stdlib.Strings Require Import Byte.
From stdpp Require Import base option list gmap strings sorting.
From Equations Require Import Equations.

Local Open Scope Z_scope.

(** ** Bytes and fixed-width integers *)

Module Bytes.

Definition Z_of_byte (b : byte) : Z := Z.of_N (Byte.to_N b).

(** The conversion [byte(v)] of Go: the low eight bits. *)
Definition byte_of_Z (z : Z) : byte :=
  match Byte.of_N (Z.to_N (z mod 256)) with
  | Some b => b
  | None => x00
  end.

Definition uint32 (z : Z) : Z := z mod 2 ^ 32.
Definition uint64 (z : Z) : Z := z mod 2 ^ 64.

(** [int64(z)]: two's complement wrap-around. *)
Definition int64 (z : Z) : Z := (z + 2 ^ 63) mod 2 ^ 64 - 2 ^ 63.

Definition max_int : Z := 2 ^ 63 - 1.

(** [binary.LittleEndian.PutUint32] on a buffer made by [make([]byte, 4)]. *)
Definition PutUint32 (v : Z) : list byte :=
  [byte_of_Z v; byte_of_Z (Z.shiftr v 8); byte_of_Z (Z.shiftr v 16);
   byte_of_Z (Z.shiftr v 24)].

(** [binary.LittleEndian.PutUint64] on a buffer made by [make([]byte, 8)]. *)
Definition PutUint64 (v : Z) : list byte :=
  [byte_of_Z v; byte_of_Z (Z.shiftr v 8); byte_of_Z (Z.shiftr v 16);
   byte_of_Z (Z.shiftr v 24); byte_of_Z (Z.shiftr v 32);
   byte_of_Z (Z.shiftr v 40); byte_of_Z (Z.shiftr v 48);
   byte_of_Z (Z.shiftr v 56)].

(** [binary.LittleEndian.Uint32]: panics ([None]) on fewer than 4 bytes. *)
Definition Uint32 (b : list byte) : option Z :=
  match b with
  | b0 :: b1 :: b2 :: b3 :: _ =>
      Some (Z.lor (Z.lor (Z.lor (Z_of_byte b0) (Z.shiftl (Z_of_byte b1) 8))
                         (Z.shiftl (Z_of_byte b2) 16))
                  (Z.shiftl (Z_of_byte b3) 24))
  | _ => None
  end.

(** [binary.LittleEndian.Uint64]: panics ([None]) on fewer than 8 bytes. *)
Definition Uint64 (b : list byte) : option Z :=
  match b with
  | b0 :: b1 :: b2 :: b3 :: b4 :: b5 :: b6 :: b7 :: _ =>
      Some (Z.lor (Z.lor (Z.lor (Z.lor (Z.lor (Z.lor (Z.lor
        (Z_of_byte b0) (Z.shiftl (Z_of_byte b1) 8))
        (Z.shiftl (Z_of_byte b2) 16)) (Z.shiftl (Z_of_byte b3) 24))
        (Z.shiftl (Z_of_byte b4) 32)) (Z.shiftl (Z_of_byte b5) 40))
        (Z.shiftl (Z_of_byte b6) 48)) (Z.shiftl (Z_of_byte b7) 56))
  | _ => None
  end.

(** A Go byte slice: [elems] are the [len] visible bytes, [spare] the
    bytes of the backing array from [len] up to [cap]. *)
Record slice := Slice { elems : list byte; spare : list byte }.

Definition slice_len (s : slice) : Z := Z.of_nat (length (elems s)).
Definition slice_cap (s : slice) : Z :=
  Z.of_nat (length (elems s) + length (spare s)).

(** The slice expression [s[lo:hi]]: a panic unless
    [0 <= lo <= hi <= cap(s)]. No Go slice has a capacity above [max_int],
    so an index above it is out of range whatever the slice. *)
Definition reslice (s : slice) (lo hi : Z) : option slice :=
  if (0 <=? lo) && (lo <=? hi) && (hi <=? slice_cap s) && (hi <=? max_int)
  then
    let backing := elems s ++ spare s in
    Some (Slice (take (Z.to_nat (hi - lo)) (drop (Z.to_nat lo) backing))
                (drop (Z.to_nat hi) backing))
  else None.

(** The index expression [s[i]]: a panic unless [0 <= i < len(s)]. *)
Definition index (s : slice) (i : Z) : option byte :=
  if (0 <=? i) && (i <? slice_len s) && (i <=? max_int)
  then elems s !! Z.to_nat i else None.

(** A slice with no room behind its last byte, as a file read returns. *)
Definition full (l : list byte) : slice := Slice l [].

End Bytes.
Export Bytes.

(** ** CRC-32 (IEEE), as [hash/crc32.ChecksumIEEE] computes it *)

Module Crc.

Definition poly : Z := 0xEDB88320.

Fixpoint shift_bits (n : nat) (c : Z) : Z :=
  match n with
  | O => c
  | S n' =>
      shift_bits n'
        (if Z.testbit c 0 then Z.lxor (Z.shiftr c 1) poly else Z.shiftr c 1)
  end.

Definition update_byte (c : Z) (b : byte) : Z :=
  shift_bits 8 (Z.lxor c (Z_of_byte b)).

Definition ChecksumIEEE (data : list byte) : Z :=
  Z.lxor (fold_left update_byte data 0xFFFFFFFF) 0xFFFFFFFF.

End Crc.

(** [CRC32] of [model.go]: the checksum of the bytes of a string. *)
Definition CRC32 (str : string) : Z :=
  Crc.ChecksumIEEE (list_byte_of_string str).

(** ** Data model ([model.go]) *)

Definition T_SIZE : Z := 8.
Definition C_SIZE : Z := 4.
Definition CRC_SIZE : Z := T_SIZE + C_SIZE.
Definition TOMBSTONE_SIZE : Z := CRC_SIZE + 1.
Definition KEY_SIZE : Z := TOMBSTONE_SIZE + T_SIZE.
Definition VALUE_SIZE : Z := KEY_SIZE + T_SIZE.

Definition WAL_EXT : string := "wal".
Definition END_EXT : string := "_END".

Record Entry := mkEntry {
  Crc : Z;
  Timestamp : Z;
  Deleted : bool;
  Key : string;
  Value : list byte
}.

(** The batch element [T] of [Set]. *)
Record T := mkT {
  TKey : string;
  TValue : list byte;
  TDeleted : bool
}.

(** ** The record codec *)

(** [Process], given the value [sec] that [time.Now().Unix()] returned. *)
Definition Process_at (sec : Z) (key : string) (value : list byte)
    (deleted : bool) : list byte :=
  let data := [] in
  let crcb := PutUint32 (CRC32 (string_of_list_byte value)) in
  let data := data ++ crcb in
  let secb := PutUint64 (uint64 sec) in
  let data := data ++ secb in
  let data := if deleted then data ++ [x01] else data ++ [x00] in
  let keyb := list_byte_of_string key in
  let keybs := PutUint64 (uint64 (Z.of_nat (length keyb))) in
  let valuebs := PutUint64 (uint64 (Z.of_nat (length value))) in
  let data := data ++ keybs in
  let data := data ++ valuebs in
  let data := data ++ list_byte_of_string key in
  let data := data ++ value in
  data.

(** One turn of the loop of [convert] at cursor [i]: the decoded entry and
    the next cursor, or a panic. *)
Definition convert_step (data : slice) (i : Z) : option (Entry * Z) :=
  b ← reslice data i (uint64 (i + C_SIZE));
  crc ← Uint32 (elems b);
  b ← reslice data (uint64 (i + C_SIZE)) (uint64 (i + CRC_SIZE));
  timestamp ← Uint64 (elems b);
  tombstone ← index data (uint64 (i + CRC_SIZE));
  b ← reslice data (uint64 (i + TOMBSTONE_SIZE)) (uint64 (i + KEY_SIZE));
  key_size ← Uint64 (elems b);
  b ← reslice data (uint64 (i + KEY_SIZE)) (uint64 (i + VALUE_SIZE));
  value_size ← Uint64 (elems b);
  b ← reslice data (uint64 (i + VALUE_SIZE))
        (uint64 (uint64 (i + VALUE_SIZE) + key_size));
  let key_data := string_of_list_byte (elems b) in
  val ← reslice data (uint64 (uint64 (i + VALUE_SIZE) + key_size))
          (uint64 (uint64 (uint64 (i + VALUE_SIZE) + key_size) + value_size));
  let b := if Byte.eqb tombstone x01 then true else false in
  let e := mkEntry crc timestamp b key_data (elems val) in
  Some (e, uint64 (uint64 (uint64 (i + VALUE_SIZE) + key_size) + value_size)).

(** A value together with the equation that it is the value of [x]. *)
Definition inspect {A : Type} (x : A) : {y : A | x = y} := exist _ x eq_refl.

Lemma reslice_bounds s lo hi r :
  reslice s lo hi = Some r → 0 <= lo ∧ lo <= hi ∧ hi <= slice_cap s ∧ hi <= max_int.
Proof.
  unfold reslice. intros H.
  destruct (0 <=? lo) eqn:E1, (lo <=? hi) eqn:E2, (hi <=? slice_cap s) eqn:E3,
    (hi <=? max_int) eqn:E4; simpl in H; try discriminate. lia.
Qed.

Lemma convert_step_forward data i e i' :
  convert_step data i = Some (e, i') → i + VALUE_SIZE <= i'.
Proof.
  unfold convert_step. intros H.
  repeat match type of H with
  | (mbind _ ?m) = Some _ => destruct m eqn:?; simpl in H; [|discriminate]
  | (?m ≫= _) = Some _ => destruct m eqn:?; simpl in H; [|discriminate]
  end.
  repeat match goal with
  | R : reslice _ _ _ = Some _ |- _ => apply reslice_bounds in R
  end.
  injection H as _ <-.
  unfold uint64, max_int, VALUE_SIZE, KEY_SIZE, TOMBSTONE_SIZE, CRC_SIZE,
    T_SIZE, C_SIZE in *.
  assert (Hi : (i + (4 + 8 + 1 + 8 + 8)) mod 2 ^ 64 = i + 29).
  { replace (i + (4 + 8 + 1 + 8 + 8)) with (i + 29) by lia.
    apply Z.mod_small. lia. }
  replace (8 + 4 + 1 + 8 + 8) with 29 in * by lia.
  replace (i + (4 + 8 + 1 + 8 + 8)) with (i + 29) in * by lia.
  lia.
Qed.

(** The loop of [convert]: [i] runs over the record starts until it
    reaches [len(data)]; every turn moves it forward. *)
Equations? convert_loop (data : slice) (i : Z) (rez : list Entry) :
    option (list Entry) by wf (Z.to_nat (slice_len data - i)) lt :=
  convert_loop data i rez with inspect (i <? uint64 (slice_len data)) := {
    | exist _ false _ => Some rez
    | exist _ true Hlt with inspect (convert_step data i) := {
        | exist _ None _ => None
        | exist _ (Some next) Hstep =>
            convert_loop data (snd next) (rez ++ [fst next]) } }.
Proof.
  apply convert_step_forward in Hstep. apply Z.ltb_lt in Hlt.
  assert (uint64 (slice_len data) <= slice_len data).
  { unfold uint64, slice_len. apply Z.mod_le; lia. }
  unfold VALUE_SIZE, KEY_SIZE, TOMBSTONE_SIZE, CRC_SIZE, T_SIZE, C_SIZE in *.
  lia.
Qed.

Definition convert (data : slice) : option (list Entry) :=
  let rez := [] in
  if slice_len data =? 0 then Some rez
  else convert_loop data 0 rez.

(** ** Strings, paths and numbers of the Go library *)

Module GoStrings.

Local Open Scope nat_scope.

(** [strings.HasSuffix]. *)
Definition HasSuffix (s suffix : string) : bool :=
  (String.length suffix <=? String.length s) &&
  String.eqb
    (substring (String.length s - String.length suffix)
       (String.length suffix) s)
    suffix.

(** [strings.TrimSuffix]. *)
Definition TrimSuffix (s suffix : string) : string :=
  if HasSuffix s suffix
  then substring 0 (String.length s - String.length suffix) s
  else s.

Definition IsPathSeparator (c : ascii) : bool := Ascii.eqb c "/".

(** The loop of [filepath.Ext], with [n = i + 1]. *)
Fixpoint Ext_loop (path : string) (n : nat) : string :=
  match n with
  | O => EmptyString
  | S i =>
      match String.get i path with
      | Some c =>
          if IsPathSeparator c then EmptyString
          else if Ascii.eqb c "." then substring i (String.length path - i) path
          else Ext_loop path i
      | None => EmptyString
      end
  end.

(** [filepath.Ext]: the suffix from the last dot of the last path element. *)
Definition Ext (path : string) : string := Ext_loop path (String.length path).

(** [strings.Replace(s, old, new, -1)] for a non-empty [old]: every
    non-overlapping occurrence, left to right. [skip] counts the bytes of
    an occurrence that are still to be passed over. *)
Fixpoint Replace_from (old new : string) (skip : nat) (s : string) : string :=
  match s with
  | EmptyString => EmptyString
  | String c s' =>
      match skip with
      | S k => Replace_from old new k s'
      | O =>
          if String.prefix old s
          then new +:+ Replace_from old new (String.length old - 1) s'
          else String c (Replace_from old new 0 s')
      end
  end.

Definition Replace (s old new : string) : string := Replace_from old new 0 s.

(** [strings.Join] of two or more parts. *)
Definition Join (parts : list string) (sep : string) : string :=
  String.concat sep parts.

Inductive NumError := ErrSyntax | ErrRange.

Definition digit (c : ascii) : option Z :=
  let n := Z.of_N (N_of_ascii c) in
  if ((48 <=? n) && (n <=? 57))%Z then Some (n - 48)%Z else None.

Definition maxUint64 : Z := (2 ^ 64 - 1)%Z.

(** The digit loop of [strconv.ParseUint(s, 10, 64)]. *)
Fixpoint ParseUint_loop (s : string) (n : Z) : Z + NumError :=
  match s with
  | EmptyString => inl n
  | String c s' =>
      match digit c with
      | None => inr ErrSyntax
      | Some d =>
          if (maxUint64 / 10 + 1 <=? n)%Z then inr ErrRange
          else if (maxUint64 <? n * 10 + d)%Z then inr ErrRange
          else ParseUint_loop s' (n * 10 + d)%Z
      end
  end.

Definition ParseUint (s : string) : Z + NumError :=
  match s with
  | EmptyString => inr ErrSyntax
  | _ => ParseUint_loop s 0
  end.

(** [strconv.ParseInt(s, 10, 64)]. *)
Definition ParseInt (s : string) : Z + NumError :=
  match s with
  | EmptyString => inr ErrSyntax
  | String c s' =>
      let neg := Ascii.eqb c "-" in
      let s := if Ascii.eqb c "+" || Ascii.eqb c "-" then s' else s in
      let cutoff := (2 ^ 63)%Z in
      match ParseUint s with
      | inr ErrSyntax => inr ErrSyntax
      | inr ErrRange => inr ErrRange
      | inl un =>
          if negb neg && (cutoff <=? un)%Z then inr ErrRange
          else if neg && (cutoff <? un)%Z then inr ErrRange
          else inl (if neg then - un else un)%Z
      end
  end.

(** The decimal digits of a natural number, most significant first. *)
Fixpoint digits (fuel : nat) (n : N) (acc : string) : string :=
  match fuel with
  | O => acc
  | S fuel' =>
      let acc' := String (ascii_of_N (48 + n mod 10)) acc in
      if (n <? 10)%N then acc' else digits fuel' (n / 10)%N acc'
  end.

(** The verb [%d], and [strconv.Itoa]. *)
Definition Itoa (z : Z) : string :=
  match z with
  | Z0 => "0"
  | Zpos p => digits (Pos.to_nat (Pos.size p)) (Npos p) EmptyString
  | Zneg p => String "-" (digits (Pos.to_nat (Pos.size p)) (Npos p) EmptyString)
  end.

End GoStrings.
Export GoStrings.

Definition FORMAT_NAME (index : Z) : string :=
  "00000000000000000000" +:+ Itoa index.

(** ** The utility file *)

Definition fileNameWithoutExtension (fileName : string) : string :=
  TrimSuffix fileName (Ext fileName).

Definition fileNameWithoutSuffix (fileName suffix : string) : string :=
  TrimSuffix fileName suffix.

(** ** The state of the program and of its environment *)

(** The [error] values the sources build or receive. *)
Inductive error :=
| ErrNoTailFile                 (* errors.New("no tail file") *)
| ErrCacheMiss                  (* errors.New("Cache miss!") *)
| ErrConversion                 (* errors.New("Conversion error") *)
| ErrCacheError                 (* errors.New("Cache error") *)
| ErrNoSegment                  (* errors.New("Segment do not exists") *)
| ErrLRU                        (* the error of lru.NewLRU *)
| ErrNum (e : NumError)         (* an error of strconv.ParseInt *)
| ErrOS (op path : string).     (* a failed call on a file *)

(** The result of a Go function that returns [(A, error)]. *)
Inductive res (A : Type) :=
| Ok (a : A)
| Err (e : error).
Arguments Ok {A} a.
Arguments Err {A} e.

Module Segment.

Record t := mk {
  path : string;
  index : Z;
  size : Z;
  data : list byte
}.

Definition Size (s : t) : Z := size s.
Definition Path (s : t) : string := path s.
Definition Data (s : t) : list byte := data s.
Definition Index (s : t) : Z := index s.

Definition SetData (s : t) (data' : list byte) : t :=
  mk (path s) (index s) (size s) (data s ++ data').

Definition Append (s : t) (data' : list byte) (size' : Z) : t :=
  mk (path s) (index s) (int64 (size s + size')) (data s ++ data').

End Segment.

(** Modelled from the spec: the tail writer [fmmap.FMMAP] of the library
    github.com/MilosSimic/fmmap, which is no part of the sources. A handle
    knows the name of the file it was opened on and whether it was closed;
    the bytes live in the file system. *)
Record FMMAP := mkFMMAP {
  file_name : string;
  closed : bool
}.

(** Modelled from the spec: the read cache [lru.LRU] of the library
    github.com/MilosSimic/lru, which is no part of the sources: a bounded
    mapping from keys to bytes, most recently used first. *)
Record LRU := mkLRU {
  capacity : Z;
  items : list (string * list byte)
}.

Module WAL.

Record t := mk {
  path : string;
  segments : list nat;
  tail : option FMMAP;
  d : Z;
  lowMark : Z;
  lastIndex : Z;
  cache : LRU
}.

Definition set_segments (f : list nat → list nat) (w : t) : t :=
  mk (path w) (f (segments w)) (tail w) (d w) (lowMark w) (lastIndex w)
    (cache w).

Definition set_tail (x : option FMMAP) (w : t) : t :=
  mk (path w) (segments w) x (d w) (lowMark w) (lastIndex w) (cache w).

Definition set_lastIndex (x : Z) (w : t) : t :=
  mk (path w) (segments w) (tail w) (d w) (lowMark w) x (cache w).

Definition set_cache (x : LRU) (w : t) : t :=
  mk (path w) (segments w) (tail w) (d w) (lowMark w) (lastIndex w) x.

End WAL.

(** The receiver [wal] of the methods, the heap its [*Segment] pointers
    point into, and the environment: the files by path, what was printed,
    and the schedule of the operating system ([ticks] counts the calls
    made so far, [clock] is the time and [faults] the failure of the call
    with a given number). *)
Record Sys := mkSys {
  wal : WAL.t;
  heap : list Segment.t;
  files : gmap string (list byte);
  console : list error;
  ticks : nat;
  clock : nat → Z;
  faults : nat → bool
}.

Definition with_wal (f : WAL.t → WAL.t) (s : Sys) : Sys :=
  mkSys (f (wal s)) (heap s) (files s) (console s) (ticks s) (clock s)
    (faults s).

Definition with_heap (f : list Segment.t → list Segment.t) (s : Sys) : Sys :=
  mkSys (wal s) (f (heap s)) (files s) (console s) (ticks s) (clock s)
    (faults s).

Definition with_files
    (f : gmap string (list byte) → gmap string (list byte)) (s : Sys) : Sys :=
  mkSys (wal s) (heap s) (f (files s)) (console s) (ticks s) (clock s)
    (faults s).

Definition with_console (f : list error → list error) (s : Sys) : Sys :=
  mkSys (wal s) (heap s) (files s) (f (console s)) (ticks s) (clock s)
    (faults s).

Definition tick (s : Sys) : Sys :=
  mkSys (wal s) (heap s) (files s) (console s) (S (ticks s)) (clock s)
    (faults s).

(** ** The monad of the methods: state, with [None] for a panic *)

Definition M (A : Type) : Type := Sys → option (A * Sys).

Definition ret {A} (a : A) : M A := λ s, Some (a, s).

Definition bind {A B} (m : M A) (k : A → M B) : M B :=
  λ s, match m s with
       | Some (a, s') => k a s'
       | None => None
       end.

Definition panic {A} : M A := λ _, None.
Definition gets {A} (f : Sys → A) : M A := λ s, Some (f s, s).
Definition modify (f : Sys → Sys) : M unit := λ s, Some (tt, f s).

Notation "x <- m ;; k" := (bind m (λ x, k))
  (at level 100, m at next level, right associativity).
Notation "m ;;; k" := (bind m (λ _, k))
  (at level 100, right associativity).

(** ** The operating system and the two libraries *)

(** One call into the operating system: whether it fails. *)
Definition syscall : M bool := λ s, Some (faults s (ticks s), tick s).

(** [time.Now().Unix()]. *)
Definition time_Now_Unix : M Z := λ s, Some (clock s (ticks s), tick s).

(** [fmt.Println(err)]. *)
Definition Println (e : error) : M unit :=
  modify (with_console (λ c, c ++ [e])).

(** [os.Remove]: fails on a missing file. *)
Definition os_Remove (name : string) : M (option error) :=
  failed <- syscall ;;
  fs <- gets files ;;
  if failed then ret (Some (ErrOS "remove" name))
  else match fs !! name with
       | None => ret (Some (ErrOS "remove" name))
       | Some _ => modify (with_files (delete name)) ;;; ret None
       end.

(** [os.Rename]: fails on a missing source, replaces the target. The
    files are kept by their names only, without directories: the directory
    of the target is taken to be there, as it is when both names lie in
    the same directory. *)
Definition os_Rename (oldpath newpath : string) : M (option error) :=
  failed <- syscall ;;
  fs <- gets files ;;
  if failed then ret (Some (ErrOS "rename" oldpath))
  else match fs !! oldpath with
       | None => ret (Some (ErrOS "rename" oldpath))
       | Some content =>
           modify (with_files (λ fs, <[newpath := content]> (delete oldpath fs))) ;;;
           ret None
       end.

(** [os.Stat(path)] followed by [fi.Size()]. *)
Definition os_Stat_Size (name : string) : M (res Z) :=
  failed <- syscall ;;
  fs <- gets files ;;
  if failed then ret (Err (ErrOS "stat" name))
  else match fs !! name with
       | None => ret (Err (ErrOS "stat" name))
       | Some content => ret (Ok (Z.of_nat (length content)))
       end.

(** Modelled from the spec: [fmmap.NewFile(path, os.O_RDWR|os.O_CREATE)]
    creates the file if absent and maps it. *)
Definition fmmap_NewFile (name : string) : M (res FMMAP) :=
  failed <- syscall ;;
  fs <- gets files ;;
  if failed then ret (Err (ErrOS "open" name))
  else
    (match fs !! name with
     | None => modify (with_files (λ fs, <[name := []]> fs))
     | Some _ => ret tt
     end) ;;;
    ret (Ok (mkFMMAP name false)).

(** Modelled from the spec: [FMMAP.Update] durably appends the bytes to the
    end of the mapped file, or fails and appends nothing. A closed handle
    cannot be written. The bytes written through the handle of a file that
    was removed reach no path. *)
Definition fmmap_Update (h : FMMAP) (data : list byte) : M (option error) :=
  if closed h then ret (Some (ErrOS "update" (file_name h)))
  else
    failed <- syscall ;;
    if failed then ret (Some (ErrOS "update" (file_name h)))
    else
      modify (with_files (alter (λ old, old ++ data) (file_name h))) ;;;
      ret None.

(** Modelled from the spec: [FMMAP.Get] is a view of the mapped content,
    exactly the bytes of the file. *)
Definition fmmap_Get (h : FMMAP) : M slice :=
  fs <- gets files ;;
  ret (full (default [] (fs !! file_name h))).

(** Modelled from the spec: [FMMAP.Close]. *)
Definition fmmap_Close (h : FMMAP) : FMMAP := mkFMMAP (file_name h) true.

(** [FMMAP.GetFile().Name()]: the name the file was opened with. *)
Definition fmmap_Name (h : FMMAP) : string := file_name h.

(** Modelled from the spec: [lru.NewLRU(cap, nil)], an empty cache of the
    given capacity, which has to be positive. *)
Definition lru_NewLRU (cap : Z) : res LRU :=
  if cap <=? 0 then Err ErrLRU else Ok (mkLRU cap []).

(** Modelled from the spec: [LRU.Get], which makes the key the most
    recently used one. *)
Definition lru_Get (key : string) (c : LRU) : option (list byte) * LRU :=
  match list_find (λ kv, kv.1 = key) (items c) with
  | Some (_, (_, v)) =>
      (Some v,
       mkLRU (capacity c)
         ((key, v) :: filter (λ kv, kv.1 ≠ key) (items c)))
  | None => (None, c)
  end.

(** Modelled from the spec: [LRU.Put], which keeps at most [capacity]
    entries and drops the least recently used ones. *)
Definition lru_Put (key : string) (v : list byte) (c : LRU) : bool * LRU :=
  (true,
   mkLRU (capacity c)
     (take (Z.to_nat (capacity c))
        ((key, v) :: filter (λ kv, kv.1 ≠ key) (items c)))).

(** The path elements of a path below the root. *)
Fixpoint components (s : string) : list string :=
  match s with
  | EmptyString => [EmptyString]
  | String c s' =>
      if IsPathSeparator c then EmptyString :: components s'
      else match components s' with
           | x :: r => String c x :: r
           | [] => [String c EmptyString]
           end
  end.

(** The order in which [filepath.Walk] reaches two files: the names of
    every directory are visited in lexical order, depth first. *)
Fixpoint walk_leb (a b : list string) : bool :=
  match a, b with
  | [], _ => true
  | _ :: _, [] => false
  | x :: a', y :: b' =>
      match String.compare x y with
      | Lt => true
      | Gt => false
      | Eq => walk_leb a' b'
      end
  end.

Definition walk_before (a b : string * list string) : Prop :=
  walk_leb a.2 b.2 = true.

#[global] Instance walk_before_dec : RelDecision walk_before.
Proof. intros a b. unfold walk_before. apply _. Defined.

(** The path of a file below [root], relative to it. The names are
    compared as they are written, so [root] is taken to be a clean path,
    one that [filepath.Clean] leaves as it is. *)
Definition below (root name : string) : option (list string) :=
  if String.prefix (root +:+ "/") name
  then Some (components
               (substring (String.length root + 1)
                  (String.length name - (String.length root + 1)) name))
  else None.

(** The regular files that [filepath.Walk(root, fn)] hands to [fn], in
    the order of the walk, each with its path and its base name. The
    root is taken to be an existing directory and a clean path. *)
Definition walk_files (root : string) (fs : gmap string (list byte)) :
    list (string * string) :=
  (λ e, (e.1, default EmptyString (last e.2))) <$>
  merge_sort walk_before
    (omap (λ kv, c ← below root kv.1; Some (kv.1, c)) (map_to_list fs)).

(** The calls of [fn] on the files of a walk: the first error stops it. *)
Fixpoint Walk (entries : list (string * string))
    (fn : string → string → M (option error)) : M (option error) :=
  match entries with
  | [] => ret None
  | (name, base) :: rest =>
      err <- fn name base ;;
      match err with
      | Some e => ret (Some e)
      | None => Walk rest fn
      end
  end.

(** ** Pointers to segments *)

(** [&Segment{...}]: a fresh address. *)
Definition alloc (x : Segment.t) : M nat :=
  h <- gets heap ;;
  modify (with_heap (λ h, h ++ [x])) ;;;
  ret (length h).

(** [*p]; a pointer that is not in the heap is a nil or wild one. *)
Definition deref (p : nat) : M Segment.t :=
  h <- gets heap ;;
  match h !! p with
  | Some x => ret x
  | None => panic
  end.

Definition store (p : nat) (x : Segment.t) : M unit :=
  _ <- deref p ;;
  modify (with_heap (λ h, <[p := x]> h)).

(** [sort.Search(n, f)]: the binary search of the Go library. The
    predicate reads the program state and so may panic. *)
Equations? Search_loop (f : nat → option bool) (i j : nat) : option nat
    by wf (j - i)%nat lt :=
  Search_loop f i j with inspect (i <? j)%nat := {
    | exist _ false _ => Some i
    | exist _ true Hlt with inspect (f ((i + j) / 2)%nat) := {
        | exist _ None _ => None
        | exist _ (Some false) _ => Search_loop f ((i + j) / 2 + 1)%nat j
        | exist _ (Some true) _ => Search_loop f i ((i + j) / 2)%nat } }.
Proof.
  all: apply Nat.ltb_lt in Hlt.
  all: change (Nat.divmod (i + j) 1 0 1).1 with ((i + j) / 2)%nat.
  all: pose proof (Nat.div_mod_eq (i + j) 2) as Hd.
  all: pose proof (Nat.mod_upper_bound (i + j) 2) as Hm; lia.
Qed.

Definition Search (n : nat) (f : nat → option bool) : option nat :=
  Search_loop f 0 n.

(** ** The methods of [model.go] *)

Definition Close : M unit :=
  w <- gets wal ;;
  match WAL.tail w with
  | None => panic
  | Some h => modify (with_wal (WAL.set_tail (Some (fmmap_Close h))))
  end.

Definition Segments : M (list nat) := w <- gets wal ;; ret (WAL.segments w).

Definition AppendSegment (segment : nat) : M unit :=
  modify (with_wal (WAL.set_segments (λ l, l ++ [segment]))).

(** [append(wal.segments[:index], wal.segments[index+1:]...)]. *)
Definition removeIndex (index : Z) : M unit :=
  w <- gets wal ;;
  if (0 <=? index) && (index + 1 <=? Z.of_nat (length (WAL.segments w)))
  then modify (with_wal (WAL.set_segments (λ l,
         take (Z.to_nat index) l ++ drop (Z.to_nat (index + 1)) l)))
  else panic.

Definition NewWAL (path : string) (duration : Z) (lowMark : Z) (cap : Z) :
    res WAL.t :=
  match lru_NewLRU cap with
  | Err err => Err err
  | Ok cache =>
      Ok (WAL.mk path [] None duration lowMark 0 cache)
  end.

Definition TailPath : M (res string) :=
  w <- gets wal ;;
  match WAL.tail w with
  | None => ret (Err ErrNoTailFile)
  | Some h => ret (Ok (fmmap_Name h))
  end.

Definition open (path : string) : M (res FMMAP) := fmmap_NewFile path.

Definition Update (data : list byte) (s : nat) : M (option error) :=
  w <- gets wal ;;
  match WAL.tail w with
  | None => panic
  | Some h =>
      err <- fmmap_Update h data ;;
      match err with
      | Some e => ret (Some e)
      | None =>
          seg <- deref s ;;
          store s (Segment.Append seg data (int64 (Z.of_nat (length data)))) ;;;
          ret None
      end
  end.

Definition findInCache (index : Z) : M (res slice) :=
  let key := Itoa index in
  w <- gets wal ;;
  match lru_Get key (WAL.cache w) with
  | (None, _) => ret (Err ErrCacheMiss)
  | (Some v, c) =>
      modify (with_wal (WAL.set_cache c)) ;;;
      ret (Ok (full v))
  end.

Definition cacheit (index : Z) (value : slice) : M (option error) :=
  let key := Itoa index in
  w <- gets wal ;;
  match lru_Put key (elems value) (WAL.cache w) with
  | (false, _) => ret (Some ErrCacheError)
  | (true, c) =>
      modify (with_wal (WAL.set_cache c)) ;;;
      ret None
  end.

(** ** The utility file, continued *)

Definition convertIndex (index : string) : res Z :=
  match ParseInt index with
  | inr e => Err (ErrNum e)
  | inl i => Ok i
  end.

(** ** The coordinator *)

Definition Process (key : string) (value : list byte) (deleted : bool) :
    M (list byte) :=
  sec <- time_Now_Unix ;;
  ret (Process_at sec key value deleted).

Definition getSegmentData (tail : nat) : M (res slice) :=
  seg <- deref tail ;;
  r <- open (Segment.Path seg) ;;
  match r with
  | Err err => ret (Err err)
  | Ok mmap => b <- fmmap_Get mmap ;; ret (Ok b)
  end.

Definition newSegment : M (res nat) :=
  let create : M (res nat) :=
    w <- gets wal ;;
    let index := int64 (WAL.lastIndex w + 1) in
    let temp := FORMAT_NAME index in
    let temp := substring (String.length temp - 20) 20 temp in
    let temp := Join [WAL.path w; temp] "/" in
    let temp := Join [temp; END_EXT] EmptyString in
    let temp := Join [temp; WAL_EXT] "." in
    r <- open temp ;;
    match r with
    | Err err =>
        modify (with_wal (WAL.set_tail None)) ;;;
        ret (Err err)
    | Ok h =>
        modify (with_wal (WAL.set_tail (Some h))) ;;;
        segment <- alloc (Segment.mk temp index 0 []) ;;
        modify (with_wal (WAL.set_lastIndex index)) ;;;
        AppendSegment segment ;;;
        ret (Ok segment)
    end in
  r <- TailPath ;;
  match r with
  | Ok prevTail =>
      Close ;;;
      let regularPath := Replace prevTail END_EXT EmptyString in
      err <- os_Rename prevTail regularPath ;;
      match err with
      | Some e => ret (Err e)
      | None => create
      end
  | Err _ => create
  end.

(** The predicate of the two binary searches: [x <= wal.segments[i].index]. *)
Definition index_at_least (s : Sys) (x : Z) (i : nat) : option bool :=
  p ← WAL.segments (wal s) !! i;
  seg ← heap s !! p;
  Some (x <=? Segment.index seg).

Definition getLastSegment : M (res nat) :=
  s <- gets id ;;
  let w := wal s in
  match Search (length (WAL.segments w)) (index_at_least s (WAL.lastIndex w)) with
  | None => panic
  | Some i =>
      match WAL.segments w !! i with
      | Some p =>
          seg <- deref p ;;
          if Segment.index seg =? WAL.lastIndex w then ret (Ok p)
          else newSegment
      | None => newSegment
      end
  end.

Definition findSegment (index : Z) : M (res nat) :=
  s <- gets id ;;
  let w := wal s in
  match Search (length (WAL.segments w)) (index_at_least s index) with
  | None => panic
  | Some i =>
      match WAL.segments w !! i with
      | Some p =>
          seg <- deref p ;;
          if Segment.index seg =? index then
            r <- getSegmentData p ;;
            match r with
            | Ok data => cacheit index data ;;; ret (Ok p)
            | Err _ => ret (Ok p)
            end
          else ret (Err ErrNoSegment)
      | None => ret (Err ErrNoSegment)
      end
  end.

Definition Read (index : Z) : M (res slice) :=
  w <- gets wal ;;
  if WAL.lastIndex w <=? index then
    r <- getLastSegment ;;
    match r with
    | Err err => ret (Err err)
    | Ok segment => getSegmentData segment
    end
  else
    c <- findInCache index ;;
    match c with
    | Ok cached => ret (Ok cached)
    | Err _ =>
        r <- findSegment index ;;
        match r with
        | Err err => ret (Err err)
        | Ok segment => getSegmentData segment
        end
    end.

Definition ReadConverted (index : Z) : M (res (list Entry)) :=
  r <- Read index ;;
  match r with
  | Err err => ret (Err err)
  | Ok bytes =>
      match convert bytes with
      | None => panic
      | Some rez => ret (Ok rez)
      end
  end.

(** [t.Key], [t.Value], [t.Deleted] on an element of the batch [[]*T]:
    the element is a pointer, and a nil pointer is a panic. *)
Definition deref_T (t : option T) : M T :=
  match t with
  | Some x => ret x
  | None => panic
  end.

(** The [for _, t := range ts] loop of [Set]. *)
Fixpoint Set'_loop (ts : list (option T)) (data : list byte) : M (list byte) :=
  match ts with
  | [] => ret data
  | t :: rest =>
      x <- deref_T t ;;
      part <- Process (TKey x) (TValue x) (TDeleted x) ;;
      Set'_loop rest (data ++ part)
  end.

Definition Set' (ts : list (option T)) : M (option error) :=
  r <- newSegment ;;
  match r with
  | Err err => ret (Some err)
  | Ok tail =>
      let data := [] in
      data <- (match ts with
               | [t] =>
                   x <- deref_T t ;;
                   part <- Process (TKey x) (TValue x) (TDeleted x) ;;
                   ret (data ++ part)
               | _ => Set'_loop ts data
               end) ;;
      err <- Update data tail ;;
      match err with
      | Some e => ret (Some e)
      | None => ret None
      end
  end.

Definition setupLastSegment : M (option error) :=
  r <- getLastSegment ;;
  match r with
  | Ok lastSegment =>
      seg <- deref lastSegment ;;
      t <- open (Segment.Path seg) ;;
      match t with
      | Err err =>
          modify (with_wal (WAL.set_tail None)) ;;;
          ret (Some err)
      | Ok h =>
          modify (with_wal (WAL.set_tail (Some h))) ;;;
          b <- fmmap_Get h ;;
          seg <- deref lastSegment ;;
          store lastSegment (Segment.SetData seg (elems b)) ;;;
          ret None
      end
  | Err err => ret (Some err)
  end.

(** The function that [Open] hands to [filepath.Walk], on a regular file. *)
Definition Open_visit (path name : string) : M (option error) :=
  if negb (String.eqb (Ext path) ".wal") then ret None
  else
    let name := fileNameWithoutExtension name in
    r <- (if HasSuffix name END_EXT then
            let lastIndex := fileNameWithoutSuffix name END_EXT in
            match convertIndex lastIndex with
            | Err err => ret (Err err)
            | Ok i =>
                modify (with_wal (WAL.set_lastIndex i)) ;;;
                ret (Ok i)
            end
          else ret (convertIndex name)) ;;
    match r with
    | Err err => ret (Some err)
    | Ok i =>
        fi <- os_Stat_Size path ;;
        match fi with
        | Err err => ret (Some err)
        | Ok size =>
            segment <- alloc (Segment.mk path i size []) ;;
            AppendSegment segment ;;;
            ret None
        end
    end.

(** [Open]. [filepath.Walk] first calls [os.Lstat] on the root; when that
    fails (the directory is not there) it hands the root to the function
    with a nil [FileInfo], and [info.IsDir()] is a panic. *)
Definition Open : M (option error) :=
  w <- gets wal ;;
  failed <- syscall ;;
  if failed then panic
  else
    fs <- gets files ;;
    err <- Walk (walk_files (WAL.path w) fs) Open_visit ;;
    match err with
    | Some e => ret (Some e)
    | None => setupLastSegment
    end.

(** The loop of [cleanLog] with [i = n - 1]; [segments[-1]] is a panic. *)
Fixpoint cleanLog_loop (n : nat) : M unit :=
  w <- gets wal ;;
  if WAL.lowMark w <=? Z.of_nat n - 1 then
    match n with
    | O => panic
    | S i =>
        match WAL.segments w !! i with
        | None => panic
        | Some p =>
            seg <- deref p ;;
            err <- os_Remove (Segment.Path seg) ;;
            match err with
            | Some e => Println e
            | None => removeIndex (Z.of_nat i) ;;; cleanLog_loop i
            end
        end
    end
  else ret tt.

Definition cleanLog : M unit :=
  w <- gets wal ;;
  cleanLog_loop (length (WAL.segments w)).

(** A complete record as it lies in a file: the five header fields, the
    key and the value, with any bytes in the CRC, time and tombstone
    fields. *)
Definition raw_record (crc ts : Z) (tomb : byte) (key value : list byte) :
    list byte :=
  PutUint32 crc ++ PutUint64 ts ++ [tomb] ++
  PutUint64 (Z.of_nat (length key)) ++ PutUint64 (Z.of_nat (length value)) ++
  key ++ value.

(** The entry that the bytes of [raw_record] stand for. *)
Definition raw_entry (crc ts : Z) (tomb : byte) (key value : list byte) :
    Entry :=
  mkEntry (uint32 crc) (uint64 ts) (Byte.eqb tomb x01)
    (string_of_list_byte key) value.

(** The fields of a complete record. *)
Record Raw := mkRaw {
  raw_crc : Z;
  raw_ts : Z;
  raw_tomb : byte;
  raw_key : list byte;
  raw_value : list byte
}.

Definition Raw_bytes (r : Raw) : list byte :=
  raw_record (raw_crc r) (raw_ts r) (raw_tomb r) (raw_key r) (raw_value r).

Definition Raw_entry (r : Raw) : Entry :=
  raw_entry (raw_crc r) (raw_ts r) (raw_tomb r) (raw_key r) (raw_value r).

(** What [Process] writes for a batch element at time [sec], and the entry
    that a reader expects back for it. *)
Definition encode (r : Z * T) : list byte :=
  Process_at r.1 (TKey r.2) (TValue r.2) (TDeleted r.2).

Definition expected_entry (r : Z * T) : Entry :=
  mkEntry (CRC32 (string_of_list_byte (TValue r.2))) (uint64 r.1)
    (TDeleted r.2) (TKey r.2) (TValue r.2).

(** What [Process] writes is a complete record. *)
Definition Raw_of (r : Z * T) : Raw :=
  mkRaw (CRC32 (string_of_list_byte (TValue r.2))) (uint64 r.1)
    (if TDeleted r.2 then x01 else x00) (list_byte_of_string (TKey r.2))
    (TValue r.2).

(** The 29 bytes of a header that announces [ks] key bytes and [vs] value
    bytes. *)
Definition raw_header (crc ts : Z) (tomb : byte) (ks vs : Z) : list byte :=
  PutUint32 crc ++ PutUint64 ts ++ [tomb] ++ PutUint64 ks ++ PutUint64 vs.

(** The name that [newSegment] gives to the tail file of a new index. *)
Definition tail_file (path : string) (index : Z) : string :=
  let temp := FORMAT_NAME index in
  let temp := substring (String.length temp - 20) 20 temp in
  let temp := Join [path; temp] "/" in
  let temp := Join [temp; END_EXT] EmptyString in
  Join [temp; WAL_EXT] ".".

(** The files once [newSegment] has renamed the file of the previous tail,
    if there is a tail. *)
Definition sealed_files (s : Sys) : gmap string (list byte) :=
  match WAL.tail (wal s) with
  | None => files s
  | Some h =>
      match files s !! file_name h with
      | Some content =>
          <[Replace (file_name h) END_EXT EmptyString := content]>
            (delete (file_name h) (files s))
      | None => files s
      end
  end.

(** The files once a file has been opened with [O_CREATE]. *)
Definition created (name : string) (fs : gmap string (list byte)) :
    gmap string (list byte) :=
  match fs !! name with
  | None => <[name := []]> fs
  | Some _ => fs
  end.

(** The state after [n] more calls into the operating system that change
    nothing but the count of the calls. *)
Definition ticked (n : nat) (s : Sys) : Sys :=
  mkSys (wal s) (heap s) (files s) (console s) (n + ticks s) (clock s)
    (faults s).

(** The batch [[]*T] whose elements point to the records [ts]: no element
    is nil. *)
Definition pointers (ts : list T) : list (option T) := map Some ts.

(** The elements of a batch with the times at which [Process] reads the
    clock, the first one at call number [t]. *)
Fixpoint stamp (clock : nat → Z) (t : nat) (ts : list T) : list (Z * T) :=
  match ts with
  | [] => []
  | x :: rest => (clock t, x) :: stamp clock (S t) rest
  end.

(** The buffer that [Set] builds for a batch. *)
Definition batch_bytes (clock : nat → Z) (t : nat) (ts : list T) : list byte :=
  concat (map encode (stamp clock t ts)).

(** What [Open] reads from the name of a file of the walk: nothing when
    the file is no [.wal] file, else the index and whether the name marks
    the tail, or the error of the conversion. *)
Definition visit_index (e : string * string) : option (res (Z * bool)) :=
  if negb (String.eqb (Ext e.1) ".wal") then None
  else
    let name := fileNameWithoutExtension e.2 in
    if HasSuffix name END_EXT then
      match convertIndex (fileNameWithoutSuffix name END_EXT) with
      | Ok i => Some (Ok (i, true))
      | Err err => Some (Err err)
      end
    else
      match convertIndex name with
      | Ok i => Some (Ok (i, false))
      | Err err => Some (Err err)
      end.

(** The indices of the [.wal] files of a walk, in the order of the walk. *)
Definition walk_indices (entries : list (string * string)) : list Z :=
  omap (λ e, match visit_index e with
             | Some (Ok (i, _)) => Some i
             | _ => None
             end) entries.

(** The index of the last file of a walk that is marked as the tail, or
    [l] when none is. *)
Definition walk_tail (entries : list (string * string)) (l : Z) : Z :=
  fold_left (λ l e, match visit_index e with
                    | Some (Ok (i, true)) => i
                    | _ => l
                    end) entries l.

(** ** The segments as the properties speak of them *)

(** The path and the index behind a pointer of [wal.segments]. *)
Definition seg_path (s : Sys) (p : nat) : string :=
  match heap s !! p with
  | Some seg => Segment.path seg
  | None => EmptyString
  end.

Definition seg_index (s : Sys) (p : nat) : Z :=
  match heap s !! p with
  | Some seg => Segment.index seg
  | None => 0
  end.

(** The indices of [wal.segments], in the order of the sequence. *)
Definition indices (s : Sys) : list Z :=
  map (seg_index s) (WAL.segments (wal s)).

(** Strictly sorted: for all positions [i < j], [l[i] < l[j]]. *)
Definition increasing (l : list Z) : Prop :=
  ∀ i j a b, (i < j)%nat → l !! i = Some a → l !! j = Some b → a < b.

(** Every pointer of [wal.segments] points to a segment. *)
Definition live (s : Sys) : Prop :=
  Forall (λ p, is_Some (heap s !! p)) (WAL.segments (wal s)).

(** The order that the binary searches rely on: strictly sorted, and no
    index above [lastIndex]. *)
Definition ordered (s : Sys) : Prop :=
  increasing (indices s) ∧
  Forall (λ a, a <= WAL.lastIndex (wal s)) (indices s).

(** The number of segments that a sweep without failure keeps:
    [min(lowMark, len(segments))]. *)
Definition kept (s : Sys) : nat :=
  Z.to_nat (Z.min (WAL.lowMark (wal s))
              (Z.of_nat (length (WAL.segments (wal s))))).

(** What a sweep of [n] segments leaves: the first [k] segments, the
    files of the others removed, and either no message and [k] at the low
    mark, or the message of the removal that failed at position [k - 1]. *)
Definition swept (s s' : Sys) (n k : nat) : Prop :=
  (k <= n)%nat ∧
  wal s' = WAL.set_segments (take k) (wal s) ∧
  heap s' = heap s ∧
  files s' =
    foldr delete (files s) (map (seg_path s) (drop k (WAL.segments (wal s)))) ∧
  ((console s' = console s ∧
    Z.of_nat k = Z.min (WAL.lowMark (wal s)) (Z.of_nat n)) ∨
   (∃ i, k = S i ∧ WAL.lowMark (wal s) <= Z.of_nat i ∧
         console s' =
           console s ++
           [ErrOS "remove"
              (seg_path s (default 0%nat (WAL.segments (wal s) !! i)))])).

(** The last twenty characters of [fmt.Sprintf(FORMAT_NAME, index)]: the
    stem of the name of a segment file. *)
Definition padded (index : Z) : string :=
  let temp := FORMAT_NAME index in
  substring (String.length temp - 20) 20 temp.

(** A run of the character [0]. *)
Fixpoint zeros (n : nat) : string :=
  match n with
  | O => EmptyString
  | S k => String "0" (zeros k)
  end.

(** Whether every character is a decimal digit. *)
Fixpoint all_digits (s : string) : bool :=
  match s with
  | EmptyString => true
  | String c s' =>
      match digit c with
      | Some _ => all_digits s'
      | None => false
      end
  end.

(** The number of bytes that [Set] writes for a batch. *)
Definition batch_size (ts : list T) : nat :=
  sum_list (map (λ t, 29 + String.length (TKey t) + length (TValue t))%nat ts).

(** Every segment of [wal.segments] is there and holds no data yet. *)
Definition unloaded (s : Sys) : Prop :=
  Forall (λ p, ∃ seg, heap s !! p = Some seg ∧ Segment.data seg = [])
    (WAL.segments (wal s)).

(** The name that a rollover gives to the file of the segment [index], as
    the tail and after it was sealed, and the last element of that path. *)
Definition segment_file (dir : string) (index : Z) (is_tail : bool) : string :=
  if is_tail then tail_file dir index
  else dir +:+ "/" +:+ padded index +:+ ".wal".

Definition segment_base (index : Z) (is_tail : bool) : string :=
  padded index +:+ (if is_tail then "_END.wal" else ".wal").

(** A directory as the rollovers of a WAL leave it: every file below it is
    the file of a segment, sealed or tail, and no index has two files. *)
Definition segment_dir (dir : string) (fs : gmap string (list byte)) : Prop :=
  (∀ name, is_Some (fs !! name) → String.prefix (dir +:+ "/") name = true →
           ∃ i t, 0 <= i <= max_int ∧ name = segment_file dir i t) ∧
  (∀ i t t', 0 <= i <= max_int →
             is_Some (fs !! segment_file dir i t) →
             is_Some (fs !! segment_file dir i t') → t = t').

(** An entry of the walk of such a directory. *)
Definition segment_entry (dir : string) (fs : gmap string (list byte))
    (e : string * list string) : Prop :=
  ∃ i t, 0 <= i <= max_int ∧ is_Some (fs !! segment_file dir i t) ∧
         e = (segment_file dir i t, [segment_base i t]).

(** The files below a directory with their path elements, before
    [filepath.Walk] puts them in its order. *)
Definition found (dir : string) (fs : gmap string (list byte)) :
    list (string * list string) :=
  omap (λ kv : string * list byte, c ← below dir kv.1; Some (kv.1, c))
    (map_to_list fs).

(** The entry that [filepath.Walk] hands to the function of [Open]: the
    path and the base name. *)
Definition handed (e : string * list string) : string * string :=
  (e.1, default EmptyString (last e.2)).

(** The paths of a directory for which the names of this model are the
    names of the program: a path that [filepath.Clean] leaves as it is and
    to which [filepath.Join] appends a name after one separator. It is not
    empty, has no separator at its end and no element that is empty, [.]
    or [..], but for the empty first element of a rooted path. *)
Definition clean_root (path : string) : bool :=
  match components path with
  | first :: rest =>
      negb (String.eqb first ".") && negb (String.eqb first "..") &&
      (negb (String.eqb first EmptyString) ||
       match rest with [] => false | _ => true end) &&
      forallb (λ c, negb (String.eqb c EmptyString) &&
                    negb (String.eqb c ".") && negb (String.eqb c ".."))
        rest
  | [] => false
  end.

(** The files that [Open] walks. *)
Definition walked (s : Sys) : list (string * string) :=
  walk_files (WAL.path (wal s)) (files s).

(** ** Sample states *)

(** The WAL that [NewWAL("/var/wal", time.Second, 2, 8)] returns, in a
    directory without files, with a clock that stands still and an
    operating system that does not fail. *)
Definition sample_wal : WAL.t :=
  WAL.mk "/var/wal" [] None 1000000000 2 0 (mkLRU 8 []).

Definition sample_fresh : Sys :=
  mkSys sample_wal [] ∅ [] 0 (λ _, 1700000000) (λ _, false).

(** The same after [Open]. *)
Definition sample_tail : string := "/var/wal/00000000000000000001_END.wal".

Definition sample_opened : Sys :=
  mkSys
    (WAL.mk "/var/wal" [0%nat] (Some (mkFMMAP sample_tail false)) 1000000000 2
       1 (mkLRU 8 []))
    [Segment.mk sample_tail 1 0 []]
    {[ sample_tail := [] ]} [] 3 (λ _, 1700000000) (λ _, false).

(** A directory as a WAL leaves it: a sealed segment and the tail. *)
Definition sample_reopen : Sys :=
  mkSys sample_wal []
    {[ "/var/wal/00000000000000000001.wal" := [x01];
       "/var/wal/00000000000000000002_END.wal" := [] ]}
    [] 0 (λ _, 1700000000) (λ _, false).



(** A WAL with three segments and their files, with the low mark
    [lowMark] and an operating system whose call number [n] fails when
    [fails n]. *)
Definition sample_sweep (lowMark : Z) (fails : nat → bool) : Sys :=
  mkSys
    (WAL.mk "/var/wal" [0; 1; 2]%nat
       (Some (mkFMMAP "/var/wal/00000000000000000003_END.wal" false))
       1000000000 lowMark 3 (mkLRU 8 []))
    [Segment.mk "/var/wal/00000000000000000001.wal" 1 0 [];
     Segment.mk "/var/wal/00000000000000000002.wal" 2 0 [];
     Segment.mk "/var/wal/00000000000000000003_END.wal" 3 0 []]
    {[ "/var/wal/00000000000000000001.wal" := [];
       "/var/wal/00000000000000000002.wal" := [];
       "/var/wal/00000000000000000003_END.wal" := [] ]}
    [] 0 (λ _, 1700000000) fails.

(** A directory whose tail has the largest index that an [int64] holds. *)
Definition sample_brim : Sys :=
  mkSys sample_wal []
    {[ "/var/wal/09223372036854775807_END.wal" := [] ]}
    [] 0 (λ _, 1700000000) (λ _, false).

(** The state that a run leaves; the start state when the run panics. *)
Definition state_after {A} (m : M A) (s : Sys) : Sys :=
  match m s with
  | Some (_, s') => s'
  | None => s
  end.

(** A batch of one record, and the opened sample after [Set] of it. *)
Definition sample_batch : list T := [mkT "a" [x31] false].

Definition sample_written : Sys := state_after (Set' (pointers sample_batch)) sample_opened.

(** The sample of three segments, without failures, and what a sweep with
    the low mark 1 leaves of it. *)
Definition sample_three : Sys := sample_sweep 1 (λ _, false).

Definition sample_swept : Sys := state_after cleanLog sample_three.

(** The sample directory of a sealed segment and a tail after [Open]. *)
Definition sample_reopened : Sys :=
  mkSys
    (WAL.mk "/var/wal" [0; 1]%nat
       (Some (mkFMMAP "/var/wal/00000000000000000002_END.wal" false))
       1000000000 2 2 (mkLRU 8 []))
    [Segment.mk "/var/wal/00000000000000000001.wal" 1 1 [];
     Segment.mk "/var/wal/00000000000000000002_END.wal" 2 0 []]
    {[ "/var/wal/00000000000000000001.wal" := [x01];
       "/var/wal/00000000000000000002_END.wal" := [] ]}
    [] 4 (λ _, 1700000000) (λ _, false).

(** A WAL as [Open] leaves it on a directory with a sealed segment and a
    tail of two bytes. *)
Definition sample_loaded : Sys :=
  mkSys
    (WAL.mk "/var/wal" [0; 1]%nat
       (Some (mkFMMAP "/var/wal/00000000000000000002_END.wal" false))
       1000000000 2 2 (mkLRU 8 []))
    [Segment.mk "/var/wal/00000000000000000001.wal" 1 1 [];
     Segment.mk "/var/wal/00000000000000000002_END.wal" 2 2 [x07; x08]]
    {[ "/var/wal/00000000000000000001.wal" := [x01];
       "/var/wal/00000000000000000002_END.wal" := [x07; x08] ]}
    [] 4 (λ _, 1700000000) (λ _, false).

(** * Properties *)

(** ** Bytes and little-endian fields *)

Section bytes_facts.

Lemma Z_of_byte_range b : 0 <= Z_of_byte b < 256.
Proof.
  unfold Z_of_byte. pose proof (Byte.to_N_bounded b). lia.
Qed.

Lemma Z_of_byte_of_Z z : Z_of_byte (byte_of_Z z) = z mod 256.
Proof.
  unfold Z_of_byte, byte_of_Z.
  assert (Hr : 0 <= z mod 256 < 256) by (apply Z.mod_pos_bound; lia).
  destruct (Byte.of_N (Z.to_N (z mod 256))) as [b|] eqn:E.
  - apply Byte.to_of_N in E. rewrite E. lia.
  - apply Byte.of_N_None_iff in E. lia.
Qed.

Lemma uint64_small x : 0 <= x < 2 ^ 64 → uint64 x = x.
Proof. intros. unfold uint64. apply Z.mod_small. lia. Qed.

Lemma uint32_small x : 0 <= x < 2 ^ 32 → uint32 x = x.
Proof. intros. unfold uint32. apply Z.mod_small. lia. Qed.

Lemma int64_small x : - 2 ^ 63 <= x <= max_int → int64 x = x.
Proof.
  unfold int64, max_int. intros. rewrite Z.mod_small; lia.
Qed.

Lemma int64_int64 x : int64 (int64 x) = int64 x.
Proof.
  unfold int64.
  replace ((x + 2 ^ 63) mod 2 ^ 64 - 2 ^ 63 + 2 ^ 63)
    with ((x + 2 ^ 63) mod 2 ^ 64) by lia.
  rewrite Z.mod_mod by lia. reflexivity.
Qed.

(** The bits of the byte [byte(v >> k)] put back at position [k]. *)
Lemma chunk_testbit v k n :
  0 <= k → 0 <= n →
  Z.testbit (Z.shiftl (Z_of_byte (byte_of_Z (Z.shiftr v k))) k) n =
  (k <=? n) && (n <? k + 8) && Z.testbit v n.
Proof.
  intros Hk Hn. rewrite Z_of_byte_of_Z, Z.shiftl_spec by lia.
  change 256 with (2 ^ 8).
  destruct (Z.leb_spec k n); simpl.
  - destruct (Z.ltb_spec n (k + 8)); simpl.
    + rewrite Z.mod_pow2_bits_low, Z.shiftr_spec by lia. f_equal. lia.
    + apply Z.mod_pow2_bits_high. lia.
  - apply Z.testbit_neg_r. lia.
Qed.

Lemma chunk0_testbit v n :
  0 <= n →
  Z.testbit (Z_of_byte (byte_of_Z v)) n = (n <? 8) && Z.testbit v n.
Proof.
  intros Hn. pose proof (chunk_testbit v 0 n) as H.
  rewrite Z.shiftr_0_r, Z.shiftl_0_r in H. rewrite H by lia.
  destruct (Z.leb_spec 0 n); [reflexivity | lia].
Qed.

End bytes_facts.

(** Decides every comparison of the goal by linear arithmetic. *)
Ltac decide_cmp :=
  repeat match goal with
  | |- context [?a <=? ?b] =>
      first [ rewrite (proj2 (Z.leb_le a b)) by lia
            | rewrite (proj2 (Z.leb_gt a b)) by lia ]
  | |- context [?a <? ?b] =>
      first [ rewrite (proj2 (Z.ltb_lt a b)) by lia
            | rewrite (proj2 (Z.ltb_ge a b)) by lia ]
  end.

Lemma Uint32_PutUint32 v : Uint32 (PutUint32 v) = Some (uint32 v).
Proof.
  unfold Uint32, PutUint32, uint32. f_equal. apply Z.bits_inj'. intros n Hn.
  rewrite !Z.lor_spec, !chunk_testbit, chunk0_testbit by lia.
  assert (Hc : n < 8 ∨ 8 <= n < 16 ∨ 16 <= n < 24 ∨ 24 <= n < 32 ∨ 32 <= n)
    by lia.
  destruct Hc as [?|[?|[?|[?|?]]]].
  5: rewrite Z.mod_pow2_bits_high by lia.
  1-4: rewrite Z.mod_pow2_bits_low by lia.
  all: decide_cmp; simpl; rewrite ?orb_false_r; reflexivity.
Qed.

Lemma Uint64_PutUint64 v : Uint64 (PutUint64 v) = Some (uint64 v).
Proof.
  unfold Uint64, PutUint64, uint64. f_equal. apply Z.bits_inj'. intros n Hn.
  rewrite !Z.lor_spec, !chunk_testbit, chunk0_testbit by lia.
  assert (Hc : n < 8 ∨ 8 <= n < 16 ∨ 16 <= n < 24 ∨ 24 <= n < 32 ∨
               32 <= n < 40 ∨ 40 <= n < 48 ∨ 48 <= n < 56 ∨ 56 <= n < 64 ∨
               64 <= n) by lia.
  destruct Hc as [?|[?|[?|[?|[?|[?|[?|[?|?]]]]]]]].
  9: rewrite Z.mod_pow2_bits_high by lia.
  1-8: rewrite Z.mod_pow2_bits_low by lia.
  all: decide_cmp; simpl; rewrite ?orb_false_r; reflexivity.
Qed.

Lemma PutUint32_length v : length (PutUint32 v) = 4%nat.
Proof. reflexivity. Qed.

Lemma PutUint64_length v : length (PutUint64 v) = 8%nat.
Proof. reflexivity. Qed.

(** ** The checksum is a 32-bit value *)

Section crc_facts.

Lemma lxor_fits n a b :
  0 <= n → 0 <= a < 2 ^ n → 0 <= b < 2 ^ n → 0 <= Z.lxor a b < 2 ^ n.
Proof.
  intros Hn Ha Hb.
  assert (E : Z.lxor a b = Z.lxor a b mod 2 ^ n).
  { apply Z.bits_inj'. intros m Hm.
    destruct (Z.lt_ge_cases m n).
    - rewrite Z.mod_pow2_bits_low by lia. reflexivity.
    - rewrite Z.mod_pow2_bits_high by lia.
      rewrite Z.lxor_spec.
      rewrite <- (Z.mod_small a (2 ^ n)), <- (Z.mod_small b (2 ^ n)) by lia.
      rewrite !Z.mod_pow2_bits_high by lia. reflexivity. }
  rewrite E. apply Z.mod_pos_bound. lia.
Qed.

Lemma shift_bits_fits n c : 0 <= c < 2 ^ 32 → 0 <= Crc.shift_bits n c < 2 ^ 32.
Proof.
  revert c. induction n as [|n IH]; intros c Hc; simpl; [exact Hc|].
  apply IH.
  assert (Hs : 0 <= Z.shiftr c 1 < 2 ^ 32).
  { rewrite Z.shiftr_div_pow2 by lia. change (2 ^ 1) with 2.
    split; [apply Z.div_pos; lia|].
    apply Z.div_lt_upper_bound; lia. }
  destruct (Z.odd c); [|exact Hs].
  apply lxor_fits; [lia | exact Hs | unfold Crc.poly; lia].
Qed.

Lemma update_byte_fits c b : 0 <= c < 2 ^ 32 → 0 <= Crc.update_byte c b < 2 ^ 32.
Proof.
  intros Hc. unfold Crc.update_byte. apply shift_bits_fits.
  apply lxor_fits; [lia | exact Hc |].
  pose proof (Z_of_byte_range b). lia.
Qed.

Lemma ChecksumIEEE_fits data : 0 <= Crc.ChecksumIEEE data < 2 ^ 32.
Proof.
  unfold Crc.ChecksumIEEE.
  assert (H : ∀ c, 0 <= c < 2 ^ 32 →
                0 <= fold_left Crc.update_byte data c < 2 ^ 32).
  { induction data as [|b data IH]; intros c Hc; simpl; [exact Hc|].
    apply IH, update_byte_fits, Hc. }
  apply lxor_fits; [lia | apply H; lia | lia].
Qed.

Lemma CRC32_fits str : 0 <= CRC32 str < 2 ^ 32.
Proof. apply ChecksumIEEE_fits. Qed.

End crc_facts.

(** The check values of the checksum. *)
Example crc_a : CRC32 "a" = 0xE8B7BE43. Proof. vm_compute. reflexivity. Qed.
Example crc_check : CRC32 "123456789" = 0xCBF43926. Proof. vm_compute. reflexivity. Qed.
Example crc_empty : CRC32 EmptyString = 0. Proof. reflexivity. Qed.

(** ** Slices of a buffer that is a concatenation *)

Section slice_facts.

Lemma reslice_at (s : slice) (pre mid post : list byte) lo hi :
  elems s ++ spare s = pre ++ mid ++ post →
  lo = Z.of_nat (length pre) →
  hi = lo + Z.of_nat (length mid) →
  hi <= max_int →
  reslice s lo hi = Some (Slice mid post).
Proof.
  intros E Hlo Hhi Hmax. unfold reslice, slice_cap.
  rewrite <- length_app, E, !length_app.
  replace ((0 <=? lo) && (lo <=? hi) &&
           (hi <=? Z.of_nat (length pre + (length mid + length post))) &&
           (hi <=? max_int)) with true.
  2: { symmetry. rewrite !andb_true_iff, !Z.leb_le. lia. }
  f_equal. f_equal.
  - replace (Z.to_nat lo) with (length pre) by lia.
    replace (Z.to_nat (hi - lo)) with (length mid) by lia.
    rewrite drop_app_length, take_app_length. reflexivity.
  - replace (Z.to_nat hi) with (length (pre ++ mid)) by (rewrite length_app; lia).
    rewrite app_assoc, drop_app_length. reflexivity.
Qed.

Lemma index_at (s : slice) (pre : list byte) (x : byte) (post : list byte) i :
  elems s = pre ++ x :: post →
  i = Z.of_nat (length pre) →
  i <= max_int →
  index s i = Some x.
Proof.
  intros E Hi Hmax. unfold index, slice_len. rewrite E, length_app. simpl.
  replace ((0 <=? i) && (i <? Z.of_nat (length pre + S (length post))) &&
           (i <=? max_int)) with true.
  2: { symmetry. rewrite !andb_true_iff, !Z.leb_le, Z.ltb_lt. lia. }
  replace (Z.to_nat i) with (length pre) by lia.
  apply list_lookup_middle. reflexivity.
Qed.

End slice_facts.

(** ** One record *)

Section codec_facts.

Lemma raw_record_length crc ts tomb key value :
  Z.of_nat (length (raw_record crc ts tomb key value)) =
  VALUE_SIZE + Z.of_nat (length key) + Z.of_nat (length value).
Proof.
  unfold raw_record. rewrite !length_app, PutUint32_length, !PutUint64_length.
  simpl length. unfold VALUE_SIZE, KEY_SIZE, TOMBSTONE_SIZE, CRC_SIZE, T_SIZE,
    C_SIZE. lia.
Qed.

Lemma byte_of_shiftr_uint64 v k :
  0 <= k <= 56 → byte_of_Z (Z.shiftr (uint64 v) k) = byte_of_Z (Z.shiftr v k).
Proof.
  intros Hk. unfold byte_of_Z.
  replace (Z.shiftr (uint64 v) k mod 256) with (Z.shiftr v k mod 256);
    [reflexivity|].
  change 256 with (2 ^ 8). unfold uint64. apply Z.bits_inj'. intros n Hn.
  destruct (Z.lt_ge_cases n 8).
  - rewrite !Z.mod_pow2_bits_low, !Z.shiftr_spec by lia.
    rewrite Z.mod_pow2_bits_low by lia. reflexivity.
  - rewrite !Z.mod_pow2_bits_high by lia. reflexivity.
Qed.

Lemma PutUint64_uint64 v : PutUint64 (uint64 v) = PutUint64 v.
Proof.
  unfold PutUint64.
  rewrite <- (Z.shiftr_0_r (uint64 v)) at 1. rewrite <- (Z.shiftr_0_r v) at 9.
  rewrite !byte_of_shiftr_uint64 by lia. reflexivity.
Qed.

Lemma Process_at_raw sec key value deleted :
  Process_at sec key value deleted =
  raw_record (CRC32 (string_of_list_byte value)) (uint64 sec)
    (if deleted then x01 else x00) (list_byte_of_string key) value.
Proof.
  unfold Process_at, raw_record. rewrite !PutUint64_uint64.
  destruct deleted; simpl app; rewrite <- ?app_assoc; reflexivity.
Qed.

(** The loop body decodes a complete record wherever it lies, whatever
    stands before it, behind it and in the spare capacity. *)
Lemma convert_step_record pre crc ts tomb key value post room :
  slice_cap (Slice (pre ++ raw_record crc ts tomb key value ++ post) room)
    <= max_int →
  convert_step (Slice (pre ++ raw_record crc ts tomb key value ++ post) room)
    (Z.of_nat (length pre)) =
  Some (raw_entry crc ts tomb key value,
        Z.of_nat (length pre) +
        Z.of_nat (length (raw_record crc ts tomb key value))).
Proof.
  intros Hcap.
  rewrite raw_record_length.
  set (data := Slice _ _) in *.
  set (i := Z.of_nat (length pre)).
  set (lk := Z.of_nat (length key)). set (lv := Z.of_nat (length value)).
  assert (Hb : elems data ++ Bytes.spare data =
               pre ++ PutUint32 crc ++ PutUint64 ts ++ [tomb] ++
               PutUint64 lk ++ PutUint64 lv ++ key ++ value ++ post ++ room).
  { subst data. cbn [elems Bytes.spare]. unfold raw_record.
    rewrite <- ?app_assoc. reflexivity. }
  assert (He : elems data =
               (pre ++ PutUint32 crc ++ PutUint64 ts) ++ tomb ::
               (PutUint64 lk ++ PutUint64 lv ++ key ++ value ++ post)).
  { subst data. cbn [elems]. unfold raw_record.
    rewrite <- ?app_assoc. reflexivity. }
  assert (Hlen : i + 29 + lk + lv <= max_int).
  { unfold slice_cap in Hcap. subst data. cbn [elems Bytes.spare] in Hcap.
    rewrite !length_app in Hcap.
    pose proof (raw_record_length crc ts tomb key value) as Hr.
    change VALUE_SIZE with 29 in Hr. lia. }
  unfold max_int in Hlen.
  unfold convert_step.
  change C_SIZE with 4. change CRC_SIZE with 12. change TOMBSTONE_SIZE with 13.
  change KEY_SIZE with 21. change VALUE_SIZE with 29.
  rewrite !(uint64_small (i + _)) by lia.
  rewrite (reslice_at data pre (PutUint32 crc)
             (PutUint64 ts ++ [tomb] ++ PutUint64 lk ++ PutUint64 lv ++
              key ++ value ++ post ++ room) i (i + 4));
    [|exact Hb|reflexivity|rewrite PutUint32_length; lia|unfold max_int; lia].
  cbn [mbind option_bind elems]. rewrite Uint32_PutUint32.
  cbn [mbind option_bind].
  rewrite (reslice_at data (pre ++ PutUint32 crc) (PutUint64 ts)
             ([tomb] ++ PutUint64 lk ++ PutUint64 lv ++
              key ++ value ++ post ++ room) (i + 4) (i + 12));
    [|rewrite Hb, <- ?app_assoc; reflexivity
     |rewrite length_app, PutUint32_length; lia
     |rewrite PutUint64_length; lia|unfold max_int; lia].
  cbn [mbind option_bind elems]. rewrite Uint64_PutUint64.
  cbn [mbind option_bind].
  rewrite (index_at data (pre ++ PutUint32 crc ++ PutUint64 ts) tomb
             (PutUint64 lk ++ PutUint64 lv ++ key ++ value ++ post) (i + 12));
    [|exact He
     |rewrite !length_app, PutUint32_length, PutUint64_length; lia
     |unfold max_int; lia].
  cbn [mbind option_bind].
  rewrite (reslice_at data (pre ++ PutUint32 crc ++ PutUint64 ts ++ [tomb])
             (PutUint64 lk)
             (PutUint64 lv ++ key ++ value ++ post ++ room) (i + 13) (i + 21));
    [|rewrite Hb, <- ?app_assoc; reflexivity
     |rewrite !length_app, PutUint32_length, PutUint64_length; simpl length; lia
     |rewrite PutUint64_length; lia|unfold max_int; lia].
  cbn [mbind option_bind elems]. rewrite Uint64_PutUint64.
  cbn [mbind option_bind].
  rewrite (reslice_at data
             (pre ++ PutUint32 crc ++ PutUint64 ts ++ [tomb] ++ PutUint64 lk)
             (PutUint64 lv)
             (key ++ value ++ post ++ room) (i + 21) (i + 29));
    [|rewrite Hb, <- ?app_assoc; reflexivity
     |rewrite !length_app, PutUint32_length, !PutUint64_length; simpl length; lia
     |rewrite PutUint64_length; lia|unfold max_int; lia].
  cbn [mbind option_bind elems]. rewrite Uint64_PutUint64.
  cbn [mbind option_bind].
  rewrite (uint64_small lk), (uint64_small lv) by lia.
  rewrite (uint64_small (i + 29 + lk)), (uint64_small (i + 29 + lk + lv)) by lia.
  rewrite (reslice_at data
             (pre ++ PutUint32 crc ++ PutUint64 ts ++ [tomb] ++ PutUint64 lk ++
              PutUint64 lv)
             key (value ++ post ++ room) (i + 29) (i + 29 + lk));
    [|rewrite Hb, <- ?app_assoc; reflexivity
     |rewrite !length_app, PutUint32_length, !PutUint64_length; simpl length; lia
     |lia|unfold max_int; lia].
  cbn [mbind option_bind elems].
  rewrite (reslice_at data
             (pre ++ PutUint32 crc ++ PutUint64 ts ++ [tomb] ++ PutUint64 lk ++
              PutUint64 lv ++ key)
             value (post ++ room) (i + 29 + lk) (i + 29 + lk + lv));
    [|rewrite Hb, <- ?app_assoc; reflexivity
     |rewrite !length_app, PutUint32_length, !PutUint64_length; simpl length; lia
     |lia|unfold max_int; lia].
  cbn [mbind option_bind elems]. unfold raw_entry.
  replace (i + (29 + lk + lv)) with (i + 29 + lk + lv) by lia.
  destruct (Byte.eqb tomb x01); reflexivity.
Qed.

Lemma convert_loop_eq data i rez :
  convert_loop data i rez =
  if i <? uint64 (slice_len data) then
    match convert_step data i with
    | None => None
    | Some next => convert_loop data (snd next) (rez ++ [fst next])
    end
  else Some rez.
Proof.
  funelim (convert_loop data i rez).
  all: repeat match goal with
       | H : (_ <? _) = _ |- _ => rewrite H
       | H : convert_step _ _ = _ |- _ => rewrite H
       end; reflexivity.
Qed.

(** The entries of a stream of complete records. *)
Lemma convert_loop_records (recs : list Raw) : ∀ pre post room rez,
  slice_cap (Slice (pre ++ concat (map Raw_bytes recs) ++ post) room)
    <= max_int →
  convert_loop (Slice (pre ++ concat (map Raw_bytes recs) ++ post) room)
    (Z.of_nat (length pre)) rez =
  convert_loop (Slice (pre ++ concat (map Raw_bytes recs) ++ post) room)
    (Z.of_nat (length (pre ++ concat (map Raw_bytes recs))))
    (rez ++ map Raw_entry recs).
Proof.
  induction recs as [|r recs IH]; intros pre post room rez Hcap.
  - change (concat (map Raw_bytes [])) with (@nil byte).
    change (map Raw_entry []) with (@nil Entry).
    rewrite !app_nil_r. reflexivity.
  - change (concat (map Raw_bytes (r :: recs)))
      with (Raw_bytes r ++ concat (map Raw_bytes recs)) in *.
    change (map Raw_entry (r :: recs))
      with (Raw_entry r :: map Raw_entry recs).
    rewrite <- app_assoc in *.
    specialize (IH (pre ++ Raw_bytes r) post room (rez ++ [Raw_entry r])).
    rewrite <- !app_assoc in IH. specialize (IH Hcap).
    rewrite convert_loop_eq at 1.
    assert (Hlen : (Z.of_nat (length pre) <?
                    uint64 (slice_len (Slice
                      (pre ++ Raw_bytes r ++ concat (map Raw_bytes recs) ++ post)
                      room))) = true).
    { apply Z.ltb_lt. unfold slice_len, slice_cap in *.
      cbn [elems Bytes.spare] in *.
      rewrite uint64_small by (unfold max_int in *; lia).
      rewrite !length_app. unfold Raw_bytes.
      pose proof (raw_record_length (raw_crc r) (raw_ts r) (raw_tomb r)
                    (raw_key r) (raw_value r)) as Hr.
      change VALUE_SIZE with 29 in Hr. lia. }
    rewrite Hlen.
    pose proof (convert_step_record pre (raw_crc r) (raw_ts r) (raw_tomb r)
                  (raw_key r) (raw_value r)
                  (concat (map Raw_bytes recs) ++ post) room) as Hs.
    change (raw_record (raw_crc r) (raw_ts r) (raw_tomb r) (raw_key r)
              (raw_value r)) with (Raw_bytes r) in Hs.
    change (raw_entry (raw_crc r) (raw_ts r) (raw_tomb r) (raw_key r)
              (raw_value r)) with (Raw_entry r) in Hs.
    rewrite (Hs Hcap).
    cbn [fst snd]. rewrite <- Nat2Z.inj_add, <- length_app.
    rewrite IH. rewrite <- ?app_assoc. reflexivity.
Qed.

Lemma Raw_bytes_length r :
  Z.of_nat (length (Raw_bytes r)) =
  29 + Z.of_nat (length (raw_key r)) + Z.of_nat (length (raw_value r)).
Proof. apply raw_record_length. Qed.

(** A stream of complete records decodes to their entries, in order. *)
Lemma convert_records (recs : list Raw) room :
  slice_cap (Slice (concat (map Raw_bytes recs)) room) <= max_int →
  convert (Slice (concat (map Raw_bytes recs)) room) =
  Some (map Raw_entry recs).
Proof.
  intros Hcap. unfold convert.
  destruct (slice_len _ =? 0) eqn:E.
  - apply Z.eqb_eq in E. unfold slice_len in E. cbn [elems] in E.
    destruct recs as [|r recs]; [reflexivity|].
    change (concat (map Raw_bytes (r :: recs)))
      with (Raw_bytes r ++ concat (map Raw_bytes recs)) in E.
    rewrite length_app in E. pose proof (Raw_bytes_length r). lia.
  - pose proof (convert_loop_records recs [] [] room []) as H.
    rewrite !app_nil_r in H. cbn [app length] in H.
    change (Z.of_nat 0) with 0 in H. rewrite H by exact Hcap.
    rewrite convert_loop_eq.
    replace (_ <? _) with false; [reflexivity|].
    symmetry. apply Z.ltb_ge. unfold slice_len, slice_cap in *.
    cbn [elems Bytes.spare] in *.
    rewrite uint64_small by (unfold max_int in *; lia). lia.
Qed.

Lemma encode_Raw r : encode r = Raw_bytes (Raw_of r).
Proof. apply Process_at_raw. Qed.

Lemma expected_entry_Raw r : expected_entry r = Raw_entry (Raw_of r).
Proof.
  unfold expected_entry, Raw_entry, Raw_of, raw_entry. cbn [raw_crc raw_ts
    raw_tomb raw_key raw_value].
  rewrite uint32_small by apply CRC32_fits.
  rewrite (uint64_small (uint64 _)) by (apply Z.mod_pos_bound; lia).
  rewrite string_of_list_byte_of_string.
  destruct (TDeleted r.2); reflexivity.
Qed.

Lemma map_encode_Raw rs : map encode rs = map Raw_bytes (map Raw_of rs).
Proof. rewrite map_map. apply map_ext. intros r. apply encode_Raw. Qed.

Lemma map_expected_Raw rs :
  map expected_entry rs = map Raw_entry (map Raw_of rs).
Proof. rewrite map_map. apply map_ext. intros r. apply expected_entry_Raw. Qed.

(** The entries of a stream of encoded batch elements. *)
Lemma convert_encoded (rs : list (Z * T)) (room : list byte) :
  Z.of_nat (length (concat (map encode rs)) + length room) <= max_int →
  convert (Slice (concat (map encode rs)) room) = Some (map expected_entry rs).
Proof.
  intros Hcap. rewrite map_encode_Raw, map_expected_Raw.
  apply convert_records. rewrite <- map_encode_Raw. exact Hcap.
Qed.

(** *** When the loop body panics *)

Lemma reslice_Some s lo hi r :
  reslice s lo hi = Some r →
  0 <= lo ∧ lo <= hi ∧ hi <= slice_cap s ∧ hi <= max_int ∧
  elems r = take (Z.to_nat (hi - lo)) (drop (Z.to_nat lo) (elems s ++ Bytes.spare s)).
Proof.
  intros H. pose proof (reslice_bounds _ _ _ _ H) as (? & ? & ? & ?).
  unfold reslice in H.
  destruct ((0 <=? lo) && (lo <=? hi) && (hi <=? slice_cap s) &&
            (hi <=? max_int)); [|discriminate].
  injection H as <-. cbn [elems]. auto.
Qed.

Lemma lor_fits n a b :
  0 <= n → 0 <= a < 2 ^ n → 0 <= b < 2 ^ n → 0 <= Z.lor a b < 2 ^ n.
Proof.
  intros Hn Ha Hb.
  assert (E : Z.lor a b = Z.lor a b mod 2 ^ n).
  { apply Z.bits_inj'. intros m Hm.
    destruct (Z.lt_ge_cases m n).
    - rewrite Z.mod_pow2_bits_low by lia. reflexivity.
    - rewrite Z.mod_pow2_bits_high by lia.
      rewrite Z.lor_spec.
      rewrite <- (Z.mod_small a (2 ^ n)), <- (Z.mod_small b (2 ^ n)) by lia.
      rewrite !Z.mod_pow2_bits_high by lia. reflexivity. }
  rewrite E. apply Z.mod_pos_bound. lia.
Qed.

Lemma shiftl_byte_fits b k :
  0 <= k <= 56 → 0 <= Z.shiftl (Z_of_byte b) k < 2 ^ 64.
Proof.
  intros Hk. pose proof (Z_of_byte_range b) as Hb.
  rewrite Z.shiftl_mul_pow2 by lia.
  assert (0 < 2 ^ k) by (apply Z.pow_pos_nonneg; lia).
  assert (2 ^ k * 2 ^ 8 <= 2 ^ 64).
  { rewrite <- Z.pow_add_r by lia. apply Z.pow_le_mono_r; lia. }
  change (2 ^ 8) with 256 in *. nia.
Qed.

Lemma Uint64_fits b v : Uint64 b = Some v → 0 <= v < 2 ^ 64.
Proof.
  unfold Uint64.
  destruct b as [|b0 [|b1 [|b2 [|b3 [|b4 [|b5 [|b6 [|b7 ?]]]]]]]];
    try discriminate.
  intros H. injection H as <-.
  repeat apply lor_fits; try lia; try (apply shiftl_byte_fits; lia).
  pose proof (Z_of_byte_range b0). lia.
Qed.

Lemma uint64_no_wrap a b :
  0 <= a <= max_int → 0 <= b < 2 ^ 64 → a <= uint64 (a + b) →
  uint64 (a + b) = a + b.
Proof.
  unfold uint64, max_int. intros Ha Hb Hle.
  destruct (Z.lt_ge_cases (a + b) (2 ^ 64)) as [Hlt|Hge].
  - apply Z.mod_small. lia.
  - exfalso.
    replace (a + b) with (a + b - 2 ^ 64 + 1 * 2 ^ 64) in Hle by lia.
    rewrite Z_mod_plus_full, Z.mod_small in Hle by lia. lia.
Qed.

(** What a turn of the loop that does not panic has read. *)
Lemma convert_step_Some data i e i' :
  convert_step data i = Some (e, i') →
  ∃ ks vs,
    Uint64 (take 8 (drop (Z.to_nat (i + 13)) (elems data ++ Bytes.spare data)))
      = Some ks ∧
    Uint64 (take 8 (drop (Z.to_nat (i + 21)) (elems data ++ Bytes.spare data)))
      = Some vs ∧
    i' = i + 29 + ks + vs ∧ i' <= slice_cap data ∧ i + 12 < slice_len data.
Proof.
  unfold convert_step. intros H.
  repeat match type of H with
  | (?m ≫= _) = Some _ => destruct m eqn:?; cbn [mbind option_bind] in H;
                          [|discriminate]
  end.
  repeat match goal with
  | R : reslice _ _ _ = Some _ |- _ => apply reslice_Some in R
  end.
  injection H as _ <-.
  change C_SIZE with 4 in *. change CRC_SIZE with 12 in *.
  change TOMBSTONE_SIZE with 13 in *. change KEY_SIZE with 21 in *.
  change VALUE_SIZE with 29 in *.
  repeat match goal with
  | R : _ ∧ _ |- _ => destruct R
  end.
  assert (Hi : 0 <= i <= max_int) by lia.
  rewrite !(uint64_small (i + _)) in * by (unfold max_int in *; lia).
  repeat match goal with
  | R : elems ?s = _, U : Uint64 (elems ?s) = _ |- _ => rewrite R in U
  end.
  replace (Z.to_nat (i + 21 - (i + 13))) with 8%nat in * by lia.
  replace (Z.to_nat (i + 29 - (i + 21))) with 8%nat in * by lia.
  match goal with
  | K : Uint64 (take 8 (drop (Z.to_nat (i + 13)) _)) = Some ?ks,
    V : Uint64 (take 8 (drop (Z.to_nat (i + 21)) _)) = Some ?vs |- _ =>
      exists ks, vs; pose proof (Uint64_fits _ _ K); pose proof (Uint64_fits _ _ V);
      rename K into HK; rename V into HV
  end.
  match goal with
  | |- context [uint64 (i + 29 + ?ks)] =>
      assert (E1 : uint64 (i + 29 + ks) = i + 29 + ks)
        by (apply uint64_no_wrap; unfold max_int in *; lia);
      rewrite E1 in *
  end.
  match goal with
  | |- context [uint64 (i + 29 + ?ks + ?vs)] =>
      assert (E2 : uint64 (i + 29 + ks + vs) = i + 29 + ks + vs)
        by (apply uint64_no_wrap; unfold max_int in *; lia);
      rewrite E2 in *
  end.
  repeat split; try assumption; try lia.
  match goal with
  | X : index data (i + 12) = Some _ |- _ =>
      unfold index in X;
      destruct ((0 <=? i + 12) && (i + 12 <? slice_len data) &&
                (i + 12 <=? max_int)) eqn:Eb; [|discriminate];
      rewrite !andb_true_iff, Z.ltb_lt in Eb; lia
  end.
Qed.

Lemma convert_step_short_header pre rest :
  (length rest < 29)%nat →
  convert_step (full (pre ++ rest)) (Z.of_nat (length pre)) = None.
Proof.
  intros Hshort.
  destruct (convert_step _ _) as [[e i']|] eqn:E; [|reflexivity].
  apply convert_step_Some in E as (ks & vs & HK & HV & -> & Hcap & _).
  apply Uint64_fits in HK, HV.
  unfold slice_cap, full in Hcap. cbn [elems Bytes.spare] in Hcap.
  rewrite length_app in Hcap. simpl length in Hcap. lia.
Qed.

Lemma raw_header_length crc ts tomb ks vs :
  length (raw_header crc ts tomb ks vs) = 29%nat.
Proof. reflexivity. Qed.

Lemma convert_step_short_payload pre crc ts tomb ks vs payload :
  0 <= ks < 2 ^ 64 → 0 <= vs < 2 ^ 64 →
  Z.of_nat (length payload) < ks + vs →
  convert_step (full (pre ++ raw_header crc ts tomb ks vs ++ payload))
    (Z.of_nat (length pre)) = None.
Proof.
  intros Hks Hvs Hshort.
  destruct (convert_step _ _) as [[e i']|] eqn:E; [|reflexivity].
  apply convert_step_Some in E as (ks' & vs' & HK & HV & -> & Hcap & _).
  unfold slice_cap, full in *. cbn [elems Bytes.spare] in *.
  rewrite app_nil_r in HK, HV.
  assert (EK : take 8 (drop (Z.to_nat (Z.of_nat (length pre) + 13))
                 (pre ++ raw_header crc ts tomb ks vs ++ payload)) =
               PutUint64 ks).
  { replace (Z.to_nat (Z.of_nat (length pre) + 13))
      with (length (pre ++ PutUint32 crc ++ PutUint64 ts ++ [tomb]))
      by (rewrite !length_app, PutUint32_length, PutUint64_length;
          simpl length; lia).
    unfold raw_header.
    replace (pre ++ (PutUint32 crc ++ PutUint64 ts ++ [tomb] ++
                     PutUint64 ks ++ PutUint64 vs) ++ payload)
      with ((pre ++ PutUint32 crc ++ PutUint64 ts ++ [tomb]) ++
            PutUint64 ks ++ (PutUint64 vs ++ payload))
      by (rewrite <- ?app_assoc; reflexivity).
    rewrite drop_app_length. apply take_app_length'. reflexivity. }
  assert (EV : take 8 (drop (Z.to_nat (Z.of_nat (length pre) + 21))
                 (pre ++ raw_header crc ts tomb ks vs ++ payload)) =
               PutUint64 vs).
  { replace (Z.to_nat (Z.of_nat (length pre) + 21))
      with (length (pre ++ PutUint32 crc ++ PutUint64 ts ++ [tomb] ++
                    PutUint64 ks))
      by (rewrite !length_app, PutUint32_length, !PutUint64_length;
          simpl length; lia).
    unfold raw_header.
    replace (pre ++ (PutUint32 crc ++ PutUint64 ts ++ [tomb] ++
                     PutUint64 ks ++ PutUint64 vs) ++ payload)
      with ((pre ++ PutUint32 crc ++ PutUint64 ts ++ [tomb] ++ PutUint64 ks) ++
            PutUint64 vs ++ payload)
      by (rewrite <- ?app_assoc; reflexivity).
    rewrite drop_app_length. apply take_app_length'. reflexivity. }
  rewrite EK, Uint64_PutUint64 in HK. rewrite EV, Uint64_PutUint64 in HV.
  injection HK as <-. injection HV as <-.
  rewrite !uint64_small in Hcap by lia.
  rewrite !length_app, raw_header_length in Hcap. simpl length in Hcap. lia.
Qed.

(** A panic at the record that follows a run of complete records is a
    panic of the decoder. *)
Lemma convert_panics_after (recs : list Raw) rest :
  Z.of_nat (length (concat (map Raw_bytes recs) ++ rest)) <= max_int →
  rest ≠ [] →
  convert_step (full (concat (map Raw_bytes recs) ++ rest))
    (Z.of_nat (length (concat (map Raw_bytes recs)))) = None →
  convert (full (concat (map Raw_bytes recs) ++ rest)) = None.
Proof.
  intros Hcap Hrest Hstep. unfold convert.
  assert (Hlen : 0 < Z.of_nat (length rest)).
  { destruct rest; [done | simpl; lia]. }
  assert (Hsl : slice_len (full (concat (map Raw_bytes recs) ++ rest)) =
                Z.of_nat (length (concat (map Raw_bytes recs))) +
                Z.of_nat (length rest)).
  { unfold slice_len, full. cbn [elems]. rewrite length_app. lia. }
  rewrite Hsl in *.
  replace (_ =? 0) with false by (symmetry; apply Z.eqb_neq; lia).
  pose proof (convert_loop_records recs [] rest [] []) as H.
  cbn [app length] in H. change (Z.of_nat 0) with 0 in H.
  unfold full. rewrite H.
  2: { unfold slice_cap. cbn [elems Bytes.spare]. simpl length. lia. }
  rewrite convert_loop_eq. fold (full (concat (map Raw_bytes recs) ++ rest)).
  rewrite Hsl. rewrite length_app in Hcap.
  rewrite uint64_small by (unfold max_int in *; lia).
  replace (_ <? _) with true by (symmetry; apply Z.ltb_lt; lia).
  rewrite Hstep. reflexivity.
Qed.

(** A stream that ends inside a header makes [convert] panic. *)
Lemma convert_short_header (recs : list Raw) rest :
  Z.of_nat (length (concat (map Raw_bytes recs) ++ rest)) <= max_int →
  rest ≠ [] → (length rest < 29)%nat →
  convert (full (concat (map Raw_bytes recs) ++ rest)) = None.
Proof.
  intros Hlen Hrest Hshort. apply convert_panics_after; try assumption.
  apply convert_step_short_header, Hshort.
Qed.

(** A stream that ends inside a key or a value makes [convert] panic. *)
Lemma convert_short_payload (recs : list Raw) crc ts tomb ks vs payload :
  Z.of_nat (length (concat (map Raw_bytes recs) ++
                    raw_header crc ts tomb ks vs ++ payload)) <= max_int →
  0 <= ks < 2 ^ 64 → 0 <= vs < 2 ^ 64 →
  Z.of_nat (length payload) < ks + vs →
  convert (full (concat (map Raw_bytes recs) ++
                 raw_header crc ts tomb ks vs ++ payload)) = None.
Proof.
  intros Hlen Hks Hvs Hshort. apply convert_panics_after; try assumption.
  - intros E. apply (f_equal length) in E.
    rewrite length_app, raw_header_length in E. simpl in E. lia.
  - apply convert_step_short_payload; assumption.
Qed.

(** [ReadConverted] has no error of its own. *)
Lemma ReadConverted_Err index s e s' :
  ReadConverted index s = Some (Err e, s') →
  Read index s = Some (Err e, s').
Proof.
  unfold ReadConverted, bind, ret, panic.
  destruct (Read index s) as [[[b|e0] s1]|];
    [|intros H; injection H as <- <-; reflexivity|discriminate].
  destruct (convert b); discriminate.
Qed.

End codec_facts.

(** ** Reasoning about the methods *)

(** Unfolds the monad and the state updates and reduces the projections. *)
Ltac mstep :=
  unfold bind, ret, gets, modify, panic, syscall, time_Now_Unix, Println,
    with_wal, with_heap, with_files, with_console, tick in *;
  cbn [wal heap files console ticks clock faults
       WAL.path WAL.segments WAL.tail WAL.d WAL.lowMark WAL.lastIndex WAL.cache
       WAL.set_segments WAL.set_tail WAL.set_lastIndex WAL.set_cache
       fst snd] in *;
  cbv beta in *.

(** The projections of the state, reduced in one hypothesis. *)
Ltac mproj H :=
  cbv beta iota in H;
  cbn [wal heap files console ticks clock faults
       WAL.path WAL.segments WAL.tail WAL.d WAL.lowMark WAL.lastIndex WAL.cache
       WAL.set_segments WAL.set_tail WAL.set_lastIndex WAL.set_cache
       fst snd] in H.

(** One case analysis on what a run [H : ... = Some _] examines next; an
    equation of the context that decides the case is used instead. *)
Ltac mcase H :=
  match type of H with
  | context [match ?x with _ => _ end] =>
      lazymatch x with
      | context [match _ with _ => _ end] => fail
      | _ => idtac
      end;
      first [ match goal with E : x = _ |- _ => rewrite E in H end
            | destruct x eqn:? ]
  end; mproj H; try discriminate.

(** The cases of the goal that the equations of the context decide. *)
Ltac mknown :=
  repeat match goal with
  | |- context [match ?x with _ => _ end] =>
      match goal with
      | E : x = _ |- _ => rewrite E
      end
  end.

(** Runs the goal as far as the equations of the context decide. *)
Ltac mrun := repeat (progress (cbv beta iota; mstep; mknown)).

(** One case analysis on what the goal examines next. *)
Ltac mcaseg :=
  match goal with
  | |- context [match ?x with _ => _ end] =>
      lazymatch x with
      | context [match _ with _ => _ end] => fail
      | _ => idtac
      end;
      destruct x eqn:?
  end; mrun.

(** ** The retention sweep *)

Section sweep_facts.

Lemma set_segments_id (w : WAL.t) (f : list nat → list nat) :
  f (WAL.segments w) = WAL.segments w → WAL.set_segments f w = w.
Proof. intros E. destruct w. unfold WAL.set_segments. simpl in *. by rewrite E. Qed.

Lemma cleanLog_loop_inv n : ∀ s s',
  n = length (WAL.segments (wal s)) →
  cleanLog_loop n s = Some (tt, s') →
  ∃ k, swept s s' n k.
Proof.
  induction n as [|i IH]; intros s s' Hn H.
  - simpl in H. mstep. change (Z.of_nat 0 - 1) with (-1) in H.
    destruct (WAL.lowMark (wal s) <=? -1) eqn:E; cbv beta iota in H;
      [discriminate|].
    injection H as <-. exists 0%nat. unfold swept.
    apply Z.leb_gt in E.
    destruct (WAL.segments (wal s)) eqn:Es; [|discriminate].
    repeat split; try reflexivity; try lia.
    + symmetry. apply set_segments_id. rewrite Es. reflexivity.
    + left. split; [reflexivity | lia].
  - simpl in H. mstep.
    destruct (WAL.lowMark (wal s) <=? Z.of_nat (S i) - 1) eqn:E.
    + apply Z.leb_le in E.
      destruct (WAL.segments (wal s) !! i) as [p|] eqn:Ep; cbv beta iota in H;
        [|discriminate].
      unfold deref in H. mstep.
      destruct (heap s !! p) as [seg|] eqn:Eh; cbv beta iota in H; [|discriminate].
      unfold os_Remove in H. mstep.
      assert (Hpath : seg_path s (default 0%nat (WAL.segments (wal s) !! i)) =
                      Segment.Path seg).
      { rewrite Ep. unfold seg_path. simpl. rewrite Eh. reflexivity. }
      assert (Hfail : ∀ s1, s1 = mkSys (wal s) (heap s) (files s)
                 (console s ++ [ErrOS "remove" (Segment.Path seg)])
                 (S (ticks s)) (clock s) (faults s) →
               swept s s1 (S i) (S i)).
      { intros s1 ->. unfold swept. cbn [wal heap files console].
        rewrite drop_ge by lia.
        repeat split; try reflexivity; try lia.
        - symmetry. apply set_segments_id. apply take_ge. lia.
        - right. exists i. rewrite Hpath. repeat split; try lia; reflexivity. }
      destruct (faults s (ticks s)); cbv beta iota in H.
      { injection H as <-. exists (S i). apply Hfail. reflexivity. }
      destruct (files s !! Segment.Path seg) as [content|] eqn:Ef;
        cbv beta iota in H.
      2: { injection H as <-. exists (S i). apply Hfail. reflexivity. }
      unfold removeIndex in H. mstep.
      replace ((0 <=? Z.of_nat i) &&
               (Z.of_nat i + 1 <=? Z.of_nat (length (WAL.segments (wal s)))))
        with true in H
        by (symmetry; rewrite andb_true_iff, !Z.leb_le; lia).
      cbv beta iota in H. mstep.
      apply IH in H.
      2: { mstep. rewrite length_app, length_take, length_drop. lia. }
      destruct H as (k & Hk & Hwal & Hheap & Hfiles & Hcons).
      mstep. rewrite ?Nat2Z.id in *.
      replace (Z.to_nat (Z.of_nat i + 1)) with (S i) in * by lia.
      assert (Hl : WAL.segments (wal s) =
                   take i (WAL.segments (wal s)) ++ [p]).
      { rewrite <- (take_S_r _ _ _ Ep). symmetry. apply take_ge. lia. }
      assert (Hd : drop (S i) (WAL.segments (wal s)) = []).
      { apply drop_ge. lia. }
      assert (Hsp : ∀ w f c t, seg_path (mkSys w (heap s) f c t (clock s) (faults s)) =
                            seg_path s) by reflexivity.
      rewrite Hsp in *. rewrite Hd, app_nil_r in Hfiles, Hcons.
      exists k. unfold swept. repeat split.
      * lia.
      * rewrite Hwal. unfold WAL.set_segments.
        cbn [WAL.path WAL.segments WAL.tail WAL.d WAL.lowMark WAL.lastIndex
             WAL.cache].
        rewrite Hd, app_nil_r, take_take.
        replace (k `min` i)%nat with k by lia. reflexivity.
      * exact Hheap.
      * rewrite Hfiles.
        assert (Hdk : drop k (WAL.segments (wal s)) =
                      drop k (take i (WAL.segments (wal s))) ++ [p]).
        { rewrite Hl at 1. apply drop_app_le. rewrite length_take. lia. }
        rewrite Hdk, map_app, foldr_app. simpl foldr.
        replace (seg_path s p) with (Segment.Path seg)
          by (unfold seg_path; rewrite Eh; reflexivity).
        reflexivity.
      * destruct Hcons as [[Hc Hkk]|(j & -> & Hlow & Hc)].
        -- left. split; [exact Hc | lia].
        -- right. exists j. repeat split; [exact Hlow|].
           rewrite Hc. rewrite lookup_take_lt by lia. reflexivity.
    + cbv beta iota in H. injection H as <-. apply Z.leb_gt in E.
      exists (S i). unfold swept. rewrite drop_ge by lia.
      repeat split; try reflexivity; try lia.
      * symmetry. apply set_segments_id. apply take_ge. lia.
      * left. split; [reflexivity | lia].
Qed.

Lemma cleanLog_loop_total n : ∀ s,
  n = length (WAL.segments (wal s)) → live s → 0 <= WAL.lowMark (wal s) →
  is_Some (cleanLog_loop n s).
Proof.
  induction n as [|i IH]; intros s Hn Hlive Hlow.
  - simpl. mstep. change (Z.of_nat 0 - 1) with (-1).
    replace (WAL.lowMark (wal s) <=? -1) with false
      by (symmetry; apply Z.leb_gt; lia).
    eauto.
  - simpl. mstep.
    destruct (WAL.lowMark (wal s) <=? Z.of_nat (S i) - 1) eqn:E; [|eauto].
    destruct (lookup_lt_is_Some_2 (WAL.segments (wal s)) i) as [p Ep]; [lia|].
    rewrite Ep. unfold deref. mstep.
    unfold live in Hlive. rewrite Forall_lookup in Hlive.
    destruct (Hlive i p Ep) as [seg Eh]. rewrite Eh. cbv beta iota.
    unfold os_Remove. mstep.
    destruct (faults s (ticks s)); cbv beta iota; [eauto|].
    destruct (files s !! Segment.Path seg); cbv beta iota; [|eauto].
    unfold removeIndex. mstep.
    replace ((0 <=? Z.of_nat i) &&
             (Z.of_nat i + 1 <=? Z.of_nat (length (WAL.segments (wal s)))))
      with true by (symmetry; rewrite andb_true_iff, !Z.leb_le; lia).
    cbv beta iota. mstep. apply IH.
    + mstep. rewrite length_app, length_take, length_drop. lia.
    + unfold live. mstep. apply Forall_app. split.
      * apply Forall_take. apply Forall_lookup. exact Hlive.
      * apply Forall_drop. apply Forall_lookup. exact Hlive.
    + mstep. exact Hlow.
Qed.

Lemma lookup_foldr_delete_in (m : gmap string (list byte)) l x :
  x ∈ l → foldr delete m l !! x = None.
Proof.
  induction l as [|y l IH]; intros Hin; [by apply elem_of_nil in Hin|].
  simpl. destruct (decide (y = x)) as [->|Hne].
  - apply lookup_delete_eq.
  - rewrite lookup_delete_ne by exact Hne. apply IH.
    apply elem_of_cons in Hin as [->|Hin]; [done | exact Hin].
Qed.


(** The sweep prints nothing when the files of the segments from the low
    mark on are there, under names that differ, and the operating system
    does not fail at the calls of the sweep, one for each of them. *)
Lemma cleanLog_loop_quiet n : ∀ s s',
  n = length (WAL.segments (wal s)) →
  0 <= WAL.lowMark (wal s) →
  cleanLog_loop n s = Some (tt, s') →
  NoDup (map (seg_path s) (drop (kept s) (WAL.segments (wal s)))) →
  (∀ p, p ∈ drop (kept s) (WAL.segments (wal s)) →
        is_Some (files s !! seg_path s p)) →
  (∀ m, (ticks s <= m < ticks s + (n - kept s))%nat → faults s m = false) →
  console s' = console s ∧ ticks s' = (ticks s + (n - kept s))%nat.
Proof.
  induction n as [|i IH]; intros s s' Hn Hlow H Hdup Hfiles Hf.
  - simpl in H. mstep.
    destruct (WAL.lowMark (wal s) <=? Z.of_nat 0 - 1); cbv beta iota in H;
      [discriminate|].
    injection H as <-. split; [reflexivity|lia].
  - simpl in H. mstep.
    destruct (WAL.lowMark (wal s) <=? Z.of_nat (S i) - 1) eqn:E.
    2: { cbv beta iota in H. injection H as <-. apply Z.leb_gt in E.
         split; [reflexivity|]. unfold kept. lia. }
    apply Z.leb_le in E.
    destruct (WAL.segments (wal s) !! i) as [p|] eqn:Ep; cbv beta iota in H;
      [|discriminate].
    unfold deref in H. mstep.
    destruct (heap s !! p) as [seg|] eqn:Eh; cbv beta iota in H; [|discriminate].
    assert (Hl : WAL.segments (wal s) = take i (WAL.segments (wal s)) ++ [p]).
    { rewrite <- (take_S_r _ _ _ Ep). symmetry. apply take_ge. lia. }
    assert (Hk : kept s = Z.to_nat (WAL.lowMark (wal s)) ∧ (kept s <= i)%nat)
      by (unfold kept; lia).
    destruct Hk as [Hk Hki].
    assert (Hdk : drop (kept s) (WAL.segments (wal s)) =
                  drop (kept s) (take i (WAL.segments (wal s))) ++ [p]).
    { rewrite Hl at 1. apply drop_app_le. rewrite length_take. lia. }
    assert (Hpath : seg_path s p = Segment.Path seg)
      by (unfold seg_path; rewrite Eh; reflexivity).
    rewrite Hdk, map_app in Hdup. cbn [map] in Hdup.
    apply NoDup_app in Hdup as (Hdup & Hnot & _).
    unfold os_Remove in H. mstep.
    rewrite (Hf (ticks s)) in H by lia. cbv beta iota in H.
    destruct (Hfiles p) as [content Hc].
    { rewrite Hdk. apply elem_of_app. right. apply list_elem_of_here. }
    rewrite Hpath in Hc. rewrite Hc in H. cbv beta iota in H.
    unfold removeIndex in H. mstep.
    replace ((0 <=? Z.of_nat i) &&
             (Z.of_nat i + 1 <=? Z.of_nat (length (WAL.segments (wal s)))))
      with true in H
      by (symmetry; rewrite andb_true_iff, !Z.leb_le; lia).
    cbv beta iota in H. mstep.
    rewrite ?Nat2Z.id in H.
    replace (Z.to_nat (Z.of_nat i + 1)) with (S i) in H by lia.
    set (s1 := mkSys _ _ _ _ _ _ _) in H.
    assert (Hs1 : WAL.segments (wal s1) = take i (WAL.segments (wal s))).
    { subst s1. cbn [wal WAL.set_segments WAL.segments].
      rewrite (drop_ge (WAL.segments (wal s)) (S i)) by lia.
      apply app_nil_r. }
    assert (Hk1 : kept s1 = kept s).
    { unfold kept. rewrite Hs1, length_take. subst s1.
      cbn [wal WAL.set_segments WAL.lowMark]. lia. }
    assert (Hsp : seg_path s1 = seg_path s) by reflexivity.
    apply IH in H.
    + destruct H as [Hcons Hticks]. split; [exact Hcons|].
      rewrite Hticks, Hk1. subst s1. cbn [ticks]. lia.
    + rewrite Hs1, length_take. lia.
    + exact Hlow.
    + rewrite Hk1, Hsp, Hs1. exact Hdup.
    + intros q Hq. rewrite Hk1, Hs1 in Hq. rewrite Hsp.
      subst s1. cbn [files].
      rewrite lookup_delete_ne.
      * apply Hfiles. rewrite Hdk. apply elem_of_app. left. exact Hq.
      * intros Heq. apply (Hnot (seg_path s q)).
        -- apply list_elem_of_fmap. exists q. split; [reflexivity|exact Hq].
        -- rewrite <- Hpath in Heq. rewrite <- Heq. apply list_elem_of_here.
    + intros m Hm. rewrite Hk1 in Hm. subst s1. cbn [ticks faults] in *.
      apply Hf. lia.
Qed.

End sweep_facts.

(** ** Rollover and append *)

Section rollover_facts.

(** What a rollover that succeeds has done. *)
Lemma newSegment_Ok s p s' :
  newSegment s = Some (Ok p, s') →
  p = length (heap s) ∧
  heap s' =
    heap s ++ [Segment.mk (tail_file (WAL.path (wal s))
                             (int64 (WAL.lastIndex (wal s) + 1)))
                 (int64 (WAL.lastIndex (wal s) + 1)) 0 []] ∧
  wal s' =
    WAL.mk (WAL.path (wal s)) (WAL.segments (wal s) ++ [p])
      (Some (mkFMMAP (tail_file (WAL.path (wal s))
                        (int64 (WAL.lastIndex (wal s) + 1))) false))
      (WAL.d (wal s)) (WAL.lowMark (wal s))
      (int64 (WAL.lastIndex (wal s) + 1)) (WAL.cache (wal s)) ∧
  files s' =
    created (tail_file (WAL.path (wal s)) (int64 (WAL.lastIndex (wal s) + 1)))
      (sealed_files s) ∧
  console s' = console s ∧ clock s' = clock s ∧ faults s' = faults s ∧
  (ticks s <= ticks s')%nat.
Proof.
  unfold newSegment, TailPath, Close, os_Rename, open, fmmap_NewFile, alloc,
    AppendSegment, fmmap_Name.
  fold (tail_file (WAL.path (wal s)) (int64 (WAL.lastIndex (wal s) + 1))).
  intros H. mstep. repeat mcase H.
  all: change (Join [Join [Join [WAL.path (wal s);
                  substring (String.length (FORMAT_NAME
                    (int64 (WAL.lastIndex (wal s) + 1))) - 20) 20
                    (FORMAT_NAME (int64 (WAL.lastIndex (wal s) + 1)))] "/";
                  END_EXT] EmptyString; WAL_EXT] ".")
         with (tail_file (WAL.path (wal s))
                 (int64 (WAL.lastIndex (wal s) + 1))) in *.
  all: set (temp := tail_file (WAL.path (wal s))
                      (int64 (WAL.lastIndex (wal s) + 1))) in *.
  all: injection H as <- <-.
  all: unfold sealed_files, created.
  all: cbn [wal heap files console ticks clock faults
            WAL.path WAL.segments WAL.tail WAL.d WAL.lowMark WAL.lastIndex
            WAL.cache WAL.set_segments WAL.set_tail WAL.set_lastIndex].
  all: mknown.
  all: repeat split; try reflexivity; try lia.
Qed.

(** [Update] in full: the error of the append and nothing else, or the
    append and its mirror in the segment. *)
Lemma Update_run s h data p seg :
  WAL.tail (wal s) = Some h → heap s !! p = Some seg →
  Update data p s =
  if closed h then Some (Some (ErrOS "update" (file_name h)), s)
  else if faults s (ticks s)
  then Some (Some (ErrOS "update" (file_name h)), tick s)
  else Some (None,
             mkSys (wal s)
               (<[p := Segment.Append seg data
                         (int64 (Z.of_nat (length data)))]> (heap s))
               (alter (λ old, old ++ data) (file_name h) (files s))
               (console s) (S (ticks s)) (clock s) (faults s)).
Proof.
  intros Htail Hp. unfold Update, fmmap_Update, store, deref. mrun.
  destruct (closed h); mrun; [reflexivity|].
  destruct (faults s (ticks s)); mrun; reflexivity.
Qed.

Lemma fmmap_Update_run s h data :
  fmmap_Update h data s =
  if closed h then Some (Some (ErrOS "update" (file_name h)), s)
  else if faults s (ticks s)
  then Some (Some (ErrOS "update" (file_name h)), tick s)
  else Some (None,
             mkSys (wal s) (heap s)
               (alter (λ old, old ++ data) (file_name h) (files s))
               (console s) (S (ticks s)) (clock s) (faults s)).
Proof.
  unfold fmmap_Update. destruct (closed h); mrun; [reflexivity|].
  destruct (faults s (ticks s)); mrun; reflexivity.
Qed.

(** A rollover succeeds when the operating system does not fail and the
    file of the previous tail, if there is a tail, is there to be renamed. *)
Lemma newSegment_succeeds s :
  (∀ n, faults s n = false) →
  (∀ h, WAL.tail (wal s) = Some h → is_Some (files s !! file_name h)) →
  ∃ s', newSegment s = Some (Ok (length (heap s)), s').
Proof.
  intros Hf Hfile.
  pose proof (Hf (ticks s)) as Hf0. pose proof (Hf (S (ticks s))) as Hf1.
  unfold newSegment, TailPath, Close, os_Rename, open, fmmap_NewFile, alloc,
    AppendSegment, fmmap_Name.
  destruct (WAL.tail (wal s)) as [h|] eqn:Et.
  - destruct (Hfile h eq_refl) as [content Hc]. mrun. mcaseg; eauto.
  - mrun. mcaseg; eauto.
Qed.

Lemma ticked_0 s : ticked 0 s = s.
Proof. destruct s. reflexivity. Qed.

(** The loop of [Set] appends the encoding of every element, each at the
    time of its own call of the clock. *)
Lemma Set'_loop_run ts : ∀ data s,
  Set'_loop (pointers ts) data s =
  Some (data ++ batch_bytes (clock s) (ticks s) ts, ticked (length ts) s).
Proof.
  induction ts as [|t ts IH]; intros data s.
  - simpl. unfold ret, batch_bytes. simpl. rewrite app_nil_r, ticked_0.
    reflexivity.
  - cbn [pointers map Set'_loop deref_T]. fold (pointers ts).
    unfold Process. mstep. rewrite IH.
    unfold batch_bytes, ticked. cbn [clock ticks wal heap files console faults].
    simpl stamp. simpl map. simpl concat. rewrite <- app_assoc.
    unfold encode at 2. cbn [fst snd]. simpl length.
    rewrite Nat.add_succ_r. reflexivity.
Qed.

(** What the batch of [Set] gives before the [Update]: the buffer, for a
    batch without nil pointers. *)
Lemma Set'_data_run ts s :
  match pointers ts with
  | [t] =>
      x <- deref_T t ;;
      part <- Process (TKey x) (TValue x) (TDeleted x) ;;
      ret ([] ++ part)
  | _ => Set'_loop (pointers ts) []
  end s =
  Some (batch_bytes (clock s) (ticks s) ts, ticked (length ts) s).
Proof.
  destruct ts as [|t [|t' ts']].
  - apply (Set'_loop_run [] [] s).
  - cbn [pointers map deref_T]. unfold Process. mstep.
    unfold batch_bytes, encode, ticked. simpl. rewrite app_nil_r.
    reflexivity.
  - apply (Set'_loop_run (t :: t' :: ts') [] s).
Qed.

(** [Set] is a rollover followed by one [Update] of the new tail with the
    whole buffer of the batch. *)
Lemma Set'_eq ts s :
  Set' (pointers ts) s =
  match newSegment s with
  | Some (Ok tail, s1) =>
      match Update (batch_bytes (clock s1) (ticks s1) ts) tail
              (ticked (length ts) s1) with
      | Some (Some e, s2) => Some (Some e, s2)
      | Some (None, s2) => Some (None, s2)
      | None => None
      end
  | Some (Err e, s1) => Some (Some e, s1)
  | None => None
  end.
Proof.
  unfold Set'. unfold bind at 1.
  destruct (newSegment s) as [[[tail|e] s1]|]; try reflexivity.
  unfold bind at 1. rewrite Set'_data_run. unfold bind.
  destruct (Update _ _ _) as [[[e|] s2]|]; reflexivity.
Qed.

(** The loop of [Set] panics at a nil pointer. *)
Lemma Set'_loop_nil ts : ∀ data s, None ∈ ts → Set'_loop ts data s = None.
Proof.
  induction ts as [|t ts IH]; intros data s Hin.
  - by apply elem_of_nil in Hin.
  - cbn [Set'_loop]. destruct t as [x|].
    + apply elem_of_cons in Hin as [Hin|Hin]; [discriminate|].
      cbn [deref_T]. unfold Process. mstep. apply IH, Hin.
    + reflexivity.
Qed.

(** [Set] of a batch with a nil pointer: the rollover, and then a panic. *)
Lemma Set'_nil ts s :
  None ∈ ts →
  Set' ts s =
  match newSegment s with
  | Some (Ok tail, s1) => None
  | Some (Err e, s1) => Some (Some e, s1)
  | None => None
  end.
Proof.
  intros Hin. unfold Set'. unfold bind at 1.
  destruct (newSegment s) as [[[tail|e] s1]|]; try reflexivity.
  unfold bind at 1.
  assert (Hdata :
    match ts with
    | [t] =>
        x <- deref_T t ;;
        part <- Process (TKey x) (TValue x) (TDeleted x) ;;
        ret ([] ++ part)
    | _ => Set'_loop ts []
    end s1 = None).
  { destruct ts as [|t [|t' ts']].
    - by apply elem_of_nil in Hin.
    - apply list_elem_of_singleton in Hin as <-. reflexivity.
    - apply Set'_loop_nil, Hin. }
  rewrite Hdata. reflexivity.
Qed.

(** A batch has a nil pointer or it points to records. *)
Lemma pointers_or_nil (ts : list (option T)) :
  None ∈ ts ∨ ∃ rs, ts = pointers rs.
Proof.
  induction ts as [|[x|] ts IH].
  - right. exists []. reflexivity.
  - destruct IH as [IH|[rs ->]].
    + left. by apply list_elem_of_further.
    + right. exists (x :: rs). reflexivity.
  - left. apply list_elem_of_here.
Qed.

Lemma Search_loop_eq f i j :
  Search_loop f i j =
  if (i <? j)%nat then
    match f ((i + j) / 2)%nat with
    | None => None
    | Some false => Search_loop f ((i + j) / 2 + 1)%nat j
    | Some true => Search_loop f i ((i + j) / 2)%nat
    end
  else Some i.
Proof.
  funelim (Search_loop f i j).
  all: repeat match goal with
       | H : ?x = _ |- context [match ?x with _ => _ end] => rewrite H
       end; reflexivity.
Qed.

(** The first rollover of a WAL without a tail. *)
Lemma newSegment_fresh s :
  WAL.tail (wal s) = None → faults s (ticks s) = false →
  newSegment s =
  Some (Ok (length (heap s)),
        mkSys
          (WAL.mk (WAL.path (wal s)) (WAL.segments (wal s) ++ [length (heap s)])
             (Some (mkFMMAP (tail_file (WAL.path (wal s))
                               (int64 (WAL.lastIndex (wal s) + 1))) false))
             (WAL.d (wal s)) (WAL.lowMark (wal s))
             (int64 (WAL.lastIndex (wal s) + 1)) (WAL.cache (wal s)))
          (heap s ++ [Segment.mk (tail_file (WAL.path (wal s))
                                    (int64 (WAL.lastIndex (wal s) + 1)))
                        (int64 (WAL.lastIndex (wal s) + 1)) 0 []])
          (created (tail_file (WAL.path (wal s))
                      (int64 (WAL.lastIndex (wal s) + 1))) (files s))
          (console s) (S (ticks s)) (clock s) (faults s)).
Proof.
  intros Ht Hf.
  unfold newSegment, TailPath, Close, os_Rename, open, fmmap_NewFile, alloc,
    AppendSegment, fmmap_Name, created.
  mrun.
  change (Join [Join [Join [WAL.path (wal s);
            substring (String.length (FORMAT_NAME
              (int64 (WAL.lastIndex (wal s) + 1))) - 20) 20
              (FORMAT_NAME (int64 (WAL.lastIndex (wal s) + 1)))] "/";
            END_EXT] EmptyString; WAL_EXT] ".")
    with (tail_file (WAL.path (wal s)) (int64 (WAL.lastIndex (wal s) + 1))).
  set (temp := tail_file (WAL.path (wal s))
                 (int64 (WAL.lastIndex (wal s) + 1))).
  destruct (files s !! temp) eqn:Ef; mrun; reflexivity.
Qed.

(** *** File names *)

Lemma string_app_assoc (a b c : string) : (a +:+ b) +:+ c = a +:+ (b +:+ c).
Proof.
  induction a as [|x a IH]; [reflexivity|].
  change (String x ((a +:+ b) +:+ c) = String x (a +:+ (b +:+ c))).
  f_equal. exact IH.
Qed.

Lemma prefix_app (a b : string) : String.prefix a (a +:+ b) = true.
Proof.
  induction a as [|x a IH]; [by destruct b|].
  change (String.prefix (String x a) (String x (a +:+ b)) = true).
  simpl. destruct (ascii_dec x x); [exact IH | congruence].
Qed.

(** The tail file of index 1 in a directory. *)
Lemma tail_file_1 path :
  tail_file path 1 = path +:+ "/00000000000000000001_END.wal".
Proof.
  unfold tail_file, Join. cbn [String.concat].
  change (substring _ 20 (FORMAT_NAME 1)) with "00000000000000000001".
  rewrite !string_app_assoc. reflexivity.
Qed.

Lemma tail_file_below path index :
  String.prefix (path +:+ "/") (tail_file path index) = true.
Proof.
  unfold tail_file, Join. cbn [String.concat].
  set (x := substring _ _ _).
  rewrite !string_app_assoc.
  rewrite <- (string_app_assoc path "/"). apply prefix_app.
Qed.

(** A directory without files: the walk hands nothing to the function. *)
Lemma walk_files_nothing_below root (fs : gmap string (list byte)) :
  (∀ name, String.prefix (root +:+ "/") name = true → fs !! name = None) →
  walk_files root fs = [].
Proof.
  intros Hnone. unfold walk_files.
  assert (E : omap (λ kv : string * list byte,
                      c ← below root kv.1; Some (kv.1, c)) (map_to_list fs) = []).
  { assert (Hall : Forall (λ kv : string * list byte, fs !! kv.1 = Some kv.2)
                     (map_to_list fs)).
    { apply Forall_forall. intros [k v] Hin.
      apply elem_of_map_to_list in Hin. exact Hin. }
    induction Hall as [|[k v] l Hk _ IH]; [reflexivity|].
    simpl. unfold below at 1. simpl in Hk.
    destruct (String.prefix (root +:+ "/") k) eqn:Ep.
    - rewrite (Hnone k Ep) in Hk. discriminate.
    - simpl. exact IH. }
  rewrite E. reflexivity.
Qed.

(** A walk that hands nothing to the function: no file lies below the
    root. *)
Lemma walk_files_nil root (fs : gmap string (list byte)) :
  walk_files root fs = [] →
  ∀ name, String.prefix (root +:+ "/") name = true → fs !! name = None.
Proof.
  unfold walk_files. intros H name Hp.
  apply fmap_nil_inv in H.
  assert (E : omap (λ kv : string * list byte,
                      c ← below root kv.1; Some (kv.1, c)) (map_to_list fs) = []).
  { apply Permutation_nil_r. rewrite <- H. symmetry.
    apply merge_sort_Permutation. }
  destruct (fs !! name) as [content|] eqn:Ef; [|reflexivity].
  exfalso. apply elem_of_map_to_list in Ef.
  assert (Hin : (name, components
                   (substring (String.length root + 1)
                      (String.length name - (String.length root + 1)) name))
                ∈ omap (λ kv : string * list byte,
                          c ← below root kv.1; Some (kv.1, c))
                    (map_to_list fs)).
  { apply list_elem_of_omap. exists (name, content). split; [exact Ef|].
    cbn [fst]. unfold below. rewrite Hp. reflexivity. }
  rewrite E in Hin. by apply elem_of_nil in Hin.
Qed.

(** [Open] is the call of [os.Lstat] on the root, which does not fail
    when [Open] returns, the walk and the setting up of the tail. *)
Lemma Open_walk s r s' :
  Open s = Some (r, s') →
  faults s (ticks s) = false ∧
  match Walk (walk_files (WAL.path (wal s)) (files s)) Open_visit (tick s) with
  | Some (Some e, s1) => Some (Some e, s1)
  | Some (None, s1) => setupLastSegment s1
  | None => None
  end = Some (r, s').
Proof.
  unfold Open. intros H. mstep.
  destruct (faults s (ticks s)); [discriminate|]. split; [reflexivity|].
  mproj H. unfold tick.
  destruct (Walk _ _ _) as [[[e|] s1]|]; exact H.
Qed.

(** [Open] on a new WAL in a directory without files. *)
Lemma Open_nothing_below s path d lowMark cache :
  wal s = WAL.mk path [] None d lowMark 0 cache →
  (∀ name, String.prefix (path +:+ "/") name = true → files s !! name = None) →
  faults s (ticks s) = false → faults s (S (ticks s)) = false →
  faults s (S (S (ticks s))) = false →
  Open s =
  Some (None,
        mkSys
          (WAL.mk path [length (heap s)]
             (Some (mkFMMAP (path +:+ "/00000000000000000001_END.wal") false))
             d lowMark 1 cache)
          (heap s ++
           [Segment.mk (path +:+ "/00000000000000000001_END.wal") 1 0 []])
          (<[path +:+ "/00000000000000000001_END.wal" := []]> (files s))
          (console s) (S (S (S (ticks s)))) (clock s) (faults s)).
Proof.
  intros Hwal Hnone Hf0 Hf1 Hf2.
  rewrite <- tail_file_1.
  assert (Hfile : files s !! tail_file path 1 = None)
    by apply Hnone, tail_file_below.
  set (temp := tail_file path 1) in *.
  destruct s as [w hp fs co ti cl fa]. cbn [wal heap files console ticks
    clock faults] in *. subst w.
  unfold Open. mrun. rewrite walk_files_nothing_below by exact Hnone.
  cbn [Walk]. mrun.
  unfold setupLastSegment, getLastSegment. mrun.
  unfold Search. rewrite Search_loop_eq. cbn [length Nat.ltb Nat.leb].
  cbn [lookup list_lookup]. mrun.
  rewrite newSegment_fresh by first [reflexivity | assumption].
  cbn [wal heap files console ticks clock faults WAL.path WAL.segments
       WAL.tail WAL.d WAL.lowMark WAL.lastIndex WAL.cache].
  change (int64 (0 + 1)) with 1. fold temp.
  assert (Hc : created temp fs = <[temp := []]> fs)
    by (unfold created; rewrite Hfile; reflexivity).
  rewrite Hc.
  assert (Hl : (hp ++ [Segment.mk temp 1 0 []]) !! length hp =
               Some (Segment.mk temp 1 0 [])) by (by apply list_lookup_middle).
  assert (Hi : <[temp := []]> fs !! temp = Some []) by apply lookup_insert_eq.
  unfold deref, open, fmmap_NewFile, fmmap_Get, store, deref. mrun.
  cbn [Segment.Path Segment.path file_name]. mrun.
  unfold Segment.SetData, full. cbn [elems Segment.path Segment.index
    Segment.size Segment.data app].
  rewrite insert_app_r_alt by lia. rewrite Nat.sub_diag.
  unfold WAL.set_tail.
  cbn [WAL.path WAL.segments WAL.tail WAL.d WAL.lowMark WAL.lastIndex
       WAL.cache insert list_insert file_name].
  rewrite Hi. reflexivity.
Qed.

(** What a [Set] that succeeds has done. *)
Lemma Set'_Ok ts s s' :
  Set' (pointers ts) s = Some (None, s') →
  ∃ s1,
    newSegment s = Some (Ok (length (heap s)), s1) ∧
    Update (batch_bytes (clock s) (ticks s1) ts) (length (heap s))
      (ticked (length ts) s1) = Some (None, s') ∧
    wal s' = wal s1 ∧
    heap s' =
      heap s ++
      [Segment.Append
         (Segment.mk (tail_file (WAL.path (wal s))
                        (int64 (WAL.lastIndex (wal s) + 1)))
            (int64 (WAL.lastIndex (wal s) + 1)) 0 [])
         (batch_bytes (clock s) (ticks s1) ts)
         (int64 (Z.of_nat (length (batch_bytes (clock s) (ticks s1) ts))))] ∧
    files s' =
      alter (λ old, old ++ batch_bytes (clock s) (ticks s1) ts)
        (tail_file (WAL.path (wal s)) (int64 (WAL.lastIndex (wal s) + 1)))
        (files s1) ∧
    console s' = console s.
Proof.
  intros H. rewrite Set'_eq in H.
  destruct (newSegment s) as [[[tail|e] s1]|] eqn:Hn; try discriminate.
  pose proof (newSegment_Ok _ _ _ Hn)
    as (-> & Hheap & Hwal & Hfiles & Hcons & Hclock & Hfaults & Hticks).
  exists s1. split; [reflexivity|].
  rewrite Hclock in H.
  set (data := batch_bytes (clock s) (ticks s1) ts) in *.
  set (temp := tail_file (WAL.path (wal s))
                 (int64 (WAL.lastIndex (wal s) + 1))) in *.
  assert (Hu : Update data (length (heap s)) (ticked (length ts) s1) =
               Some (None, s')).
  { destruct (Update _ _ _) as [[[e|] s2]|]; try discriminate.
    injection H as <-. reflexivity. }
  split; [exact Hu|].
  rewrite (Update_run _ (mkFMMAP temp false) data (length (heap s))
             (Segment.mk temp (int64 (WAL.lastIndex (wal s) + 1)) 0 []))
    in Hu.
  2: { unfold ticked. cbn [wal]. rewrite Hwal. reflexivity. }
  2: { unfold ticked. cbn [heap]. rewrite Hheap.
       apply list_lookup_middle. reflexivity. }
  cbn [closed file_name] in Hu.
  destruct (faults _ _); [discriminate|].
  injection Hu as <-. unfold ticked.
  cbn [wal heap files console ticks clock faults].
  repeat split.
  - rewrite Hheap. rewrite insert_app_r_alt by lia.
    rewrite Nat.sub_diag. reflexivity.
  - exact Hcons.
Qed.

(** [Set] succeeds when the operating system does not fail and the file
    of the tail is there. *)
Lemma Set'_succeeds ts s :
  (∀ n, faults s n = false) →
  (∀ h, WAL.tail (wal s) = Some h → is_Some (files s !! file_name h)) →
  ∃ s', Set' (pointers ts) s = Some (None, s').
Proof.
  intros Hf Hfile.
  destruct (newSegment_succeeds s Hf Hfile) as [s1 Hn].
  pose proof (newSegment_Ok _ _ _ Hn)
    as (_ & Hheap & Hwal & _ & _ & _ & Hfaults & _).
  rewrite Set'_eq, Hn.
  erewrite Update_run.
  2: { unfold ticked. cbn [wal]. rewrite Hwal. reflexivity. }
  2: { unfold ticked. cbn [heap]. rewrite Hheap.
       apply list_lookup_middle. reflexivity. }
  cbn [closed]. unfold ticked at 1. cbn [faults ticks].
  rewrite Hfaults, Hf. eauto.
Qed.

(** After the rollover of an empty tail file into a name at which no file
    with bytes lies, the new tail file is empty. *)
Lemma rollover_tail_empty s h temp :
  WAL.tail (wal s) = Some h → files s !! file_name h = Some [] →
  (∀ c, files s !! temp = Some c → c = []) →
  created temp (sealed_files s) !! temp = Some [].
Proof.
  intros Ht Hh Hempty. unfold sealed_files. rewrite Ht, Hh.
  set (fs := <[_ := _]> _).
  assert (Hc : ∀ c, fs !! temp = Some c → c = []).
  { intros c. subst fs. rewrite lookup_insert. case_decide; [congruence|].
    rewrite lookup_delete. case_decide; [congruence|]. apply Hempty. }
  unfold created. destruct (fs !! temp) as [c|] eqn:E.
  - rewrite E. f_equal. apply Hc. reflexivity.
  - apply lookup_insert_eq.
Qed.

Lemma encode_length r :
  length (encode r) = (29 + String.length (TKey r.2) + length (TValue r.2))%nat.
Proof.
  rewrite encode_Raw. pose proof (Raw_bytes_length (Raw_of r)) as H.
  unfold Raw_of in H. cbn [raw_key raw_value] in H.
  assert (length (list_byte_of_string (TKey r.2)) = String.length (TKey r.2)).
  { generalize (TKey r.2). intros k. unfold list_byte_of_string.
    rewrite length_map. induction k; simpl; congruence. }
  unfold Raw_of. lia.
Qed.

(** The first [Set] after [Open] on a new WAL in a directory without
    files: the batch is the whole content of the new tail file. *)
Lemma Set'_after_fresh_open s0 s1 path d lowMark cache ts :
  wal s0 = WAL.mk path [] None d lowMark 0 cache →
  (∀ name, String.prefix (path +:+ "/") name = true → files s0 !! name = None) →
  (∀ n, faults s0 n = false) →
  Open s0 = Some (None, s1) →
  ∃ s2 tail seg t0,
    Set' (pointers ts) s1 = Some (None, s2) ∧
    last (WAL.segments (wal s2)) = Some tail ∧
    heap s2 !! tail = Some seg ∧
    WAL.tail (wal s2) = Some (mkFMMAP (Segment.path seg) false) ∧
    Segment.data seg = batch_bytes (clock s0) t0 ts ∧
    Segment.size seg =
      int64 (Z.of_nat (length (batch_bytes (clock s0) t0 ts))) ∧
    files s2 !! Segment.path seg = Some (batch_bytes (clock s0) t0 ts).
Proof.
  intros Hwal Hnone Hf Hopen.
  rewrite (Open_nothing_below s0 path d lowMark cache Hwal Hnone) in Hopen
    by apply Hf.
  injection Hopen as <-.
  set (t1 := path +:+ "/00000000000000000001_END.wal") in *.
  set (s1 := mkSys _ _ _ _ _ _ _) in *.
  assert (Ht1 : WAL.tail (wal s1) = Some (mkFMMAP t1 false)) by reflexivity.
  assert (Hfile1 : files s1 !! t1 = Some []) by apply lookup_insert_eq.
  destruct (Set'_succeeds ts s1) as [s2 Hset].
  { exact Hf. }
  { intros h Hh. rewrite Ht1 in Hh. injection Hh as <-. cbn [file_name].
    rewrite Hfile1. eauto. }
  destruct (Set'_Ok _ _ _ Hset) as (s1' & Hn & _ & Hwal2 & Hheap2 & Hfiles2 & _).
  pose proof (newSegment_Ok _ _ _ Hn) as (_ & _ & Hwal1 & Hfiles1 & _).
  set (temp := tail_file (WAL.path (wal s1)) (int64 (WAL.lastIndex (wal s1) + 1)))
    in *.
  set (data := batch_bytes (clock s1) (ticks s1') ts) in *.
  exists s2, (length (heap s1)),
    (Segment.Append (Segment.mk temp (int64 (WAL.lastIndex (wal s1) + 1)) 0 [])
       data (int64 (Z.of_nat (length data)))), (ticks s1').
  split_and!.
  - exact Hset.
  - rewrite Hwal2, Hwal1. cbn [WAL.segments]. apply last_snoc.
  - rewrite Hheap2. by apply list_lookup_middle.
  - rewrite Hwal2, Hwal1. reflexivity.
  - reflexivity.
  - cbn [Segment.Append Segment.size]. change (0 + ?x) with x.
    apply int64_int64.
  - cbn [Segment.Append Segment.path]. rewrite Hfiles2, lookup_alter.
    rewrite decide_True by reflexivity.
    rewrite Hfiles1.
    rewrite (rollover_tail_empty s1 (mkFMMAP t1 false) temp Ht1 Hfile1).
    + reflexivity.
    + intros c. subst s1. cbn [files]. rewrite lookup_insert.
      case_decide; [congruence|].
      rewrite Hnone; [discriminate|]. apply tail_file_below.
Qed.

End rollover_facts.

(** ** The binary search and the read of the tail *)

Section search_facts.

(** [sort.Search] on a predicate that is false up to some position and
    true from there on returns that position. *)
Lemma Search_loop_spec (f : nat → option bool) (g : nat → bool) (n : nat) :
  (∀ k, (k < n)%nat → f k = Some (g k)) →
  (∀ a b, (a <= b < n)%nat → g a = true → g b = true) →
  ∀ m i j, (j - i <= m)%nat → (i <= j <= n)%nat →
    (∀ k, (k < i)%nat → g k = false) →
    (∀ k, (j <= k < n)%nat → g k = true) →
    ∃ r, Search_loop f i j = Some r ∧ (i <= r <= j)%nat ∧
         (∀ k, (k < r)%nat → g k = false) ∧
         (∀ k, (r <= k < n)%nat → g k = true).
Proof.
  intros Hf Hmono m. induction m as [|m IH]; intros i j Hm Hij Hlo Hhi.
  - rewrite Search_loop_eq.
    replace (i <? j)%nat with false by (symmetry; apply Nat.ltb_ge; lia).
    exists i. split_and!; auto; try lia. intros k Hk. apply Hhi. lia.
  - rewrite Search_loop_eq. destruct (i <? j)%nat eqn:E.
    + apply Nat.ltb_lt in E.
      pose proof (Nat.div_mod_eq (i + j) 2) as Hd.
      pose proof (Nat.mod_upper_bound (i + j) 2 ltac:(lia)) as Hmod.
      set (h := ((i + j) / 2)%nat) in *.
      assert (Hh : (i <= h < j)%nat) by lia.
      rewrite Hf by lia. destruct (g h) eqn:Eg.
      * destruct (IH i h) as (r & Hr & Hb & H1 & H2); try lia; auto.
        { intros k Hk. apply (Hmono h k); [lia | exact Eg]. }
        exists r. split_and!; auto; lia.
      * destruct (IH (h + 1)%nat j) as (r & Hr & Hb & H1 & H2); try lia; auto.
        { intros k Hk. destruct (g k) eqn:Ek; [|reflexivity].
          rewrite (Hmono k h) in Eg; [discriminate | lia | exact Ek]. }
        exists r. split_and!; auto; lia.
    + apply Nat.ltb_ge in E. exists i. split_and!; auto; try lia.
      intros k Hk. apply Hhi. lia.
Qed.

Lemma indices_lookup s k p :
  WAL.segments (wal s) !! k = Some p → indices s !! k = Some (seg_index s p).
Proof. intros H. unfold indices. rewrite list_lookup_fmap, H. reflexivity. Qed.

Lemma index_at_least_live s x k :
  live s → (k < length (WAL.segments (wal s)))%nat →
  index_at_least s x k =
  Some (x <=? default 0 (indices s !! k)).
Proof.
  intros Hlive Hk.
  destruct (lookup_lt_is_Some_2 _ _ Hk) as [p Hp].
  unfold live in Hlive. rewrite Forall_lookup in Hlive.
  destruct (Hlive k p Hp) as [seg Hseg].
  unfold index_at_least. rewrite (indices_lookup _ _ _ Hp), Hp. simpl.
  unfold seg_index. rewrite Hseg. reflexivity.
Qed.

(** On strictly sorted segments the search returns the position of the
    first index that is at least [x]. *)
Lemma Search_sorted s x :
  live s → increasing (indices s) →
  ∃ r, Search (length (WAL.segments (wal s))) (index_at_least s x) = Some r ∧
       (r <= length (WAL.segments (wal s)))%nat ∧
       (∀ k a, (k < r)%nat → indices s !! k = Some a → a < x) ∧
       (∀ k a, (r <= k)%nat → indices s !! k = Some a → x <= a).
Proof.
  intros Hlive Hinc.
  set (n := length (WAL.segments (wal s))).
  assert (Hlen : length (indices s) = n) by (unfold indices; apply length_map).
  destruct (Search_loop_spec (index_at_least s x)
              (λ k, x <=? default 0 (indices s !! k)) n) with (m := n) (i := 0%nat) (j := n)
    as (r & Hr & Hb & H1 & H2); try lia.
  all: try (intros k Hk; lia).
  - intros k Hk. apply index_at_least_live; assumption.
  - intros a b Hab Ha.
    destruct (lookup_lt_is_Some_2 (indices s) a) as [va Hva]; [lia|].
    destruct (lookup_lt_is_Some_2 (indices s) b) as [vb Hvb]; [lia|].
    rewrite Hva in Ha. rewrite Hvb. simpl in *.
    apply Z.leb_le in Ha. apply Z.leb_le.
    destruct (decide (a = b)) as [->|Hne]; [congruence|].
    pose proof (Hinc a b va vb ltac:(lia) Hva Hvb). lia.
  - exists r. split; [exact Hr|]. split; [lia|]. split.
    + intros k a Hk Ha. specialize (H1 k Hk). rewrite Ha in H1. simpl in H1.
      apply Z.leb_gt in H1. exact H1.
    + intros k a Hk Ha.
      assert (k < n)%nat by (rewrite <- Hlen; eapply lookup_lt_Some; eauto).
      specialize (H2 k ltac:(lia)). rewrite Ha in H2. simpl in H2.
      apply Z.leb_le in H2. exact H2.
Qed.

(** On strictly sorted segments the search finds the segment that has the
    index [x], when there is one. *)
Lemma Search_finds s x k :
  live s → increasing (indices s) → indices s !! k = Some x →
  Search (length (WAL.segments (wal s))) (index_at_least s x) = Some k.
Proof.
  intros Hlive Hinc Hk.
  destruct (Search_sorted s x Hlive Hinc) as (r & Hr & Hle & H1 & H2).
  rewrite Hr. f_equal.
  destruct (Nat.lt_trichotomy r k) as [Hlt|[->|Hgt]]; [|reflexivity|].
  - assert (r < length (indices s))%nat
      by (apply lookup_lt_Some in Hk; lia).
    destruct (lookup_lt_is_Some_2 (indices s) r) as [a Ha]; [lia|].
    pose proof (H2 r a ltac:(lia) Ha).
    pose proof (Hinc r k a x Hlt Ha Hk). lia.
  - pose proof (H1 k x Hgt Hk). lia.
Qed.

(** [getLastSegment] returns the tail and changes nothing when the tail is
    among the strictly sorted segments. *)
Lemma getLastSegment_finds s k p seg :
  live s → increasing (indices s) →
  WAL.segments (wal s) !! k = Some p → heap s !! p = Some seg →
  Segment.index seg = WAL.lastIndex (wal s) →
  getLastSegment s = Some (Ok p, s).
Proof.
  intros Hlive Hinc Hp Hseg Hidx.
  assert (Hk : indices s !! k = Some (WAL.lastIndex (wal s))).
  { rewrite (indices_lookup _ _ _ Hp). unfold seg_index.
    rewrite Hseg, Hidx. reflexivity. }
  unfold getLastSegment. mrun. unfold id.
  rewrite (Search_finds s _ k Hlive Hinc Hk). rewrite Hp.
  unfold deref. mrun. rewrite Hidx, Z.eqb_refl. reflexivity.
Qed.

Lemma getSegmentData_run s p seg :
  heap s !! p = Some seg → faults s (ticks s) = false →
  getSegmentData p s =
  Some (Ok (full (default [] (files s !! Segment.path seg))),
        mkSys (wal s) (heap s) (created (Segment.path seg) (files s))
          (console s) (S (ticks s)) (clock s) (faults s)).
Proof.
  intros Hseg Hf.
  unfold getSegmentData, deref, open, fmmap_NewFile, fmmap_Get, created. mrun.
  unfold Segment.Path.
  destruct (files s !! Segment.path seg) as [c|] eqn:E; mrun.
  - cbn [file_name]. rewrite E. reflexivity.
  - cbn [file_name]. rewrite lookup_insert_eq. reflexivity.
Qed.

End search_facts.

(** ** The order of the segments *)

Section order_facts.

Lemma increasing_snoc l x :
  increasing l → Forall (λ a, a < x) l → increasing (l ++ [x]).
Proof.
  intros Hinc Hall i j a b Hij Ha Hb.
  rewrite Forall_lookup in Hall.
  destruct (decide (j < length l)%nat) as [Hj|Hj].
  - rewrite lookup_app_l in Ha, Hb by lia. exact (Hinc i j a b Hij Ha Hb).
  - rewrite lookup_app_l in Ha.
    2: { apply lookup_lt_Some in Hb. rewrite length_app in Hb. simpl in Hb.
         lia. }
    rewrite lookup_app_r in Hb by lia.
    destruct (j - length l)%nat; [|destruct n; discriminate].
    injection Hb as <-. eapply Hall, Ha.
Qed.


(** A heap that grows, or whose segments change their data only, keeps the
    indices of the live segments. *)
Lemma seg_index_keep s s' ps :
  Forall (λ p, is_Some (heap s !! p)) ps →
  (∀ p seg, heap s !! p = Some seg →
            ∃ seg', heap s' !! p = Some seg' ∧
                    Segment.index seg' = Segment.index seg) →
  map (seg_index s') ps = map (seg_index s) ps.
Proof.
  intros Hlive Hkeep. apply map_ext_Forall.
  eapply Forall_impl; [exact Hlive|]. intros p [seg Hseg].
  destruct (Hkeep p seg Hseg) as (seg' & Hseg' & Hidx).
  unfold seg_index. rewrite Hseg, Hseg'. exact Hidx.
Qed.

Lemma heap_app_keep (hp extra : list Segment.t) p seg :
  hp !! p = Some seg →
  ∃ seg', (hp ++ extra) !! p = Some seg' ∧
          Segment.index seg' = Segment.index seg.
Proof.
  intros H. exists seg. split; [|reflexivity].
  apply lookup_app_l_Some. exact H.
Qed.

(** A rollover appends the new index and keeps the others. *)
Lemma newSegment_indices s p s' :
  live s → newSegment s = Some (Ok p, s') →
  indices s' = indices s ++ [int64 (WAL.lastIndex (wal s) + 1)] ∧ live s'.
Proof.
  intros Hlive Hn.
  pose proof (newSegment_Ok _ _ _ Hn) as (-> & Hheap & Hwal & _).
  assert (Hnew : heap s' !! length (heap s) =
                 Some (Segment.mk (tail_file (WAL.path (wal s))
                         (int64 (WAL.lastIndex (wal s) + 1)))
                         (int64 (WAL.lastIndex (wal s) + 1)) 0 []))
    by (rewrite Hheap; by apply list_lookup_middle).
  split.
  - unfold indices. rewrite Hwal. cbn [WAL.segments].
    rewrite map_app. f_equal.
    + apply seg_index_keep; [exact Hlive|].
      intros q seg Hq. rewrite Hheap. by apply heap_app_keep.
    + simpl. unfold seg_index. rewrite Hnew. reflexivity.
  - unfold live. rewrite Hwal. cbn [WAL.segments]. apply Forall_app. split.
    + eapply Forall_impl; [exact Hlive|]. intros q [seg Hq].
      rewrite Hheap. exists seg. by apply lookup_app_l_Some.
    + constructor; [|constructor]. rewrite Hnew. eauto.
Qed.

(** What [Open] does with one file of the walk. *)
Lemma Open_visit_None e s s' :
  Open_visit e.1 e.2 s = Some (None, s') →
  match visit_index e with
  | None => s' = s
  | Some (Ok (i, is_tail)) =>
      ∃ size,
        heap s' = heap s ++ [Segment.mk e.1 i size []] ∧
        wal s' =
          WAL.mk (WAL.path (wal s))
            (WAL.segments (wal s) ++ [length (heap s)])
            (WAL.tail (wal s)) (WAL.d (wal s)) (WAL.lowMark (wal s))
            (if is_tail then i else WAL.lastIndex (wal s))
            (WAL.cache (wal s))
  | Some (Err _) => False
  end.
Proof.
  unfold Open_visit, visit_index, os_Stat_Size, alloc, AppendSegment.
  intros H. mstep. repeat mcase H.
  all: injection H as <-.
  all: cbn [wal heap files].
  all: try reflexivity.
  all: eexists; split; reflexivity.
Qed.

Lemma snoc_indices s s' x idx :
  live s →
  heap s' = heap s ++ [x] → Segment.index x = idx →
  WAL.segments (wal s') = WAL.segments (wal s) ++ [length (heap s)] →
  indices s' = indices s ++ [idx] ∧ live s'.
Proof.
  intros Hlive Hheap Hidx Hsegs.
  assert (Hnew : heap s' !! length (heap s) = Some x)
    by (rewrite Hheap; by apply list_lookup_middle).
  split.
  - unfold indices. rewrite Hsegs, map_app. f_equal.
    + apply seg_index_keep; [exact Hlive|].
      intros q seg Hq. rewrite Hheap. by apply heap_app_keep.
    + simpl. unfold seg_index. rewrite Hnew, Hidx. reflexivity.
  - unfold live. rewrite Hsegs. apply Forall_app. split.
    + eapply Forall_impl; [exact Hlive|]. intros q [seg Hq].
      rewrite Hheap. exists seg. by apply lookup_app_l_Some.
    + constructor; [|constructor]. rewrite Hnew. eauto.
Qed.

(** The walk of [Open] appends the segments of the [.wal] files in the
    order of the walk and takes [lastIndex] from the last name with the
    tail mark. *)
Lemma Walk_None entries : ∀ s s',
  live s → Walk entries Open_visit s = Some (None, s') →
  live s' ∧ indices s' = indices s ++ walk_indices entries ∧
  WAL.lastIndex (wal s') = walk_tail entries (WAL.lastIndex (wal s)).
Proof.
  induction entries as [|[name base] rest IH]; intros s s' Hlive H.
  - simpl in H. unfold ret in H. injection H as <-.
    unfold walk_indices, walk_tail. simpl. rewrite app_nil_r. auto.
  - simpl in H. unfold bind in H.
    destruct (Open_visit name base s) as [[[err|] s1]|] eqn:E;
      try discriminate.
    pose proof (Open_visit_None (name, base) s s1 E) as Hv.
    unfold walk_indices, walk_tail. cbn [omap list_omap fold_left].
    fold (walk_indices rest). 
    destruct (visit_index (name, base)) as [[[i t]|err]|]; [| done |].
    + destruct Hv as (size & Hheap & Hwal).
      destruct (snoc_indices s s1 _ i Hlive Hheap eq_refl) as [Hidx Hlive1].
      { rewrite Hwal. reflexivity. }
      destruct (IH s1 s' Hlive1 H) as (Hl & Hi & Ht).
      split; [exact Hl|]. split.
      * rewrite Hi, Hidx, <- app_assoc. reflexivity.
      * rewrite Ht, Hwal. cbn [WAL.lastIndex]. reflexivity.
    + subst s1. destruct (IH s s' Hlive H) as (Hl & Hi & Ht). auto.
Qed.

(** [getLastSegment] returns a segment of the sequence and changes
    nothing, or it rolls over. *)
Lemma getLastSegment_Ok s p s1 :
  getLastSegment s = Some (Ok p, s1) →
  s1 = s ∨ newSegment s = Some (Ok p, s1).
Proof.
  unfold getLastSegment, deref. intros H. mstep. unfold id in H.
  repeat mcase H; auto.
  injection H as <- <-. auto.
Qed.

(** Setting up the tail keeps the sequence, or appends the index
    [lastIndex + 1] of a rollover. *)
Lemma setupLastSegment_None s s' :
  live s → setupLastSegment s = Some (None, s') →
  (indices s' = indices s ∧ WAL.lastIndex (wal s') = WAL.lastIndex (wal s)) ∨
  (indices s' = indices s ++ [int64 (WAL.lastIndex (wal s) + 1)] ∧
   WAL.lastIndex (wal s') = int64 (WAL.lastIndex (wal s) + 1)).
Proof.
  intros Hlive H. unfold setupLastSegment in H. unfold bind at 1 in H.
  destruct (getLastSegment s) as [[[p|e] s1]|] eqn:G; try discriminate.
  assert (Hkeep : live s1 → indices s' = indices s1 ∧
                  WAL.lastIndex (wal s') = WAL.lastIndex (wal s1)).
  { intros Hlive1. clear G.
    unfold deref, open, fmmap_NewFile, fmmap_Get, store, deref in H.
    mstep. repeat mcase H.
    all: injection H as <-.
    all: cbn [wal heap WAL.lastIndex].
    all: split; [|reflexivity].
    all: unfold indices; cbn [wal heap WAL.segments].
    all: apply seg_index_keep; [exact Hlive1|].
    all: cbn [heap].
    all: intros q seg0 Hq.
    all: destruct (decide (q = p)) as [Heq|Hne].
    all: try (rewrite list_lookup_insert_ne by congruence; eauto).
    all: subst q.
    all: rewrite list_lookup_insert_eq by (eapply lookup_lt_Some; eauto).
    all: eexists; split; [reflexivity|].
    all: match goal with
         | E : ?h !! ?k = Some _, Hq : ?h !! ?k = Some _ |- _ =>
             rewrite E in Hq; injection Hq as <-
         end; reflexivity. }
  destruct (getLastSegment_Ok _ _ _ G) as [->|Hn].
  - left. apply Hkeep, Hlive.
  - right. destruct (newSegment_indices _ _ _ Hlive Hn) as [Hi Hl].
    destruct (Hkeep Hl) as [Hi' Ht']. rewrite Hi', Ht', Hi.
    pose proof (newSegment_Ok _ _ _ Hn) as (_ & _ & Hwal & _).
    rewrite Hwal. auto.
Qed.


(** A checker for short concrete sequences. *)
Lemma increasing_cons a l :
  Forall (λ b, a < b) l → increasing l → increasing (a :: l).
Proof.
  intros Hall Hinc [|i] [|j] x y Hij Hx Hy; try lia; simpl in *.
  - injection Hx as <-. rewrite Forall_lookup in Hall. eapply Hall, Hy.
  - apply (Hinc i j x y); [lia|assumption..].
Qed.

Lemma increasing_nil : increasing [].
Proof. intros i j a b _ Ha. discriminate. Qed.



End order_facts.

(** * The claims *)

(** ** The codec *)

(** Claim C2. For every finite sequence of records, each encoded by
    [Process] at some time, decoding the concatenation of the encodings
    yields exactly one entry per record, in order, with the key, the value
    and the deleted flag of the record and with the CRC-32 of its value (and
    with the time of the encoding). The byte slice may have any spare
    capacity; as every Go slice it holds at most [max_int] bytes. *)
Theorem C2_stream_round_trip (rs : list (Z * T)) (room : list byte) :
  Z.of_nat (length (concat (map encode rs)) + length room) <= max_int →
  convert (Slice (concat (map encode rs)) room) = Some (map expected_entry rs).
Proof. apply convert_encoded. Qed.

Lemma C2_stream_round_trip_witness :
  let rs := [(1700000000, mkT "k" [x76] false); (1700000001, mkT "ab" [] true)] in
  Z.of_nat (length (concat (map encode rs)) + length [x00; x00]) <= max_int ∧
  convert (Slice (concat (map encode rs)) [x00; x00]) =
    Some (map expected_entry rs).
Proof.
  intros rs.
  assert (H : Z.of_nat (length (concat (map encode rs)) + length [x00; x00])
              <= max_int) by (vm_compute; discriminate).
  split; [exact H | exact (C2_stream_round_trip rs [x00; x00] H)].
Defined.

(** ** The retention sweep *)

(** Claim C8, as the code has it. With a low mark that is not negative, a
    sweep visits the positions from the last one down to the low mark.
    When the files of the segments at these positions are there, under
    names that differ, and the operating system fails at none of the
    removals, the sweep prints nothing, it has removed the file of every
    segment at or above the low mark, and the segments are exactly the
    first [min(lowMark, previous length)] ones, in their order and
    unchanged. *)
Theorem C8_sweep_keeps_first_lowMark (s : Sys) :
  0 <= WAL.lowMark (wal s) → live s →
  NoDup (map (seg_path s) (drop (kept s) (WAL.segments (wal s)))) →
  (∀ p, p ∈ drop (kept s) (WAL.segments (wal s)) →
        is_Some (files s !! seg_path s p)) →
  (∀ m, (ticks s <= m < ticks s + (length (WAL.segments (wal s)) - kept s))%nat →
        faults s m = false) →
  ∃ s', cleanLog s = Some (tt, s') ∧
    console s' = console s ∧
    WAL.segments (wal s') = take (kept s) (WAL.segments (wal s)) ∧
    heap s' = heap s ∧
    files s' = foldr delete (files s)
                 (map (seg_path s) (drop (kept s) (WAL.segments (wal s)))) ∧
    ∀ i p, WAL.lowMark (wal s) <= Z.of_nat i →
           WAL.segments (wal s) !! i = Some p →
           files s' !! seg_path s p = None.
Proof.
  intros Hlow Hlive Hdup Hthere Hf. unfold cleanLog. mstep.
  destruct (cleanLog_loop_total _ s eq_refl Hlive Hlow) as [[[] s'] Hrun].
  exists s'. split; [exact Hrun|].
  destruct (cleanLog_loop_quiet _ s s' eq_refl Hlow Hrun Hdup Hthere Hf)
    as [Hcons _].
  destruct (cleanLog_loop_inv _ s s' eq_refl Hrun)
    as (k & Hk & Hwal & Hheap & Hfiles & Hcase).
  assert (k = kept s) as ->.
  { destruct Hcase as [[_ Hkk]|(i & -> & _ & Hc)].
    - unfold kept. lia.
    - rewrite Hc in Hcons. apply (f_equal length) in Hcons.
      rewrite length_app in Hcons. simpl in Hcons. lia. }
  split_and!.
  - exact Hcons.
  - rewrite Hwal. reflexivity.
  - exact Hheap.
  - exact Hfiles.
  - intros i p Hi Hp. rewrite Hfiles. apply lookup_foldr_delete_in.
    apply list_elem_of_fmap. exists p. split; [reflexivity|].
    apply list_elem_of_lookup. exists (i - kept s)%nat.
    rewrite lookup_drop. rewrite <- Hp. f_equal. unfold kept. lia.
Qed.


(** ** The shadow of the tail segment *)

(** Claim C5. [Update] either fails with the error of the durable append
    and leaves every segment as it was, or it succeeds and the segment it
    was given has its data extended by exactly the buffer and its size
    grown by the length of the buffer. A size is a file size: not negative,
    and it stays in the range of [int64]. *)
Theorem C5_Update_atomic (s : Sys) (h : FMMAP) (data : list byte) (p : nat)
    (seg : Segment.t) :
  WAL.tail (wal s) = Some h → heap s !! p = Some seg →
  0 <= Segment.size seg →
  Segment.size seg + Z.of_nat (length data) <= max_int →
  ∃ r s1, fmmap_Update h data s = Some (r, s1) ∧
    match r with
    | Some e =>
        Update data p s = Some (Some e, s1) ∧
        heap s1 = heap s ∧ heap s1 !! p = Some seg
    | None =>
        ∃ s', Update data p s = Some (None, s') ∧
          heap s' !! p =
            Some (Segment.mk (Segment.path seg) (Segment.index seg)
                    (Segment.size seg + Z.of_nat (length data))
                    (Segment.data seg ++ data)) ∧
          (∀ q, q ≠ p → heap s' !! q = heap s !! q) ∧
          wal s' = wal s ∧ files s' = files s1
    end.
Proof.
  intros Htail Hp Hsize Hmax.
  assert (Happ : Segment.Append seg data (int64 (Z.of_nat (length data))) =
                 Segment.mk (Segment.path seg) (Segment.index seg)
                   (Segment.size seg + Z.of_nat (length data))
                   (Segment.data seg ++ data)).
  { unfold Segment.Append.
    rewrite (int64_small (Z.of_nat (length data))) by (unfold max_int in *; lia).
    rewrite int64_small by (unfold max_int in *; lia). reflexivity. }
  rewrite (Update_run s h data p seg Htail Hp), fmmap_Update_run, Happ.
  assert (p < length (heap s))%nat by (eapply lookup_lt_Some; eauto).
  destruct (closed h).
  { eexists _, _. split; [reflexivity|]. cbv beta iota. repeat split; auto. }
  destruct (faults s (ticks s)).
  { eexists _, _. split; [reflexivity|]. cbv beta iota. repeat split; auto. }
  eexists _, _. split; [reflexivity|].
  eexists. split; [reflexivity|]. cbn [heap wal files].
  repeat split.
  - apply list_lookup_insert_eq. assumption.
  - intros q Hq. apply list_lookup_insert_ne. congruence.
Qed.

Lemma C5_Update_atomic_witness :
  let seg := Segment.mk "/wal/00000000000000000001_END.wal" 1 3 [x01; x02; x03] in
  let h := mkFMMAP "/wal/00000000000000000001_END.wal" false in
  let s := mkSys (WAL.mk "/wal" [0%nat] (Some h) 1 2 1 (mkLRU 4 []))
             [seg] {[ "/wal/00000000000000000001_END.wal" := [x01; x02; x03] ]}
             [] 0 (λ _, 0) (λ _, false) in
  (WAL.tail (wal s) = Some h ∧ heap s !! 0%nat = Some seg ∧
   0 <= Segment.size seg ∧ Segment.size seg + Z.of_nat (length [x04; x05]) <= max_int) ∧
  ∃ r s1, fmmap_Update h [x04; x05] s = Some (r, s1) ∧
    match r with
    | Some e =>
        Update [x04; x05] 0%nat s = Some (Some e, s1) ∧
        heap s1 = heap s ∧ heap s1 !! 0%nat = Some seg
    | None =>
        ∃ s', Update [x04; x05] 0%nat s = Some (None, s') ∧
          heap s' !! 0%nat =
            Some (Segment.mk (Segment.path seg) (Segment.index seg)
                    (Segment.size seg + Z.of_nat (length [x04; x05]))
                    (Segment.data seg ++ [x04; x05])) ∧
          (∀ q, q ≠ 0%nat → heap s' !! q = heap s !! q) ∧
          wal s' = wal s ∧ files s' = files s1
    end.
Proof.
  intros seg h s.
  assert (H1 : WAL.tail (wal s) = Some h) by reflexivity.
  assert (H2 : heap s !! 0%nat = Some seg) by reflexivity.
  assert (H3 : 0 <= Segment.size seg) by (simpl; lia).
  assert (H4 : Segment.size seg + Z.of_nat (length [x04; x05]) <= max_int)
    by (vm_compute; discriminate).
  split; [auto|].
  exact (C5_Update_atomic s h [x04; x05] 0%nat seg H1 H2 H3 H4).
Defined.

(** ** Rollover on every append *)

(** Claim C10, as the code has it. Every call of [Set] that succeeds,
    whatever the batch, has first rolled over: [segments] has exactly one
    more entry, a segment that did not exist before, and the bytes of the
    batch are the data of that new segment, while every segment that
    existed before is as it was. [lastIndex] becomes
    [int64(lastIndex + 1)]: one more, except at the largest [int64], where
    it wraps around to the smallest. *)
Theorem C10_Set_rolls_over (ts : list T) (s s' : Sys) :
  Set' (pointers ts) s = Some (None, s') →
  ∃ seg t0,
    WAL.segments (wal s') = WAL.segments (wal s) ++ [length (heap s)] ∧
    heap s !! length (heap s) = None ∧
    WAL.lastIndex (wal s') = int64 (WAL.lastIndex (wal s) + 1) ∧
    (- 2 ^ 63 <= WAL.lastIndex (wal s) < max_int →
     WAL.lastIndex (wal s') = WAL.lastIndex (wal s) + 1) ∧
    (WAL.lastIndex (wal s) = max_int → WAL.lastIndex (wal s') = - 2 ^ 63) ∧
    heap s' !! length (heap s) = Some seg ∧
    Segment.index seg = WAL.lastIndex (wal s') ∧
    Segment.path seg = tail_file (WAL.path (wal s)) (WAL.lastIndex (wal s')) ∧
    Segment.data seg = batch_bytes (clock s) t0 ts ∧
    Segment.size seg =
      int64 (Z.of_nat (length (batch_bytes (clock s) t0 ts))) ∧
    WAL.tail (wal s') = Some (mkFMMAP (Segment.path seg) false) ∧
    (∀ q, (q < length (heap s))%nat → heap s' !! q = heap s !! q).
Proof.
  intros H.
  destruct (Set'_Ok _ _ _ H) as (s1 & Hn & _ & Hwal & Hheap & _ & _).
  pose proof (newSegment_Ok _ _ _ Hn) as (_ & _ & Hwal1 & _).
  eexists _, (ticks s1). rewrite Hwal, Hwal1, Hheap.
  cbn [WAL.segments WAL.lastIndex WAL.tail].
  split_and!.
  - reflexivity.
  - apply lookup_ge_None_2. lia.
  - reflexivity.
  - intros Hidx. apply int64_small. unfold max_int in *. lia.
  - intros ->. vm_compute. reflexivity.
  - apply list_lookup_middle. reflexivity.
  - reflexivity.
  - reflexivity.
  - reflexivity.
  - cbn [Segment.Append Segment.size]. change (0 + ?x) with x.
    apply int64_int64.
  - reflexivity.
  - intros q Hq. apply lookup_app_l. exact Hq.
Qed.

Lemma C10_Set_rolls_over_witness :
  let ts := [mkT "a" [x31] false; mkT "b" [x32] true] in
  let s := sample_opened in
  let s' := state_after (Set' (pointers ts)) s in
  Set' (pointers ts) s = Some (None, s') ∧
  ∃ seg t0,
    WAL.segments (wal s') = WAL.segments (wal s) ++ [length (heap s)] ∧
    heap s !! length (heap s) = None ∧
    WAL.lastIndex (wal s') = int64 (WAL.lastIndex (wal s) + 1) ∧
    (- 2 ^ 63 <= WAL.lastIndex (wal s) < max_int →
     WAL.lastIndex (wal s') = WAL.lastIndex (wal s) + 1) ∧
    (WAL.lastIndex (wal s) = max_int → WAL.lastIndex (wal s') = - 2 ^ 63) ∧
    heap s' !! length (heap s) = Some seg ∧
    Segment.index seg = WAL.lastIndex (wal s') ∧
    Segment.path seg = tail_file (WAL.path (wal s)) (WAL.lastIndex (wal s')) ∧
    Segment.data seg = batch_bytes (clock s) t0 ts ∧
    Segment.size seg =
      int64 (Z.of_nat (length (batch_bytes (clock s) t0 ts))) ∧
    WAL.tail (wal s') = Some (mkFMMAP (Segment.path seg) false) ∧
    (∀ q, (q < length (heap s))%nat → heap s' !! q = heap s !! q).
Proof.
  intros ts s s'.
  assert (H1 : Set' (pointers ts) s = Some (None, s'))
    by (vm_compute; reflexivity).
  exact (conj H1 (C10_Set_rolls_over ts s s' H1)).
Defined.

(** Claim C10 as the spec states it fails at the largest index. After
    [Open] on a directory whose tail file has the index
    [9223372036854775807], [lastIndex] is that index; a [Set] then
    succeeds, and [lastIndex] is [-9223372036854775808], not one more. *)
Lemma C10_counterexample :
  let s1 := state_after Open sample_brim in
  let s2 := state_after (Set' (pointers sample_batch)) s1 in
  Open sample_brim = Some (None, s1) ∧
  WAL.lastIndex (wal s1) = 9223372036854775807 ∧
  Set' (pointers sample_batch) s1 = Some (None, s2) ∧
  WAL.lastIndex (wal s2) = -9223372036854775808 ∧
  WAL.lastIndex (wal s2) ≠ WAL.lastIndex (wal s1) + 1 ∧
  indices s2 = [9223372036854775807; -9223372036854775808].
Proof.
  intros s1 s2. split_and!; try (vm_compute; reflexivity).
  vm_compute. discriminate.
Qed.

(** ** A new WAL in an empty directory *)

(** Claim C4, as the code has it. [NewWAL] leaves [segments] empty and
    [lastIndex] at 0. [Open] on a directory without files, that is, one
    with a clean path in which the walk meets no file, with an operating
    system that fails at no call (so that the directory is there), then
    creates the tail of index [lastIndex + 1]: a file named
    [00000000000000000001_END.wal] of size 0; [segments] has exactly one
    entry, of index 1, and [lastIndex] is 1. *)
Theorem C4_fresh_open_creates_index_1 (path : string)
    (duration lowMark cap : Z) (w : WAL.t) (s : Sys) :
  NewWAL path duration lowMark cap = Ok w → wal s = w →
  clean_root path = true → walked s = [] →
  (∀ n, faults s n = false) →
  WAL.segments w = [] ∧ WAL.lastIndex w = 0 ∧
  ∃ s', Open s = Some (None, s') ∧
    files s' = <[path +:+ "/00000000000000000001_END.wal" := []]> (files s) ∧
    (∃ p seg, WAL.segments (wal s') = [p] ∧ heap s' !! p = Some seg ∧
              Segment.index seg = 1 ∧ Segment.size seg = 0 ∧
              Segment.data seg = [] ∧
              Segment.path seg = path +:+ "/00000000000000000001_END.wal") ∧
    WAL.tail (wal s') =
      Some (mkFMMAP (path +:+ "/00000000000000000001_END.wal") false) ∧
    WAL.lastIndex (wal s') = 1.
Proof.
  intros Hnew Hwal _ Hwalk Hf. unfold NewWAL in Hnew.
  destruct (lru_NewLRU cap) as [cache|]; [|discriminate].
  injection Hnew as <-. split; [reflexivity|]. split; [reflexivity|].
  assert (Hnone : ∀ name, String.prefix (path +:+ "/") name = true →
                          files s !! name = None).
  { apply walk_files_nil. unfold walked in Hwalk. rewrite Hwal in Hwalk.
    exact Hwalk. }
  eexists. split.
  { apply (Open_nothing_below s path duration lowMark cache Hwal Hnone);
      apply Hf. }
  cbn [wal heap files WAL.segments WAL.lastIndex WAL.tail].
  split_and!; [reflexivity | | reflexivity | reflexivity].
  exists (length (heap s)),
    (Segment.mk (path +:+ "/00000000000000000001_END.wal") 1 0 []).
  split_and!; try reflexivity.
  by apply list_lookup_middle.
Qed.

Lemma C4_fresh_open_creates_index_1_witness :
  (NewWAL "/var/wal" 1000000000 2 8 = Ok sample_wal ∧
   wal sample_fresh = sample_wal ∧
   clean_root "/var/wal" = true ∧
   walked sample_fresh = [] ∧
   (∀ n, faults sample_fresh n = false)) ∧
  WAL.segments sample_wal = [] ∧ WAL.lastIndex sample_wal = 0 ∧
  ∃ s', Open sample_fresh = Some (None, s') ∧
    files s' =
      <["/var/wal" +:+ "/00000000000000000001_END.wal" := []]>
        (files sample_fresh) ∧
    (∃ p seg, WAL.segments (wal s') = [p] ∧ heap s' !! p = Some seg ∧
              Segment.index seg = 1 ∧ Segment.size seg = 0 ∧
              Segment.data seg = [] ∧
              Segment.path seg =
                "/var/wal" +:+ "/00000000000000000001_END.wal") ∧
    WAL.tail (wal s') =
      Some (mkFMMAP ("/var/wal" +:+ "/00000000000000000001_END.wal") false) ∧
    WAL.lastIndex (wal s') = 1.
Proof.
  assert (H1 : NewWAL "/var/wal" 1000000000 2 8 = Ok sample_wal)
    by reflexivity.
  assert (H2 : wal sample_fresh = sample_wal) by reflexivity.
  assert (H0 : clean_root "/var/wal" = true) by reflexivity.
  assert (H3 : walked sample_fresh = []) by (vm_compute; reflexivity).
  assert (H4 : ∀ n, faults sample_fresh n = false) by reflexivity.
  split; [auto|].
  exact (C4_fresh_open_creates_index_1 "/var/wal" 1000000000 2 8 sample_wal
           sample_fresh H1 H2 H0 H3 H4).
Defined.

(** Claim C4 as the spec states it fails on the sample directory: after
    [Open] there is no file [00000000000000000000_END.wal], the only
    segment has index 1 and [lastIndex] is 1, not 0. *)
Lemma C4_counterexample :
  NewWAL "/var/wal" 1000000000 2 8 = Ok (wal sample_fresh) ∧
  files sample_fresh = ∅ ∧
  Open sample_fresh = Some (None, sample_opened) ∧
  files sample_opened !! "/var/wal/00000000000000000000_END.wal" = None ∧
  map (seg_index sample_opened) (WAL.segments (wal sample_opened)) = [1] ∧
  WAL.lastIndex (wal sample_opened) = 1 ∧
  WAL.lastIndex (wal sample_opened) ≠ 0.
Proof.
  split_and!; try (vm_compute; reflexivity). discriminate.
Qed.

(** ** Appending a batch *)

(** Claim C1. [Set] encodes each record of the batch, concatenates the
    encodings into one buffer and appends that buffer to the tail segment
    by a single call of [Update] (the tail being the segment that the
    rollover at the start of [Set] has made): after a [Set] that succeeds
    the data of the tail segment are the buffer, its size is the length of
    the buffer, and the buffer is appended to its file. In particular,
    after [Open] on a new WAL in a directory without files (a clean path
    that does not contain the mark [_END], in which the walk meets no
    file), [Set] of a batch of two records with keys and values of one
    byte leaves exactly
    [2 * (29 + 1 + 1) = 62] bytes in the file and in the data of the tail
    segment, and decoding them returns both entries in order. *)
Theorem C1_Set_appends_one_buffer :
  (∀ ts s s',
     Set' (pointers ts) s = Some (None, s') →
     ∃ tail s1 seg,
       newSegment s = Some (Ok tail, s1) ∧
       Update (concat (map encode (stamp (clock s) (ticks s1) ts))) tail
         (ticked (length ts) s1) = Some (None, s') ∧
       last (WAL.segments (wal s')) = Some tail ∧
       heap s1 !! tail =
         Some (Segment.mk (Segment.path seg) (Segment.index seg) 0 []) ∧
       heap s' !! tail = Some seg ∧
       Segment.data seg =
         concat (map encode (stamp (clock s) (ticks s1) ts)) ∧
       Segment.size seg =
         int64 (Z.of_nat (length
           (concat (map encode (stamp (clock s) (ticks s1) ts))))) ∧
       WAL.tail (wal s') = Some (mkFMMAP (Segment.path seg) false) ∧
       files s' =
         alter (λ old,
                  old ++ concat (map encode (stamp (clock s) (ticks s1) ts)))
           (Segment.path seg) (files s1) ∧
       (∀ q, q ≠ tail → heap s' !! q = heap s1 !! q)) ∧
  (∀ path duration lowMark cap w s0 s1 k1 k2 v1 v2 d1 d2,
     NewWAL path duration lowMark cap = Ok w → wal s0 = w →
     clean_root path = true → walked s0 = [] →
     Replace path END_EXT EmptyString = path →
     (∀ n, faults s0 n = false) →
     Open s0 = Some (None, s1) →
     ∃ s2 tail seg content t1 t2,
       Set' (pointers [mkT (String k1 EmptyString) [v1] d1;
                       mkT (String k2 EmptyString) [v2] d2]) s1 =
         Some (None, s2) ∧
       last (WAL.segments (wal s2)) = Some tail ∧
       heap s2 !! tail = Some seg ∧
       WAL.tail (wal s2) = Some (mkFMMAP (Segment.path seg) false) ∧
       files s2 !! Segment.path seg = Some content ∧
       Segment.data seg = content ∧
       Segment.size seg = 62 ∧
       length content = 62%nat ∧
       convert (full content) =
         Some [mkEntry (CRC32 (string_of_list_byte [v1])) t1 d1
                 (String k1 EmptyString) [v1];
               mkEntry (CRC32 (string_of_list_byte [v2])) t2 d2
                 (String k2 EmptyString) [v2]]).
Proof.
  split.
  - intros ts s s' H.
    destruct (Set'_Ok _ _ _ H) as (s1 & Hn & Hu & Hwal & Hheap & Hfiles & _).
    pose proof (newSegment_Ok _ _ _ Hn) as (_ & Hheap1 & Hwal1 & _).
    fold (batch_bytes (clock s) (ticks s1) ts).
    set (data := batch_bytes (clock s) (ticks s1) ts) in *.
    set (temp := tail_file (WAL.path (wal s))
                   (int64 (WAL.lastIndex (wal s) + 1))) in *.
    exists (length (heap s)), s1,
      (Segment.Append
         (Segment.mk temp (int64 (WAL.lastIndex (wal s) + 1)) 0 [])
         data (int64 (Z.of_nat (length data)))).
    split_and!.
    + exact Hn.
    + exact Hu.
    + rewrite Hwal, Hwal1. cbn [WAL.segments]. apply last_snoc.
    + rewrite Hheap1. by apply list_lookup_middle.
    + rewrite Hheap. by apply list_lookup_middle.
    + reflexivity.
    + cbn [Segment.Append Segment.size]. change (0 + ?x) with x.
      apply int64_int64.
    + rewrite Hwal, Hwal1. reflexivity.
    + exact Hfiles.
    + intros q Hq. rewrite Hheap, Hheap1.
      destruct (Nat.lt_ge_cases q (length (heap s))).
      * rewrite !lookup_app_l by assumption. reflexivity.
      * rewrite !lookup_ge_None_2; [reflexivity| |];
          rewrite length_app; cbn [length]; lia.
  - intros path duration lowMark cap w s0 s1 k1 k2 v1 v2 d1 d2
      Hnew Hwal _ Hwalk _ Hf Hopen.
    unfold NewWAL in Hnew.
    destruct (lru_NewLRU cap) as [cache|]; [|discriminate].
    injection Hnew as <-.
    assert (Hnone : ∀ name, String.prefix (path +:+ "/") name = true →
                            files s0 !! name = None).
    { apply walk_files_nil. unfold walked in Hwalk. rewrite Hwal in Hwalk.
      exact Hwalk. }
    destruct (Set'_after_fresh_open s0 s1 path duration lowMark cache
                [mkT (String k1 EmptyString) [v1] d1;
                 mkT (String k2 EmptyString) [v2] d2]
                Hwal Hnone Hf Hopen)
      as (s2 & tail & seg & t0 & Hset & Hlast & Hseg & Htail & Hdata & Hsize &
          Hfile).
    assert (Hlen : length (batch_bytes (clock s0) t0
                     [mkT (String k1 EmptyString) [v1] d1;
                      mkT (String k2 EmptyString) [v2] d2]) = 62%nat).
    { unfold batch_bytes. cbn [stamp map concat].
      rewrite !length_app, !encode_length. reflexivity. }
    exists s2, tail, seg, (batch_bytes (clock s0) t0
      [mkT (String k1 EmptyString) [v1] d1; mkT (String k2 EmptyString) [v2] d2]),
      (uint64 (clock s0 t0)), (uint64 (clock s0 (S t0))).
    split_and!; try assumption.
    + rewrite Hsize, Hlen. reflexivity.
    + unfold batch_bytes, full. rewrite convert_encoded; [reflexivity|].
      cbn [stamp map concat]. rewrite !length_app, !encode_length.
      cbn. unfold max_int. lia.
Qed.

Lemma C1_Set_appends_one_buffer_witness :
  let batch := [mkT "a" [x31] false; mkT "b" [x32] true] in
  let s' := state_after (Set' (pointers batch)) sample_opened in
  (Set' (pointers batch) sample_opened = Some (None, s') ∧
   NewWAL "/var/wal" 1000000000 2 8 = Ok sample_wal ∧
   wal sample_fresh = sample_wal ∧
   clean_root "/var/wal" = true ∧
   walked sample_fresh = [] ∧
   Replace "/var/wal" END_EXT EmptyString = "/var/wal" ∧
   (∀ n, faults sample_fresh n = false) ∧
   Open sample_fresh = Some (None, sample_opened)) ∧
  (∃ tail s1 seg,
     newSegment sample_opened = Some (Ok tail, s1) ∧
     Update (concat (map encode (stamp (clock sample_opened) (ticks s1) batch)))
       tail (ticked (length batch) s1) = Some (None, s') ∧
     last (WAL.segments (wal s')) = Some tail ∧
     heap s1 !! tail =
       Some (Segment.mk (Segment.path seg) (Segment.index seg) 0 []) ∧
     heap s' !! tail = Some seg ∧
     Segment.data seg =
       concat (map encode (stamp (clock sample_opened) (ticks s1) batch)) ∧
     Segment.size seg =
       int64 (Z.of_nat (length
         (concat (map encode (stamp (clock sample_opened) (ticks s1) batch))))) ∧
     WAL.tail (wal s') = Some (mkFMMAP (Segment.path seg) false) ∧
     files s' =
       alter (λ old,
                old ++ concat (map encode
                                 (stamp (clock sample_opened) (ticks s1) batch)))
         (Segment.path seg) (files s1) ∧
     (∀ q, q ≠ tail → heap s' !! q = heap s1 !! q)) ∧
  (∃ s2 tail seg content t1 t2,
     Set' (pointers [mkT (String "a" EmptyString) [x31] false;
                     mkT (String "b" EmptyString) [x32] true])
       sample_opened = Some (None, s2) ∧
     last (WAL.segments (wal s2)) = Some tail ∧
     heap s2 !! tail = Some seg ∧
     WAL.tail (wal s2) = Some (mkFMMAP (Segment.path seg) false) ∧
     files s2 !! Segment.path seg = Some content ∧
     Segment.data seg = content ∧
     Segment.size seg = 62 ∧
     length content = 62%nat ∧
     convert (full content) =
       Some [mkEntry (CRC32 (string_of_list_byte [x31])) t1 false
               (String "a" EmptyString) [x31];
             mkEntry (CRC32 (string_of_list_byte [x32])) t2 true
               (String "b" EmptyString) [x32]]).
Proof.
  intros batch s'.
  assert (H0 : Set' (pointers batch) sample_opened = Some (None, s'))
    by (vm_compute; reflexivity).
  assert (H1 : NewWAL "/var/wal" 1000000000 2 8 = Ok sample_wal)
    by reflexivity.
  assert (H2 : wal sample_fresh = sample_wal) by reflexivity.
  assert (H2' : clean_root "/var/wal" = true) by reflexivity.
  assert (H3 : walked sample_fresh = []) by (vm_compute; reflexivity).
  assert (H3' : Replace "/var/wal" END_EXT EmptyString = "/var/wal")
    by (vm_compute; reflexivity).
  assert (H4 : ∀ n, faults sample_fresh n = false) by reflexivity.
  assert (H5 : Open sample_fresh = Some (None, sample_opened))
    by (vm_compute; reflexivity).
  split; [split_and!; assumption|].
  split.
  - exact (proj1 C1_Set_appends_one_buffer batch sample_opened _ H0).
  - exact (proj2 C1_Set_appends_one_buffer "/var/wal" 1000000000 2 8
             sample_wal sample_fresh sample_opened "a"%char "b"%char x31 x32
             false true H1 H2 H2' H3 H3' H4 H5).
Defined.

(** ** Reading the tail *)

(** Claim C6, as the code has it. For every index at or above [lastIndex],
    when the segment with the index [lastIndex] is among the strictly
    sorted segments and its file can be opened, [Read] returns the bytes of
    that file without error and leaves the WAL and its segments as they
    were; no segment is created. (When no segment has the index
    [lastIndex], [getLastSegment] rolls over instead.) *)
Theorem C6_Read_tail_when_present (s : Sys) (index : Z) (k p : nat)
    (seg : Segment.t) :
  WAL.lastIndex (wal s) <= index →
  live s → increasing (indices s) →
  WAL.segments (wal s) !! k = Some p → heap s !! p = Some seg →
  Segment.index seg = WAL.lastIndex (wal s) →
  faults s (ticks s) = false →
  ∃ s', Read index s =
          Some (Ok (full (default [] (files s !! Segment.path seg))), s') ∧
        wal s' = wal s ∧ heap s' = heap s ∧
        (is_Some (files s !! Segment.path seg) → files s' = files s).
Proof.
  intros Hidx Hlive Hinc Hp Hseg Htail Hf.
  unfold Read. mrun.
  replace (WAL.lastIndex (wal s) <=? index) with true
    by (symmetry; apply Z.leb_le; exact Hidx).
  mrun. rewrite (getLastSegment_finds s k p seg) by assumption. mrun.
  rewrite (getSegmentData_run s p seg Hseg Hf).
  eexists. split; [reflexivity|]. cbn [wal heap files].
  split_and!; try reflexivity.
  intros [c Hc]. unfold created. rewrite Hc. reflexivity.
Qed.

Lemma C6_Read_tail_when_present_witness :
  (WAL.lastIndex (wal sample_opened) <= 7 ∧
   live sample_opened ∧ increasing (indices sample_opened) ∧
   WAL.segments (wal sample_opened) !! 0%nat = Some 0%nat ∧
   heap sample_opened !! 0%nat = Some (Segment.mk sample_tail 1 0 []) ∧
   Segment.index (Segment.mk sample_tail 1 0 []) =
     WAL.lastIndex (wal sample_opened) ∧
   faults sample_opened (ticks sample_opened) = false) ∧
  ∃ s', Read 7 sample_opened =
          Some (Ok (full (default []
                  (files sample_opened
                     !! Segment.path (Segment.mk sample_tail 1 0 [])))), s') ∧
        wal s' = wal sample_opened ∧ heap s' = heap sample_opened ∧
        (is_Some (files sample_opened
                    !! Segment.path (Segment.mk sample_tail 1 0 [])) →
         files s' = files sample_opened).
Proof.
  assert (H1 : WAL.lastIndex (wal sample_opened) <= 7)
    by (vm_compute; discriminate).
  assert (H2 : live sample_opened).
  { unfold live. simpl. repeat constructor. eexists. reflexivity. }
  assert (H3 : increasing (indices sample_opened)).
  { intros [|i] [|j] a b Hij Ha Hb; simpl in *; try lia; discriminate. }
  assert (H4 : WAL.segments (wal sample_opened) !! 0%nat = Some 0%nat)
    by reflexivity.
  assert (H5 : heap sample_opened !! 0%nat =
               Some (Segment.mk sample_tail 1 0 [])) by reflexivity.
  assert (H6 : Segment.index (Segment.mk sample_tail 1 0 []) =
               WAL.lastIndex (wal sample_opened)) by reflexivity.
  assert (H7 : faults sample_opened (ticks sample_opened) = false)
    by reflexivity.
  split; [split_and!; assumption|].
  exact (C6_Read_tail_when_present sample_opened 7 0%nat 0%nat
           (Segment.mk sample_tail 1 0 []) H1 H2 H3 H4 H5 H6 H7).
Defined.

(** Claim C6 as the spec states it fails when no segment has the index
    [lastIndex]. On a WAL that was not opened, [Read(0)] with
    [lastIndex = 0] finds no tail among the segments, rolls over, and leaves
    a WAL with a new segment of index 1 and a new tail file. After a sweep
    with the low mark 1 has removed the segments 2 and 3, the tail among
    them, [Read(3)] with [lastIndex = 3] rolls over as well, and returns
    the error of the renaming of the tail file that is gone. *)
Lemma C6_counterexample :
  (WAL.lastIndex (wal sample_fresh) <= 0 ∧
   WAL.segments (wal sample_fresh) = [] ∧
   Read 0 sample_fresh =
     Some (Ok (full []), state_after (Read 0) sample_fresh) ∧
   indices (state_after (Read 0) sample_fresh) = [1] ∧
   WAL.lastIndex (wal (state_after (Read 0) sample_fresh)) = 1 ∧
   files (state_after (Read 0) sample_fresh) !! sample_tail = Some [] ∧
   wal (state_after (Read 0) sample_fresh) ≠ wal sample_fresh) ∧
  (indices (state_after cleanLog (sample_sweep 1 (λ _, false))) = [1] ∧
   WAL.lastIndex (wal (state_after cleanLog (sample_sweep 1 (λ _, false)))) =
     3 ∧
   Read 3 (state_after cleanLog (sample_sweep 1 (λ _, false))) =
     Some (Err (ErrOS "rename" "/var/wal/00000000000000000003_END.wal"),
           state_after (Read 3)
             (state_after cleanLog (sample_sweep 1 (λ _, false))))).
Proof.
  split.
  - split_and!; try (vm_compute; reflexivity); [|].
    + vm_compute. discriminate.
    + vm_compute. discriminate.
  - split_and!; vm_compute; reflexivity.
Qed.

(** ** The order of the segments *)




(** ** The sweep on a sample *)

Lemma C8_sweep_keeps_first_lowMark_witness :
  let s := sample_sweep 1 (λ _, false) in
  (0 <= WAL.lowMark (wal s) ∧ live s ∧
   NoDup (map (seg_path s) (drop (kept s) (WAL.segments (wal s)))) ∧
   (∀ p, p ∈ drop (kept s) (WAL.segments (wal s)) →
         is_Some (files s !! seg_path s p)) ∧
   (∀ m, (ticks s <= m < ticks s + (length (WAL.segments (wal s)) - kept s))%nat →
         faults s m = false)) ∧
  ∃ s', cleanLog s = Some (tt, s') ∧
    console s' = console s ∧
    WAL.segments (wal s') = take (kept s) (WAL.segments (wal s)) ∧
    heap s' = heap s ∧
    files s' = foldr delete (files s)
                 (map (seg_path s) (drop (kept s) (WAL.segments (wal s)))) ∧
    ∀ i p, WAL.lowMark (wal s) <= Z.of_nat i →
           WAL.segments (wal s) !! i = Some p →
           files s' !! seg_path s p = None.
Proof.
  intros s.
  assert (H1 : 0 <= WAL.lowMark (wal s)) by (simpl; lia).
  assert (H2 : live s).
  { unfold live. simpl. repeat constructor; eexists; reflexivity. }
  assert (H3 : NoDup (map (seg_path s)
                        (drop (kept s) (WAL.segments (wal s))))).
  { change (NoDup ["/var/wal/00000000000000000002.wal";
                   "/var/wal/00000000000000000003_END.wal"]).
    apply NoDup_cons. split.
    - intros H. apply list_elem_of_singleton in H. discriminate.
    - apply NoDup_singleton. }
  assert (H4 : ∀ p, p ∈ drop (kept s) (WAL.segments (wal s)) →
                    is_Some (files s !! seg_path s p)).
  { intros p Hp. change (p ∈ [1%nat; 2%nat]) in Hp.
    apply elem_of_cons in Hp as [->|Hp];
      [|apply list_elem_of_singleton in Hp as ->];
      exists []; vm_compute; reflexivity. }
  assert (H5 : ∀ m, (ticks s <= m <
                     ticks s + (length (WAL.segments (wal s)) - kept s))%nat →
                    faults s m = false) by reflexivity.
  exact (conj (conj H1 (conj H2 (conj H3 (conj H4 H5))))
           (C8_sweep_keeps_first_lowMark s H1 H2 H3 H4 H5)).
Defined.

(** Claim C8 as the spec states it fails for a low mark below zero, which
    [NewWAL] accepts: with the low mark -1, three segments whose files are
    there and an operating system that does not fail, the sweep removes
    the three files and then reads [segments[-1]], a panic; it never
    returns with the first [min(lowMark, length)] segments. *)
Lemma C8_counterexample :
  let s := sample_sweep (-1) (λ _, false) in
  NewWAL "/var/wal" 1000000000 (-1) 8 =
    Ok (WAL.mk "/var/wal" [] None 1000000000 (-1) 0 (mkLRU 8 [])) ∧
  WAL.lowMark (wal s) = -1 ∧
  live s ∧
  (∀ p, p ∈ WAL.segments (wal s) → is_Some (files s !! seg_path s p)) ∧
  (∀ m, faults s m = false) ∧
  cleanLog s = None.
Proof.
  intros s. split_and!.
  - reflexivity.
  - reflexivity.
  - unfold live. simpl. repeat constructor; eexists; reflexivity.
  - intros p Hp. change (p ∈ [0%nat; 1%nat; 2%nat]) in Hp.
    repeat (apply elem_of_cons in Hp as [->|Hp];
            [exists []; vm_compute; reflexivity|]).
    by apply elem_of_nil in Hp.
  - reflexivity.
  - vm_compute. reflexivity.
Qed.



(** ** What the decoder does with a damaged stream *)

(** Claim C3, as the code has it. The decoder has no error result and
    compares no checksum. On a stream of complete records it returns one
    entry per record with the CRC field as it is stored, whatever the
    CRC-32 of the value is. When the stream ends with fewer than 29 bytes
    at the start of a record, or with fewer bytes than the key and value
    sizes of the header ask for, in a slice without spare capacity, a slice
    expression panics. [ReadConverted] returns an error only when [Read]
    does, and then that error. *)
Theorem C3_decoder_checks_nothing :
  (∀ recs room,
     slice_cap (Slice (concat (map Raw_bytes recs)) room) <= max_int →
     convert (Slice (concat (map Raw_bytes recs)) room) =
       Some (map Raw_entry recs)) ∧
  (∀ recs rest,
     Z.of_nat (length (concat (map Raw_bytes recs) ++ rest)) <= max_int →
     rest ≠ [] → (length rest < 29)%nat →
     convert (full (concat (map Raw_bytes recs) ++ rest)) = None) ∧
  (∀ recs crc ts tomb ks vs payload,
     Z.of_nat (length (concat (map Raw_bytes recs) ++
                       raw_header crc ts tomb ks vs ++ payload)) <= max_int →
     0 <= ks < 2 ^ 64 → 0 <= vs < 2 ^ 64 →
     Z.of_nat (length payload) < ks + vs →
     convert (full (concat (map Raw_bytes recs) ++
                    raw_header crc ts tomb ks vs ++ payload)) = None) ∧
  (∀ index s e s',
     ReadConverted index s = Some (Err e, s') →
     Read index s = Some (Err e, s')).
Proof.
  split_and!.
  - apply convert_records.
  - apply convert_short_header.
  - apply convert_short_payload.
  - apply ReadConverted_Err.
Qed.

Lemma C3_decoder_checks_nothing_witness :
  (slice_cap (Slice (concat (map Raw_bytes [mkRaw 0 5 x00 [x6b] [x76]]))
                [x00]) <= max_int ∧
   (Z.of_nat (length (concat (map Raw_bytes [mkRaw 0 5 x00 [x6b] [x76]]) ++
                      [x00; x00; x00])) <= max_int ∧
    [x00; x00; x00] ≠ [] ∧ (length [x00; x00; x00] < 29)%nat) ∧
   (Z.of_nat (length (concat (map Raw_bytes []) ++
                      raw_header 0 5 x00 1 4 ++ [x6b; x76])) <= max_int ∧
    0 <= 1 < 2 ^ 64 ∧ 0 <= 4 < 2 ^ 64 ∧
    Z.of_nat (length [x6b; x76]) < 1 + 4) ∧
   ReadConverted 0 sample_opened =
     Some (Err ErrNoSegment, state_after (ReadConverted 0) sample_opened)) ∧
  convert (Slice (concat (map Raw_bytes [mkRaw 0 5 x00 [x6b] [x76]])) [x00]) =
    Some (map Raw_entry [mkRaw 0 5 x00 [x6b] [x76]]) ∧
  convert (full (concat (map Raw_bytes [mkRaw 0 5 x00 [x6b] [x76]]) ++
                 [x00; x00; x00])) = None ∧
  convert (full (concat (map Raw_bytes []) ++
                 raw_header 0 5 x00 1 4 ++ [x6b; x76])) = None ∧
  Read 0 sample_opened =
    Some (Err ErrNoSegment, state_after (ReadConverted 0) sample_opened).
Proof.
  assert (A : slice_cap (Slice (concat (map Raw_bytes
                                  [mkRaw 0 5 x00 [x6b] [x76]])) [x00])
              <= max_int) by (vm_compute; discriminate).
  assert (B1 : Z.of_nat (length (concat (map Raw_bytes
                                   [mkRaw 0 5 x00 [x6b] [x76]]) ++
                                 [x00; x00; x00])) <= max_int)
    by (vm_compute; discriminate).
  assert (B2 : [x00; x00; x00] ≠ ([] : list byte)) by discriminate.
  assert (B3 : (length [x00; x00; x00] < 29)%nat) by (simpl; lia).
  assert (C1 : Z.of_nat (length (concat (map Raw_bytes []) ++
                                 raw_header 0 5 x00 1 4 ++ [x6b; x76]))
               <= max_int) by (vm_compute; discriminate).
  assert (C2 : 0 <= 1 < 2 ^ 64) by lia.
  assert (C3 : 0 <= 4 < 2 ^ 64) by lia.
  assert (C4 : Z.of_nat (length [x6b; x76]) < 1 + 4) by (simpl; lia).
  assert (D : ReadConverted 0 sample_opened =
              Some (Err ErrNoSegment,
                    state_after (ReadConverted 0) sample_opened))
    by (vm_compute; reflexivity).
  refine (conj (conj A (conj (conj B1 (conj B2 B3))
                          (conj (conj C1 (conj C2 (conj C3 C4))) D)))
            (conj _ (conj _ (conj _ _)))).
  - exact (proj1 C3_decoder_checks_nothing _ _ A).
  - exact (proj1 (proj2 C3_decoder_checks_nothing) _ _ B1 B2 B3).
  - exact (proj1 (proj2 (proj2 C3_decoder_checks_nothing))
             [] 0 5 x00 1 4 [x6b; x76] C1 C2 C3 C4).
  - exact (proj2 (proj2 (proj2 C3_decoder_checks_nothing)) _ _ _ _ D).
Defined.

(** Claim C3 as the spec states it fails on both counts. A complete record
    whose CRC field is 0 and whose value is the byte [v], with the CRC-32
    [0x6B643B84], decodes without any failure to an entry with the CRC 0;
    and a stream of three bytes, fewer than a header, makes the decoder
    panic at a slice expression: [convert] has no error to return. *)
Lemma C3_counterexample :
  convert (full (Raw_bytes (mkRaw 0 5 x00 [x6b] [x76]))) =
    Some [mkEntry 0 5 false "k" [x76]] ∧
  CRC32 (string_of_list_byte [x76]) = 0x6B643B84 ∧
  Crc (mkEntry 0 5 false "k" [x76]) ≠ CRC32 (string_of_list_byte [x76]) ∧
  convert (full [x00; x00; x00]) = None.
Proof.
  split_and!.
  - pose proof (convert_records [mkRaw 0 5 x00 [x6b] [x76]] []) as H.
    cbn [map concat] in H. rewrite app_nil_r in H. unfold full.
    rewrite H by (vm_compute; discriminate). vm_compute. reflexivity.
  - vm_compute. reflexivity.
  - vm_compute. discriminate.
  - apply (convert_short_header [] [x00; x00; x00]).
    + vm_compute. discriminate.
    + discriminate.
    + simpl. lia.
Qed.

(** * Further properties *)

Section number_facts.

Lemma digit_of_N (n : N) :
  (n < 10)%N → digit (ascii_of_N (48 + n)) = Some (Z.of_N n).
Proof.
  intros H.
  assert (n = 0 ∨ n = 1 ∨ n = 2 ∨ n = 3 ∨ n = 4 ∨ n = 5 ∨ n = 6 ∨ n = 7 ∨
          n = 8 ∨ n = 9)%N as Hn by lia.
  repeat destruct Hn as [->|Hn]; try subst n; reflexivity.
Qed.

Lemma digit_not_sign (n : N) :
  (n < 10)%N →
  Ascii.eqb (ascii_of_N (48 + n)) "+" = false ∧
  Ascii.eqb (ascii_of_N (48 + n)) "-" = false.
Proof.
  intros H.
  assert (n = 0 ∨ n = 1 ∨ n = 2 ∨ n = 3 ∨ n = 4 ∨ n = 5 ∨ n = 6 ∨ n = 7 ∨
          n = 8 ∨ n = 9)%N as Hn by lia.
  repeat destruct Hn as [->|Hn]; try subst n; split; reflexivity.
Qed.

Lemma ParseUint_loop_digit (n : N) (acc : string) (k : Z) :
  (n < 10)%N → 0 <= k → k * 10 + Z.of_N n <= maxUint64 →
  ParseUint_loop (String (ascii_of_N (48 + n)) acc) k =
  ParseUint_loop acc (k * 10 + Z.of_N n).
Proof.
  intros Hn Hk Hmax. cbn [ParseUint_loop]. rewrite (digit_of_N n Hn).
  unfold maxUint64 in *.
  replace (2 ^ 64 - 1) with 18446744073709551615 in * by reflexivity.
  change (18446744073709551615 / 10 + 1) with 1844674407370955162.
  destruct (1844674407370955162 <=? k) eqn:E1; [apply Z.leb_le in E1; lia|].
  destruct (18446744073709551615 <? k * 10 + Z.of_N n) eqn:E2;
    [apply Z.ltb_lt in E2; lia|].
  reflexivity.
Qed.

Lemma digits_step_arith (n a b P M : Z) :
  n = a * 10 + b → 0 <= a → 0 <= b < 10 → n < 2 * P → 0 < P → n <= M →
  a < P ∧ a <= M ∧ a * 10 + b <= M.
Proof. lia. Qed.

(** Parsing the digits that [digits] writes gives the number back. *)
Lemma digits_parse (f : nat) : ∀ (n : N) (acc : string),
  Z.of_N n < 2 ^ Z.of_nat f → Z.of_N n <= maxUint64 →
  ParseUint_loop (digits f n acc) 0 = ParseUint_loop acc (Z.of_N n).
Proof.
  induction f as [|f IH]; intros n acc Hf Hmax.
  - change (2 ^ Z.of_nat 0) with 1 in Hf.
    assert (n = 0%N) as -> by lia. reflexivity.
  - cbn [digits]. destruct (n <? 10)%N eqn:E.
    + apply N.ltb_lt in E. rewrite N.mod_small by exact E.
      rewrite ParseUint_loop_digit; [f_equal|exact E|clear; lia|exact Hmax].
    + apply N.ltb_ge in E.
      assert (Hpow : 2 ^ Z.of_nat (S f) = 2 * 2 ^ Z.of_nat f).
      { rewrite Nat2Z.inj_succ, Z.pow_succ_r by lia. reflexivity. }
      assert (Hdm : Z.of_N n = Z.of_N (n / 10) * 10 + Z.of_N (n mod 10)).
      { rewrite N2Z.inj_div, N2Z.inj_mod. change (Z.of_N 10) with 10.
        pose proof (Z.div_mod (Z.of_N n) 10). lia. }
      assert (Hm : (n mod 10 < 10)%N) by (apply N.mod_lt; lia).
      destruct (digits_step_arith (Z.of_N n) (Z.of_N (n / 10))
                  (Z.of_N (n mod 10)) (2 ^ Z.of_nat f) maxUint64)
        as (H1 & H2 & H3); try assumption.
      { apply N2Z.is_nonneg. }
      { split; [apply N2Z.is_nonneg|]. clear -Hm. lia. }
      { rewrite <- Hpow. exact Hf. }
      { apply Z.pow_pos_nonneg; lia. }
      rewrite IH by assumption.
      rewrite ParseUint_loop_digit;
        [f_equal; symmetry; exact Hdm | exact Hm | apply N2Z.is_nonneg
        | exact H3].
Qed.

(** What [digits] writes starts with a digit when it writes anything. *)
Lemma digits_head (f : nat) : ∀ (n : N) (acc : string),
  (0 < f)%nat →
  ∃ d rest, (d < 10)%N ∧ digits f n acc = String (ascii_of_N (48 + d)) rest.
Proof.
  induction f as [|f IH]; intros n acc Hf; [lia|].
  cbn [digits]. destruct (n <? 10)%N.
  - exists (n mod 10)%N, acc. split; [apply N.mod_lt; lia|reflexivity].
  - destruct f as [|f].
    + exists (n mod 10)%N, acc. split; [apply N.mod_lt; lia|reflexivity].
    + apply IH. lia.
Qed.

Lemma Pos_size_bound (p : positive) :
  Z.pos p < 2 ^ Z.of_nat (Pos.to_nat (Pos.size p)).
Proof.
  rewrite positive_nat_Z.
  change 2 with (Z.pos 2). rewrite <- Pos2Z.inj_pow.
  apply Pos2Z.pos_lt_pos, Pos.size_gt.
Qed.

Lemma ParseUint_digits (p : positive) :
  Z.pos p <= maxUint64 →
  ParseUint (digits (Pos.to_nat (Pos.size p)) (Npos p) EmptyString) =
  inl (Z.pos p).
Proof.
  intros Hmax.
  destruct (digits_head (Pos.to_nat (Pos.size p)) (Npos p) EmptyString)
    as (d & rest & Hd & E); [lia|].
  unfold ParseUint. rewrite E, <- E.
  rewrite digits_parse; [reflexivity| |exact Hmax].
  apply Pos_size_bound.
Qed.

(** [strconv.ParseInt] reads back what [strconv.Itoa] writes. *)
Lemma ParseInt_Itoa (i : Z) :
  - 2 ^ 63 <= i <= max_int → ParseInt (Itoa i) = inl i.
Proof.
  intros Hi. unfold max_int in Hi. destruct i as [|p|p].
  - reflexivity.
  - unfold Itoa.
    destruct (digits_head (Pos.to_nat (Pos.size p)) (Npos p) EmptyString)
      as (d & rest & Hd & E); [lia|].
    destruct (digit_not_sign d Hd) as [Hplus Hminus].
    unfold ParseInt. rewrite E. rewrite Hplus, Hminus. cbn [orb negb andb].
    rewrite <- E, ParseUint_digits by (unfold maxUint64; lia).
    destruct (2 ^ 63 <=? Z.pos p) eqn:E1; [apply Z.leb_le in E1; lia|].
    reflexivity.
  - unfold Itoa, ParseInt.
    change (Ascii.eqb "-" "-") with true. change (Ascii.eqb "-" "+") with false.
    cbn [orb negb andb].
    rewrite ParseUint_digits by (unfold maxUint64; lia).
    destruct (2 ^ 63 <? Z.pos p) eqn:E1; [apply Z.ltb_lt in E1; lia|].
    reflexivity.
Qed.

End number_facts.

Section string_facts.

Local Open Scope nat_scope.

Lemma append_cons c (a b : string) : String c a +:+ b = String c (a +:+ b).
Proof. reflexivity. Qed.

Lemma append_nil (b : string) : EmptyString +:+ b = b.
Proof. reflexivity. Qed.

Lemma string_length_app (a b : string) :
  String.length (a +:+ b) = String.length a + String.length b.
Proof.
  induction a as [|c a IH]; [reflexivity|].
  rewrite append_cons. cbn [String.length]. rewrite IH. reflexivity.
Qed.

Lemma substring_all (s : string) : substring 0 (String.length s) s = s.
Proof. induction s as [|c s IH]; [reflexivity|]. simpl. by rewrite IH. Qed.

Lemma substring_nothing n (s : string) : substring n 0 s = EmptyString.
Proof.
  revert n. induction s as [|c s IH]; intros [|n]; try reflexivity.
  simpl. apply IH.
Qed.

Lemma substring_app_prefix (a b : string) :
  substring 0 (String.length a) (a +:+ b) = a.
Proof.
  induction a as [|c a IH].
  - apply substring_nothing.
  - rewrite append_cons. simpl. by rewrite IH.
Qed.

Lemma substring_app_skip (a b : string) n :
  substring (String.length a) n (a +:+ b) = substring 0 n b.
Proof.
  induction a as [|c a IH]; [reflexivity|].
  rewrite append_cons. simpl. exact IH.
Qed.

Lemma get_app_skip (a b : string) k :
  String.get (String.length a + k) (a +:+ b) = String.get k b.
Proof.
  induction a as [|c a IH]; [reflexivity|].
  rewrite append_cons. simpl. exact IH.
Qed.

(** A substring that starts in the first part and ends with the second. *)
Lemma substring_app_mid (a b : string) : ∀ n,
  n <= String.length a →
  substring n (String.length a - n + String.length b) (a +:+ b) =
  substring n (String.length a - n) a +:+ b.
Proof.
  induction a as [|c a IH]; intros n Hn.
  - simpl in Hn. assert (n = 0) as -> by lia. simpl.
    rewrite append_nil. destruct b; [reflexivity|].
    apply (substring_all (String _ _)).
  - destruct n as [|n].
    + rewrite append_cons. cbn [String.length]. rewrite Nat.sub_0_r.
      cbn [substring Nat.add]. rewrite append_cons. f_equal.
      specialize (IH 0 ltac:(lia)). rewrite Nat.sub_0_r in IH. exact IH.
    + rewrite append_cons. cbn [String.length substring Nat.sub].
      apply IH. simpl in Hn. lia.
Qed.

Lemma substring_zeros t : ∀ n k,
  substring n k (zeros t) = zeros (Nat.min k (t - n)).
Proof.
  induction t as [|t IH]; intros n k.
  - simpl. rewrite Nat.min_0_r. destruct n, k; reflexivity.
  - destruct n as [|n].
    + destruct k as [|k]; [reflexivity|].
      simpl. f_equal. rewrite IH. by rewrite Nat.sub_0_r.
    + simpl. apply IH.
Qed.

End string_facts.

Section name_facts.

Local Open Scope nat_scope.

Lemma FORMAT_NAME_zeros i : FORMAT_NAME i = zeros 20 +:+ Itoa i.
Proof. reflexivity. Qed.

(** [digits] writes at most as many characters as the number has decimal
    digits. *)
Lemma digits_length (f : nat) : ∀ (n : N) (acc : string) (k : nat),
  (Z.of_N n < 10 ^ Z.of_nat (S k))%Z →
  String.length (digits f n acc) <= S k + String.length acc.
Proof.
  induction f as [|f IH]; intros n acc k Hn; [simpl; lia|].
  cbn [digits]. destruct (n <? 10)%N eqn:E; [simpl; lia|].
  apply N.ltb_ge in E. destruct k as [|k].
  { change (10 ^ Z.of_nat 1)%Z with 10%Z in Hn. lia. }
  etransitivity; [apply (IH _ _ k)|simpl; lia].
  rewrite N2Z.inj_div. change (Z.of_N 10) with 10%Z.
  replace (10 ^ Z.of_nat (S (S k)))%Z with (10 * 10 ^ Z.of_nat (S k))%Z in Hn.
  2: { rewrite (Nat2Z.inj_succ (S k)), Z.pow_succ_r by lia. reflexivity. }
  apply Z.div_lt_upper_bound; lia.
Qed.

Lemma Itoa_length i :
  (0 <= i <= max_int)%Z → 1 <= String.length (Itoa i) <= 19.
Proof.
  intros Hi. unfold max_int in Hi. destruct i as [|p|p]; [simpl; lia| |lia].
  unfold Itoa. split.
  - destruct (digits_head (Pos.to_nat (Pos.size p)) (Npos p) EmptyString)
      as (d & rest & _ & E); [lia|].
    rewrite E. simpl. lia.
  - pose proof (digits_length (Pos.to_nat (Pos.size p)) (Npos p)
                  EmptyString 18) as H.
    simpl String.length in H. rewrite Nat.add_0_r in H. apply H.
    change (Z.of_N (N.pos p)) with (Z.pos p).
    change (10 ^ Z.of_nat 19)%Z with 10000000000000000000%Z. lia.
Qed.

(** The stem of a segment file: zeros, then the decimal index. *)
Lemma padded_zeros i :
  (0 <= i <= max_int)%Z →
  padded i = zeros (20 - String.length (Itoa i)) +:+ Itoa i.
Proof.
  intros Hi. pose proof (Itoa_length i Hi) as Hlen.
  unfold padded. rewrite FORMAT_NAME_zeros, string_length_app.
  change (String.length (zeros 20)) with 20.
  replace (20 + String.length (Itoa i) - 20) with (String.length (Itoa i))
    by lia.
  pose proof (substring_app_mid (zeros 20) (Itoa i) (String.length (Itoa i)))
    as H.
  change (String.length (zeros 20)) with 20 in H.
  replace (20 - String.length (Itoa i) + String.length (Itoa i)) with 20
    in H by lia.
  rewrite H by lia. rewrite substring_zeros. f_equal. f_equal. lia.
Qed.

Lemma ParseUint_loop_zeros k (s : string) :
  ParseUint_loop (zeros k +:+ s) 0 = ParseUint_loop s 0.
Proof. induction k as [|k IH]; [reflexivity|]. exact IH. Qed.

Lemma ParseUint_loop_Itoa i :
  (0 <= i <= maxUint64)%Z → ParseUint_loop (Itoa i) 0 = inl i.
Proof.
  intros Hi. destruct i as [|p|p]; [reflexivity| |lia].
  unfold Itoa. rewrite digits_parse; [reflexivity| |lia].
  apply Pos_size_bound.
Qed.

(** The index is read back from the stem. *)
Lemma ParseInt_padded i :
  (0 <= i <= max_int)%Z → ParseInt (padded i) = inl i.
Proof.
  intros Hi. pose proof (Itoa_length i Hi) as Hlen.
  rewrite (padded_zeros i Hi).
  destruct (20 - String.length (Itoa i)) as [|k] eqn:E; [lia|].
  change (zeros (S k) +:+ Itoa i) with (String "0" (zeros k +:+ Itoa i)).
  unfold ParseInt.
  change (Ascii.eqb "0" "-") with false. change (Ascii.eqb "0" "+") with false.
  cbn [orb negb andb]. unfold ParseUint.
  change (String "0" (zeros k +:+ Itoa i)) with (zeros (S k) +:+ Itoa i).
  rewrite ParseUint_loop_zeros, ParseUint_loop_Itoa.
  2: { unfold max_int, maxUint64 in *. lia. }
  unfold max_int in Hi.
  destruct (2 ^ 63 <=? i)%Z eqn:E1; [apply Z.leb_le in E1; lia|].
  reflexivity.
Qed.

Lemma all_digits_app (a b : string) :
  all_digits (a +:+ b) = all_digits a && all_digits b.
Proof.
  induction a as [|c a IH]; [reflexivity|].
  rewrite append_cons. simpl. destruct (digit c); [exact IH|reflexivity].
Qed.

Lemma all_digits_zeros k : all_digits (zeros k) = true.
Proof. induction k; [reflexivity|exact IHk]. Qed.

Lemma all_digits_digits (f : nat) : ∀ (n : N) (acc : string),
  all_digits (digits f n acc) = all_digits acc.
Proof.
  induction f as [|f IH]; intros n acc; [reflexivity|].
  cbn [digits].
  assert (Hd : all_digits (String (ascii_of_N (48 + n mod 10)) acc) =
               all_digits acc).
  { simpl. rewrite digit_of_N by (apply N.mod_lt; lia). reflexivity. }
  destruct (n <? 10)%N; [exact Hd|]. rewrite IH. exact Hd.
Qed.

Lemma all_digits_padded i :
  (0 <= i <= max_int)%Z → all_digits (padded i) = true.
Proof.
  intros Hi. rewrite (padded_zeros i Hi), all_digits_app, all_digits_zeros.
  destruct i as [|p|p]; [reflexivity| |lia].
  unfold Itoa. rewrite all_digits_digits. reflexivity.
Qed.

Lemma all_digits_substring (s : string) : ∀ n m,
  all_digits s = true → all_digits (substring n m s) = true.
Proof.
  induction s as [|c s IH]; intros n m H.
  - destruct n, m; reflexivity.
  - simpl in H. destruct (digit c) eqn:E; [|discriminate].
    destruct n as [|n].
    + destruct m as [|m]; [reflexivity|]. simpl. rewrite E. by apply IH.
    + simpl. by apply IH.
Qed.

(** A name of digits only does not carry the mark of the tail. *)
Lemma HasSuffix_digits (s : string) :
  all_digits s = true → HasSuffix s END_EXT = false.
Proof.
  intros H. unfold HasSuffix.
  destruct (String.length END_EXT <=? String.length s); [|reflexivity].
  cbn [andb]. apply String.eqb_neq. intros E.
  pose proof (all_digits_substring s
                (String.length s - String.length END_EXT)
                (String.length END_EXT) H) as Hs.
  rewrite E in Hs. discriminate.
Qed.

Lemma HasSuffix_app (a b : string) : HasSuffix (a +:+ b) b = true.
Proof.
  unfold HasSuffix. rewrite string_length_app.
  replace (String.length a + String.length b - String.length b)
    with (String.length a) by lia.
  rewrite substring_app_skip, substring_all, String.eqb_refl.
  rewrite andb_true_r. apply Nat.leb_le. lia.
Qed.

Lemma TrimSuffix_app (a b : string) : TrimSuffix (a +:+ b) b = a.
Proof.
  unfold TrimSuffix. rewrite HasSuffix_app, string_length_app.
  replace (String.length a + String.length b - String.length b)
    with (String.length a) by lia.
  apply substring_app_prefix.
Qed.

(** [filepath.Ext] of a name that ends in [.wal]. *)
Lemma Ext_wal (a : string) : Ext (a +:+ ".wal") = ".wal".
Proof.
  unfold Ext. rewrite string_length_app.
  change (String.length ".wal") with 4.
  replace (String.length a + 4) with (S (S (S (S (String.length a))))) by lia.
  cbn [Ext_loop].
  replace (S (S (S (String.length a)))) with (String.length a + 3) by lia.
  rewrite get_app_skip. cbn [String.get IsPathSeparator].
  change (Ascii.eqb "l" "/") with false. change (Ascii.eqb "l" ".") with false.
  cbv iota.
  replace (String.length a + 3) with (S (S (S (String.length a)))) by lia.
  cbn [Ext_loop].
  replace (S (S (String.length a))) with (String.length a + 2) by lia.
  rewrite get_app_skip. cbn [String.get IsPathSeparator].
  change (Ascii.eqb "a" "/") with false. change (Ascii.eqb "a" ".") with false.
  cbv iota.
  replace (String.length a + 2) with (S (S (String.length a))) by lia.
  cbn [Ext_loop].
  replace (S (String.length a)) with (String.length a + 1) by lia.
  rewrite get_app_skip. cbn [String.get IsPathSeparator].
  change (Ascii.eqb "w" "/") with false. change (Ascii.eqb "w" ".") with false.
  cbv iota.
  replace (String.length a + 1) with (S (String.length a)) by lia.
  cbn [Ext_loop].
  replace (String.get (String.length a) (a +:+ ".wal"))
    with (String.get (String.length a + 0) (a +:+ ".wal"))
    by (f_equal; lia).
  rewrite get_app_skip. cbn [String.get IsPathSeparator].
  change (Ascii.eqb "." "/") with false. change (Ascii.eqb "." ".") with true.
  cbv iota. rewrite string_length_app.
  replace (String.length a + String.length ".wal" - String.length a)
    with 4 by (simpl; lia).
  rewrite substring_app_skip. reflexivity.
Qed.

Lemma fileNameWithoutExtension_wal (a : string) :
  fileNameWithoutExtension (a +:+ ".wal") = a.
Proof. unfold fileNameWithoutExtension. rewrite Ext_wal. apply TrimSuffix_app. Qed.

End name_facts.

Section reopen_facts.

Lemma tail_file_padded dir i :
  tail_file dir i = (dir +:+ "/" +:+ padded i +:+ "_END") +:+ ".wal".
Proof.
  unfold tail_file, padded, Join. cbn [String.concat].
  rewrite !string_app_assoc. reflexivity.
Qed.

Lemma visit_tail_name dir i :
  0 <= i <= max_int →
  visit_index (tail_file dir i, padded i +:+ "_END.wal") = Some (Ok (i, true)).
Proof.
  intros Hi. unfold visit_index. cbn [fst snd].
  rewrite tail_file_padded, Ext_wal. cbn [String.eqb negb].
  change (padded i +:+ "_END.wal") with (padded i +:+ "_END" +:+ ".wal").
  rewrite <- string_app_assoc, fileNameWithoutExtension_wal.
  unfold END_EXT at 1. rewrite HasSuffix_app.
  unfold fileNameWithoutSuffix, END_EXT. rewrite TrimSuffix_app.
  unfold convertIndex. rewrite ParseInt_padded by exact Hi. reflexivity.
Qed.

Lemma visit_sealed_name dir i :
  0 <= i <= max_int →
  visit_index (dir +:+ "/" +:+ padded i +:+ ".wal", padded i +:+ ".wal") =
  Some (Ok (i, false)).
Proof.
  intros Hi. unfold visit_index. cbn [fst snd].
  rewrite <- !string_app_assoc, Ext_wal. cbn [String.eqb negb].
  rewrite fileNameWithoutExtension_wal.
  rewrite HasSuffix_digits by (apply all_digits_padded, Hi).
  unfold convertIndex. rewrite ParseInt_padded by exact Hi. reflexivity.
Qed.

End reopen_facts.

Section visit_facts.

(** [Open]'s function on a file whose name gives an index. *)
Lemma Open_visit_run e s i t content :
  visit_index e = Some (Ok (i, t)) →
  files s !! e.1 = Some content → faults s (ticks s) = false →
  Open_visit e.1 e.2 s =
  Some (None,
        mkSys
          (WAL.mk (WAL.path (wal s)) (WAL.segments (wal s) ++ [length (heap s)])
             (WAL.tail (wal s)) (WAL.d (wal s)) (WAL.lowMark (wal s))
             (if t then i else WAL.lastIndex (wal s)) (WAL.cache (wal s)))
          (heap s ++ [Segment.mk e.1 i (Z.of_nat (length content)) []])
          (files s) (console s) (S (ticks s)) (clock s) (faults s)).
Proof.
  intros Hv Hfile Hf. unfold visit_index in Hv.
  unfold Open_visit, os_Stat_Size, alloc, AppendSegment.
  destruct (negb (String.eqb (Ext e.1) ".wal")); [discriminate|].
  cbv zeta in Hv.
  destruct (HasSuffix (fileNameWithoutExtension e.2) END_EXT).
  - destruct (convertIndex _) as [j|err]; [|discriminate].
    injection Hv as <- <-. mrun. rewrite ?Hf. mrun. rewrite ?Hfile. mrun.
    reflexivity.
  - destruct (convertIndex _) as [j|err]; [|discriminate].
    injection Hv as <- <-. mrun. rewrite ?Hf. mrun. rewrite ?Hfile. mrun.
    destruct (wal s). reflexivity.
Qed.

End visit_facts.

Section total_facts.

Lemma newSegment_total s : is_Some (newSegment s).
Proof.
  unfold newSegment, TailPath, Close, os_Rename, open, fmmap_NewFile, alloc,
    AppendSegment.
  mrun. repeat mcaseg. all: eauto.
Qed.

Lemma Set'_total ts s : is_Some (Set' (pointers ts) s).
Proof.
  rewrite Set'_eq.
  destruct (newSegment_total s) as [[[p|e] s1] Hn]; rewrite Hn; [|eauto].
  pose proof (newSegment_Ok _ _ _ Hn) as (-> & Hheap & Hwal & _).
  erewrite Update_run.
  - destruct (closed _); [eauto|]. destruct (faults _ _); eauto.
  - cbn [wal ticked]. rewrite Hwal. reflexivity.
  - cbn [heap ticked]. rewrite Hheap. by apply list_lookup_middle.
Qed.

(** What a rollover that fails has done: no segment, no new index. Either
    the renaming of the previous tail failed, and the handle is closed; or
    the new tail could not be opened, and there is no handle. *)
Lemma newSegment_Err s e s' :
  newSegment s = Some (Err e, s') →
  heap s' = heap s ∧
  WAL.segments (wal s') = WAL.segments (wal s) ∧
  WAL.lastIndex (wal s') = WAL.lastIndex (wal s) ∧
  console s' = console s ∧
  ((∃ h, WAL.tail (wal s) = Some h ∧
         e = ErrOS "rename" (file_name h) ∧
         files s' = files s ∧
         WAL.tail (wal s') = Some (fmmap_Close h)) ∨
   (e = ErrOS "open" (tail_file (WAL.path (wal s))
                        (int64 (WAL.lastIndex (wal s) + 1))) ∧
    files s' = sealed_files s ∧
    WAL.tail (wal s') = None)).
Proof.
  unfold newSegment, TailPath, Close, os_Rename, open, fmmap_NewFile, alloc,
    AppendSegment, fmmap_Name.
  intros H. mstep. repeat mcase H.
  all: change (Join [Join [Join [WAL.path (wal s);
                  substring (String.length (FORMAT_NAME
                    (int64 (WAL.lastIndex (wal s) + 1))) - 20) 20
                    (FORMAT_NAME (int64 (WAL.lastIndex (wal s) + 1)))] "/";
                  END_EXT] EmptyString; WAL_EXT] ".")
         with (tail_file (WAL.path (wal s))
                 (int64 (WAL.lastIndex (wal s) + 1))) in *.
  all: injection H as <- <-.
  all: unfold sealed_files.
  all: cbn [wal heap files console ticks clock faults
            WAL.path WAL.segments WAL.tail WAL.d WAL.lowMark WAL.lastIndex
            WAL.cache WAL.set_segments WAL.set_tail WAL.set_lastIndex].
  all: mknown.
  all: split_and!; try reflexivity.
  all: first [ left; eexists; split_and!; reflexivity
             | right; split_and!; reflexivity ].
Qed.

(** What a [Set] that fails has done. *)
Lemma Set'_Err ts s e s' :
  Set' (pointers ts) s = Some (Some e, s') →
  (newSegment s = Some (Err e, s')) ∨
  (∃ s1, newSegment s = Some (Ok (length (heap s)), s1) ∧
         e = ErrOS "update" (tail_file (WAL.path (wal s))
                               (int64 (WAL.lastIndex (wal s) + 1))) ∧
         wal s' = wal s1 ∧ heap s' = heap s1 ∧ files s' = files s1 ∧
         console s' = console s1).
Proof.
  rewrite Set'_eq. intros H.
  destruct (newSegment s) as [[[p|e0] s1]|] eqn:Hn; [| |discriminate].
  - right. pose proof (newSegment_Ok _ _ _ Hn) as (-> & Hheap & Hwal & _).
    exists s1. split; [reflexivity|].
    erewrite Update_run in H.
    2: { cbn [wal ticked]. rewrite Hwal. reflexivity. }
    2: { cbn [heap ticked]. rewrite Hheap. by apply list_lookup_middle. }
    cbn [closed file_name] in H.
    destruct (faults _ _); [|discriminate].
    injection H as <- <-. split_and!; reflexivity.
  - left. injection H as <- <-. reflexivity.
Qed.

End total_facts.

Section read_back_facts.

Lemma batch_bytes_length clock ts : ∀ t,
  length (batch_bytes clock t ts) = batch_size ts.
Proof.
  unfold batch_bytes, batch_size.
  induction ts as [|x ts IH]; intros t; [reflexivity|].
  cbn [stamp map concat sum_list sum_list_with]. rewrite length_app, encode_length, IH.
  reflexivity.
Qed.

Lemma sealed_files_absent s name :
  files s !! name = None →
  (∀ h, WAL.tail (wal s) = Some h →
        Replace (file_name h) END_EXT EmptyString ≠ name) →
  sealed_files s !! name = None.
Proof.
  intros Hname Hseal. unfold sealed_files.
  destruct (WAL.tail (wal s)) as [h|]; [|exact Hname].
  destruct (files s !! file_name h); [|exact Hname].
  rewrite lookup_insert_ne by (apply Hseal; reflexivity).
  apply lookup_delete_None. right. exact Hname.
Qed.

(** The state that a [Set] leaves, as the later reads see it. *)
Lemma Set'_tail_state ts s s' :
  Set' (pointers ts) s = Some (None, s') → live s →
  files s !! tail_file (WAL.path (wal s)) (int64 (WAL.lastIndex (wal s) + 1))
    = None →
  (∀ h, WAL.tail (wal s) = Some h →
        Replace (file_name h) END_EXT EmptyString ≠
        tail_file (WAL.path (wal s)) (int64 (WAL.lastIndex (wal s) + 1))) →
  ∃ t0 seg,
    live s' ∧
    indices s' = indices s ++ [int64 (WAL.lastIndex (wal s) + 1)] ∧
    WAL.lastIndex (wal s') = int64 (WAL.lastIndex (wal s) + 1) ∧
    WAL.segments (wal s') !! length (WAL.segments (wal s)) =
      Some (length (heap s)) ∧
    heap s' !! length (heap s) = Some seg ∧
    Segment.index seg = int64 (WAL.lastIndex (wal s) + 1) ∧
    Segment.data seg = batch_bytes (clock s) t0 ts ∧
    files s' !! Segment.path seg = Some (batch_bytes (clock s) t0 ts).
Proof.
  intros H Hlive Hname Hseal.
  destruct (Set'_Ok _ _ _ H) as (s1 & Hn & _ & Hwal & Hheap & Hfiles & _).
  pose proof (newSegment_Ok _ _ _ Hn) as (_ & _ & Hwal1 & Hfiles1 & _).
  destruct (newSegment_indices _ _ _ Hlive Hn) as [Hi1 Hlive1].
  set (temp := tail_file (WAL.path (wal s))
                 (int64 (WAL.lastIndex (wal s) + 1))) in *.
  set (B := batch_bytes (clock s) (ticks s1) ts) in *.
  assert (Hseg : heap s' !! length (heap s) =
                 Some (Segment.Append
                         (Segment.mk temp (int64 (WAL.lastIndex (wal s) + 1))
                            0 []) B (int64 (Z.of_nat (length B)))))
    by (rewrite Hheap; by apply list_lookup_middle).
  exists (ticks s1), (Segment.Append
                         (Segment.mk temp (int64 (WAL.lastIndex (wal s) + 1))
                            0 []) B (int64 (Z.of_nat (length B)))).
  assert (Hsegs : WAL.segments (wal s') =
                  WAL.segments (wal s) ++ [length (heap s)])
    by (rewrite Hwal, Hwal1; reflexivity).
  split_and!.
  - unfold live. rewrite Hsegs. apply Forall_app. split.
    + eapply Forall_impl; [exact Hlive|]. intros q [x Hq].
      rewrite Hheap. exists x. by apply lookup_app_l_Some.
    + constructor; [|constructor]. rewrite Hseg. eauto.
  - unfold indices. rewrite Hsegs, map_app. f_equal.
    + apply seg_index_keep; [exact Hlive|].
      intros q x Hq. rewrite Hheap. by apply heap_app_keep.
    + simpl. unfold seg_index. rewrite Hseg. reflexivity.
  - rewrite Hwal, Hwal1. reflexivity.
  - rewrite Hsegs. by apply list_lookup_middle.
  - exact Hseg.
  - reflexivity.
  - reflexivity.
  - cbn [Segment.Append Segment.path]. rewrite Hfiles, Hfiles1.
    unfold created. rewrite (sealed_files_absent s temp Hname Hseal).
    rewrite lookup_alter_eq, lookup_insert_eq. reflexivity.
Qed.

(** [ReadConverted] at or above [lastIndex] when the tail is in place. *)
Lemma ReadConverted_tail s index k p seg rs :
  WAL.lastIndex (wal s) <= index →
  live s → increasing (indices s) →
  WAL.segments (wal s) !! k = Some p → heap s !! p = Some seg →
  Segment.index seg = WAL.lastIndex (wal s) →
  faults s (ticks s) = false →
  files s !! Segment.path seg = Some (concat (map encode rs)) →
  Z.of_nat (length (concat (map encode rs))) <= max_int →
  ReadConverted index s =
  Some (Ok (map expected_entry rs),
        mkSys (wal s) (heap s) (files s) (console s) (S (ticks s)) (clock s)
          (faults s)).
Proof.
  intros Hidx Hlive Hinc Hp Hseg Htail Hf Hfile Hlen.
  unfold ReadConverted, Read. mrun.
  replace (WAL.lastIndex (wal s) <=? index) with true
    by (symmetry; apply Z.leb_le; exact Hidx).
  mrun. rewrite (getLastSegment_finds s k p seg) by assumption. mrun.
  rewrite (getSegmentData_run s p seg Hseg Hf). mrun.
  rewrite Hfile. cbn [default]. unfold full, id.
  rewrite convert_encoded by (rewrite Nat.add_0_r; exact Hlen).
  unfold created. rewrite Hfile. reflexivity.
Qed.

(** Writing a batch and reading it back. *)
Lemma Set'_read_back ts s s' index :
  Set' (pointers ts) s = Some (None, s') →
  live s → ordered s →
  - 2 ^ 63 <= WAL.lastIndex (wal s) < max_int →
  files s !! tail_file (WAL.path (wal s)) (WAL.lastIndex (wal s) + 1) = None →
  (∀ h, WAL.tail (wal s) = Some h →
        Replace (file_name h) END_EXT EmptyString ≠
        tail_file (WAL.path (wal s)) (WAL.lastIndex (wal s) + 1)) →
  Z.of_nat (batch_size ts) <= max_int →
  faults s' (ticks s') = false →
  WAL.lastIndex (wal s') <= index →
  ∃ t0,
    ReadConverted index s' =
    Some (Ok (map expected_entry (stamp (clock s) t0 ts)),
          mkSys (wal s') (heap s') (files s') (console s') (S (ticks s'))
            (clock s') (faults s')).
Proof.
  intros H Hlive [Hinc Hall] Hrange Hname Hseal Hsize Hf Hidx.
  assert (E : int64 (WAL.lastIndex (wal s) + 1) = WAL.lastIndex (wal s) + 1)
    by (apply int64_small; unfold max_int in *; lia).
  rewrite <- E in Hname, Hseal.
  destruct (Set'_tail_state ts s s' H Hlive Hname Hseal)
    as (t0 & seg & Hlive' & Hi & Hl & Hk & Hseg & Hindex & _ & Hfile).
  exists t0.
  apply (ReadConverted_tail s' index (length (WAL.segments (wal s)))
           (length (heap s)) seg); try assumption.
  - rewrite Hi, E. apply increasing_snoc; [exact Hinc|].
    eapply Forall_impl; [exact Hall|]. simpl. lia.
  - rewrite Hindex, Hl. reflexivity.
  - fold (batch_bytes (clock s) t0 ts). rewrite batch_bytes_length.
    exact Hsize.
Qed.

End read_back_facts.

Section read_facts.

(** The binary search returns a position whatever the order is. *)
Lemma Search_loop_total (f : nat → option bool) (n : nat) :
  (∀ k, (k < n)%nat → is_Some (f k)) →
  ∀ m i j, (j - i <= m)%nat → (i <= j <= n)%nat →
    ∃ r, Search_loop f i j = Some r ∧ (i <= r <= j)%nat.
Proof.
  intros Hf m. induction m as [|m IH]; intros i j Hm Hij.
  - rewrite Search_loop_eq.
    replace (i <? j)%nat with false by (symmetry; apply Nat.ltb_ge; lia).
    exists i. split; [reflexivity|lia].
  - rewrite Search_loop_eq. destruct (i <? j)%nat eqn:E.
    + apply Nat.ltb_lt in E.
      pose proof (Nat.div_mod_eq (i + j) 2) as Hd.
      pose proof (Nat.mod_upper_bound (i + j) 2 ltac:(lia)) as Hmod.
      set (h := ((i + j) / 2)%nat) in *.
      assert (Hh : (i <= h < j)%nat) by lia.
      destruct (Hf h ltac:(lia)) as [[|] Eh]; rewrite Eh.
      * destruct (IH i h) as (r & Hr & Hb); try lia. exists r. split; [exact Hr|lia].
      * destruct (IH (h + 1)%nat j) as (r & Hr & Hb); try lia.
        exists r. split; [exact Hr|lia].
    + exists i. split; [reflexivity|lia].
Qed.

Lemma Search_live s x :
  live s →
  ∃ r, Search (length (WAL.segments (wal s))) (index_at_least s x) = Some r.
Proof.
  intros Hlive. unfold Search.
  destruct (Search_loop_total (index_at_least s x)
              (length (WAL.segments (wal s)))) with
    (m := length (WAL.segments (wal s))) (i := 0%nat)
    (j := length (WAL.segments (wal s))) as (r & Hr & _); try lia.
  - intros k Hk. rewrite (index_at_least_live s x k Hlive Hk). eauto.
  - eauto.
Qed.

Lemma created_lookup name (fs : gmap string (list byte)) :
  default [] (created name fs !! name) = default [] (fs !! name).
Proof.
  unfold created. destruct (fs !! name) eqn:E.
  - rewrite E. reflexivity.
  - rewrite lookup_insert_eq. reflexivity.
Qed.

Lemma created_twice name (fs : gmap string (list byte)) :
  created name (created name fs) = created name fs.
Proof.
  unfold created. destruct (fs !! name) eqn:E.
  - rewrite E. reflexivity.
  - rewrite lookup_insert_eq. reflexivity.
Qed.

(** [findSegment] on an index that no segment has. *)
Lemma findSegment_missing s index :
  live s → index ∉ indices s →
  findSegment index s = Some (Err ErrNoSegment, s).
Proof.
  intros Hlive Hnot. unfold findSegment, deref. mrun. unfold id.
  destruct (Search_live s index Hlive) as [r ->].
  destruct (WAL.segments (wal s) !! r) as [p|] eqn:Hp; [|reflexivity].
  unfold live in Hlive. rewrite Forall_lookup in Hlive.
  destruct (Hlive r p Hp) as [seg Hseg]. mrun. rewrite ?Hseg. mrun.
  destruct (Segment.index seg =? index) eqn:E; [|reflexivity].
  apply Z.eqb_eq in E. exfalso. apply Hnot.
  apply list_elem_of_lookup. exists r.
  rewrite (indices_lookup _ _ _ Hp). unfold seg_index. rewrite Hseg.
  by rewrite E.
Qed.

Lemma findInCache_miss s index :
  (lru_Get (Itoa index) (WAL.cache (wal s))).1 = None →
  findInCache index s = Some (Err ErrCacheMiss, s).
Proof.
  intros H. unfold findInCache. mrun.
  destruct (lru_Get _ _) as [[v|] c]; [discriminate|reflexivity].
Qed.

Lemma Read_missing s index :
  live s → index < WAL.lastIndex (wal s) →
  (lru_Get (Itoa index) (WAL.cache (wal s))).1 = None →
  index ∉ indices s →
  Read index s = Some (Err ErrNoSegment, s).
Proof.
  intros Hlive Hidx Hmiss Hnot. unfold Read. mrun.
  replace (WAL.lastIndex (wal s) <=? index) with false
    by (symmetry; apply Z.leb_gt; exact Hidx).
  unfold bind. rewrite (findInCache_miss s index Hmiss).
  rewrite (findSegment_missing s index Hlive Hnot). reflexivity.
Qed.

(** [findSegment] on the index of a segment of the sorted sequence: the
    content of its file goes to the cache. *)
Lemma findSegment_present s index k p seg :
  live s → increasing (indices s) →
  WAL.segments (wal s) !! k = Some p → heap s !! p = Some seg →
  Segment.index seg = index →
  faults s (ticks s) = false →
  findSegment index s =
  Some (Ok p,
        mkSys
          (WAL.set_cache
             (lru_Put (Itoa index)
                (default [] (files s !! Segment.path seg))
                (WAL.cache (wal s))).2 (wal s))
          (heap s) (created (Segment.path seg) (files s)) (console s)
          (S (ticks s)) (clock s) (faults s)).
Proof.
  intros Hlive Hinc Hp Hseg Hindex Hf. unfold findSegment, deref. mrun.
  unfold id.
  rewrite (Search_finds s index k Hlive Hinc).
  2: { rewrite (indices_lookup _ _ _ Hp). unfold seg_index.
       rewrite Hseg, Hindex. reflexivity. }
  rewrite ?Hp. mrun. rewrite ?Hseg. mrun.
  replace (Segment.index seg =? index) with true
    by (symmetry; apply Z.eqb_eq; exact Hindex).
  rewrite (getSegmentData_run s p seg Hseg Hf). mrun.
  unfold cacheit, lru_Put. mrun. reflexivity.
Qed.

Lemma Read_sealed s index k p seg :
  live s → increasing (indices s) →
  index < WAL.lastIndex (wal s) →
  (lru_Get (Itoa index) (WAL.cache (wal s))).1 = None →
  WAL.segments (wal s) !! k = Some p → heap s !! p = Some seg →
  Segment.index seg = index →
  faults s (ticks s) = false → faults s (S (ticks s)) = false →
  Read index s =
  Some (Ok (full (default [] (files s !! Segment.path seg))),
        mkSys
          (WAL.set_cache
             (lru_Put (Itoa index)
                (default [] (files s !! Segment.path seg))
                (WAL.cache (wal s))).2 (wal s))
          (heap s) (created (Segment.path seg) (files s)) (console s)
          (S (S (ticks s))) (clock s) (faults s)).
Proof.
  intros Hlive Hinc Hidx Hmiss Hp Hseg Hindex Hf Hf'. unfold Read. mrun.
  replace (WAL.lastIndex (wal s) <=? index) with false
    by (symmetry; apply Z.leb_gt; exact Hidx).
  unfold bind. rewrite (findInCache_miss s index Hmiss).
  rewrite (findSegment_present s index k p seg) by assumption.
  rewrite (getSegmentData_run _ p seg) by assumption.
  cbn [wal heap files console ticks clock faults].
  rewrite created_lookup, created_twice. reflexivity.
Qed.

End read_facts.

Section cache_facts.

Lemma filter_all {A} (P : A → Prop) `{∀ x, Decision (P x)} (l : list A) :
  Forall P l → filter P l = l.
Proof.
  induction 1 as [|x l Hx _ IH]; [reflexivity|].
  rewrite filter_cons_True by exact Hx. by rewrite IH.
Qed.

Lemma Forall_filter_self {A} (P : A → Prop) `{∀ x, Decision (P x)}
    (l : list A) :
  Forall P (filter P l).
Proof.
  induction l as [|x l IH]; [constructor|].
  rewrite filter_cons. destruct (decide (P x)); [constructor|]; assumption.
Qed.

(** In the cache a key that was just put is found, and finding it changes
    nothing. *)
Lemma lru_Get_Put key v c :
  0 < capacity c →
  lru_Get key (lru_Put key v c).2 = (Some v, (lru_Put key v c).2).
Proof.
  intros Hcap. unfold lru_Put. cbn [snd].
  destruct (Z.to_nat (capacity c)) as [|n] eqn:E; [lia|].
  cbn [take]. unfold lru_Get. cbn [items capacity].
  cbn [list_find]. rewrite decide_True by reflexivity. cbn [fmap option_fmap option_map].
  f_equal. f_equal. f_equal.
  rewrite filter_cons_False by (intros Hk; apply Hk; reflexivity).
  apply filter_all, Forall_take, Forall_filter_self.
Qed.

Lemma set_cache_same (w : WAL.t) : WAL.set_cache (WAL.cache w) w = w.
Proof. destruct w. reflexivity. Qed.

(** [Read] below [lastIndex] with the bytes in the cache. *)
Lemma Read_cached s index v :
  index < WAL.lastIndex (wal s) →
  lru_Get (Itoa index) (WAL.cache (wal s)) = (Some v, WAL.cache (wal s)) →
  Read index s = Some (Ok (full v), s).
Proof.
  intros Hidx Hhit. unfold Read, findInCache. mrun.
  replace (WAL.lastIndex (wal s) <=? index) with false
    by (symmetry; apply Z.leb_gt; exact Hidx).
  mrun. rewrite ?Hhit. mrun. rewrite set_cache_same. destruct s. reflexivity.
Qed.

End cache_facts.

Section more_read_facts.

(** A second [Read] of a sealed segment is served from the cache. *)
Lemma Read_twice s index k p seg :
  live s → increasing (indices s) →
  index < WAL.lastIndex (wal s) →
  (lru_Get (Itoa index) (WAL.cache (wal s))).1 = None →
  0 < capacity (WAL.cache (wal s)) →
  WAL.segments (wal s) !! k = Some p → heap s !! p = Some seg →
  Segment.index seg = index →
  faults s (ticks s) = false → faults s (S (ticks s)) = false →
  ∃ s1,
    Read index s =
      Some (Ok (full (default [] (files s !! Segment.path seg))), s1) ∧
    Read index s1 =
      Some (Ok (full (default [] (files s !! Segment.path seg))), s1).
Proof.
  intros Hlive Hinc Hidx Hmiss Hcap Hp Hseg Hindex Hf Hf'.
  eexists. split.
  - apply (Read_sealed s index k p seg); assumption.
  - apply Read_cached.
    + destruct (wal s). exact Hidx.
    + cbn [wal]. destruct (wal s) as [pa sg tl d lm li c].
      cbn [WAL.set_cache WAL.cache] in *. apply lru_Get_Put. exact Hcap.
Qed.

End more_read_facts.

Section sweep_edge_facts.

(** With a negative low mark a sweep never ends in silence. *)
Lemma cleanLog_negative s s' :
  WAL.lowMark (wal s) < 0 → cleanLog s = Some (tt, s') →
  console s' ≠ console s.
Proof.
  intros Hlow Hrun. unfold cleanLog in Hrun. mstep.
  destruct (cleanLog_loop_inv _ s s' eq_refl Hrun)
    as (k & _ & _ & _ & _ & Hcase).
  destruct Hcase as [[_ Hk]|(i & _ & _ & Hc)]; [lia|].
  rewrite Hc. intros E. apply (f_equal length) in E.
  rewrite length_app in E. simpl in E. lia.
Qed.

Lemma cleanLog_negative_empty s :
  WAL.lowMark (wal s) < 0 → WAL.segments (wal s) = [] → cleanLog s = None.
Proof.
  intros Hlow Hsegs. unfold cleanLog. mstep. rewrite Hsegs. simpl.
  mstep. change (Z.of_nat 0 - 1) with (-1).
  replace (WAL.lowMark (wal s) <=? -1) with true
    by (symmetry; apply Z.leb_le; lia).
  reflexivity.
Qed.

(** A sweep that ends in silence has removed the file of every segment at
    or above the low mark. *)
Lemma cleanLog_removes s s' i p :
  cleanLog s = Some (tt, s') → console s' = console s →
  WAL.lowMark (wal s) <= Z.of_nat i →
  WAL.segments (wal s) !! i = Some p →
  files s' !! seg_path s p = None ∧ WAL.tail (wal s') = WAL.tail (wal s).
Proof.
  intros Hrun Hcons Hi Hp. unfold cleanLog in Hrun. mstep.
  destruct (cleanLog_loop_inv _ s s' eq_refl Hrun)
    as (k & Hk & Hwal & Hheap & Hfiles & Hcase).
  assert (Hkk : Z.of_nat k = Z.min (WAL.lowMark (wal s))
                  (Z.of_nat (length (WAL.segments (wal s))))).
  { destruct Hcase as [[_ Hkk]|(j & -> & _ & Hc)]; [exact Hkk|].
    rewrite Hc in Hcons. apply (f_equal length) in Hcons.
    rewrite length_app in Hcons. simpl in Hcons. lia. }
  split.
  - rewrite Hfiles. apply lookup_foldr_delete_in.
    apply list_elem_of_fmap. exists p. split; [reflexivity|].
    apply list_elem_of_lookup. exists (i - k)%nat.
    rewrite lookup_drop. rewrite <- Hp. f_equal.
    apply lookup_lt_Some in Hp. lia.
  - rewrite Hwal. destruct (wal s). reflexivity.
Qed.

(** [Set] on a WAL whose tail file is gone. *)
Lemma Set'_tail_gone ts s h :
  WAL.tail (wal s) = Some h → files s !! file_name h = None →
  Set' (pointers ts) s =
  Some (Some (ErrOS "rename" (file_name h)),
        mkSys (WAL.set_tail (Some (fmmap_Close h)) (wal s)) (heap s)
          (files s) (console s) (S (ticks s)) (clock s) (faults s)).
Proof.
  intros Htail Hgone. rewrite Set'_eq.
  unfold newSegment, TailPath, Close, os_Rename, fmmap_Name. mrun.
  rewrite ?Htail. mrun. rewrite ?Hgone.
  destruct (faults s (ticks s)); reflexivity.
Qed.

End sweep_edge_facts.

Section seal_facts.

(** A rollover that succeeds has found the file of the previous tail. *)
Lemma newSegment_Ok_tail s p s' h :
  newSegment s = Some (Ok p, s') → WAL.tail (wal s) = Some h →
  is_Some (files s !! file_name h).
Proof.
  unfold newSegment, TailPath, Close, os_Rename, open, fmmap_NewFile, alloc,
    AppendSegment, fmmap_Name.
  intros H Htail. mstep. rewrite Htail in H. mproj H.
  destruct (files s !! file_name h) eqn:E; [eauto|].
  exfalso. repeat mcase H.
Qed.

(** What a rollover does to the files and to the segments it finds. *)
Lemma newSegment_seals s p s' h :
  newSegment s = Some (Ok p, s') → WAL.tail (wal s) = Some h →
  ∃ content,
    files s !! file_name h = Some content ∧
    files s' !! Replace (file_name h) END_EXT EmptyString = Some content ∧
    is_Some (files s' !! tail_file (WAL.path (wal s))
                           (int64 (WAL.lastIndex (wal s) + 1))) ∧
    (file_name h ≠ Replace (file_name h) END_EXT EmptyString →
     file_name h ≠ tail_file (WAL.path (wal s))
                     (int64 (WAL.lastIndex (wal s) + 1)) →
     files s' !! file_name h = None) ∧
    (∀ name,
       name ≠ file_name h →
       name ≠ Replace (file_name h) END_EXT EmptyString →
       name ≠ tail_file (WAL.path (wal s))
                (int64 (WAL.lastIndex (wal s) + 1)) →
       files s' !! name = files s !! name) ∧
    (∀ q seg, heap s !! q = Some seg → heap s' !! q = Some seg).
Proof.
  intros H Htail.
  destruct (newSegment_Ok_tail _ _ _ _ H Htail) as [content Hc].
  pose proof (newSegment_Ok _ _ _ H) as (_ & Hheap & _ & Hfiles & _).
  exists content. rewrite Hfiles. unfold sealed_files. rewrite Htail, Hc.
  set (temp := tail_file (WAL.path (wal s))
                 (int64 (WAL.lastIndex (wal s) + 1))).
  set (sealed := Replace (file_name h) END_EXT EmptyString).
  set (fs := <[sealed := content]> (delete (file_name h) (files s))).
  assert (Hcreated : ∀ name, name ≠ temp → created temp fs !! name = fs !! name).
  { intros name Hne. unfold created. destruct (fs !! temp); [reflexivity|].
    apply lookup_insert_ne. congruence. }
  split_and!.
  - reflexivity.
  - unfold created. destruct (fs !! temp) eqn:E.
    + subst fs. apply lookup_insert_eq.
    + destruct (decide (sealed = temp)) as [Heq|Hne].
      * subst fs. rewrite Heq, lookup_insert_eq in E. discriminate.
      * rewrite lookup_insert_ne by congruence. subst fs. apply lookup_insert_eq.
  - unfold created. destruct (fs !! temp) eqn:E; [rewrite E; eauto|].
    rewrite lookup_insert_eq. eauto.
  - intros H1 H2. rewrite Hcreated by exact H2. subst fs.
    rewrite lookup_insert_ne by congruence. apply lookup_delete_eq.
  - intros name H1 H2 H3. rewrite Hcreated by exact H3. subst fs.
    rewrite lookup_insert_ne by congruence. apply lookup_delete_ne. congruence.
  - intros q seg Hq. rewrite Hheap. by apply lookup_app_l_Some.
Qed.

(** After a rollover the segment of the previous tail still carries the
    path with the mark of the tail, under which no file is left: a [Read]
    of its index creates an empty file there and returns no bytes. *)
Lemma Read_after_rollover s p s1 h k q seg :
  newSegment s = Some (Ok p, s1) →
  live s → ordered s →
  - 2 ^ 63 <= WAL.lastIndex (wal s) < max_int →
  WAL.tail (wal s) = Some h →
  WAL.segments (wal s) !! k = Some q → heap s !! q = Some seg →
  Segment.path seg = file_name h →
  Segment.index seg = WAL.lastIndex (wal s) →
  file_name h ≠ Replace (file_name h) END_EXT EmptyString →
  file_name h ≠ tail_file (WAL.path (wal s)) (WAL.lastIndex (wal s) + 1) →
  (lru_Get (Itoa (WAL.lastIndex (wal s))) (WAL.cache (wal s))).1 = None →
  faults s1 (ticks s1) = false → faults s1 (S (ticks s1)) = false →
  ∃ content s2,
    files s !! file_name h = Some content ∧
    files s1 !! Replace (file_name h) END_EXT EmptyString = Some content ∧
    Read (WAL.lastIndex (wal s)) s1 = Some (Ok (full []), s2) ∧
    files s2 !! file_name h = Some [].
Proof.
  intros Hn Hlive [Hinc Hall] Hrange Htail Hk Hq Hpath Hindex Hne1 Hne2
    Hmiss Hf Hf'.
  assert (E : int64 (WAL.lastIndex (wal s) + 1) = WAL.lastIndex (wal s) + 1)
    by (apply int64_small; unfold max_int in *; lia).
  destruct (newSegment_seals _ _ _ _ Hn Htail)
    as (content & Hc & Hsealed & _ & Hgone & _ & Hkeep).
  rewrite E in Hgone. specialize (Hgone Hne1 Hne2).
  destruct (newSegment_indices _ _ _ Hlive Hn) as [Hi Hlive1].
  pose proof (newSegment_Ok _ _ _ Hn) as (_ & _ & Hwal & _).
  rewrite E in Hi, Hwal.
  assert (HR := Read_sealed s1 (WAL.lastIndex (wal s)) k q seg Hlive1).
  rewrite Hpath, Hgone in HR. cbn [default] in HR.
  exists content. eexists. split_and!; [exact Hc | exact Hsealed | |].
  - apply HR; try assumption.
    + rewrite Hi. apply increasing_snoc; [exact Hinc|].
      eapply Forall_impl; [exact Hall|]. simpl. lia.
    + rewrite Hwal. cbn [WAL.lastIndex]. lia.
    + rewrite Hwal. exact Hmiss.
    + rewrite Hwal. cbn [WAL.segments]. by apply lookup_app_l_Some.
    + apply Hkeep, Hq.
  - cbn [files]. unfold created. rewrite Hgone. apply lookup_insert_eq.
Qed.

End seal_facts.

Section open_facts.

Lemma unloaded_live s : unloaded s → live s.
Proof.
  unfold unloaded, live. intros H. eapply Forall_impl; [exact H|].
  intros p (seg & Hp & _). eauto.
Qed.

(** The segment that [getLastSegment] returns has the index [lastIndex]. *)
Lemma getLastSegment_Ok_index s p s1 :
  unloaded s → getLastSegment s = Some (Ok p, s1) →
  ∃ seg, p ∈ WAL.segments (wal s1) ∧ heap s1 !! p = Some seg ∧
         Segment.index seg = WAL.lastIndex (wal s1) ∧
         Segment.data seg = [] ∧ WAL.path (wal s1) = WAL.path (wal s).
Proof.
  intros Hun H.
  assert (Hnew : newSegment s = Some (Ok p, s1) →
    ∃ seg, p ∈ WAL.segments (wal s1) ∧ heap s1 !! p = Some seg ∧
           Segment.index seg = WAL.lastIndex (wal s1) ∧
           Segment.data seg = [] ∧ WAL.path (wal s1) = WAL.path (wal s)).
  { intros Hn.
    pose proof (newSegment_Ok _ _ _ Hn) as (-> & Hheap & Hwal & _).
    eexists. split_and!.
    - rewrite Hwal. cbn [WAL.segments]. apply elem_of_app. right.
      apply list_elem_of_singleton. reflexivity.
    - rewrite Hheap. by apply list_lookup_middle.
    - rewrite Hwal. reflexivity.
    - reflexivity.
    - rewrite Hwal. reflexivity. }
  unfold getLastSegment, deref in H. mstep. unfold id in H.
  repeat mcase H; auto.
  injection H as <- <-.
  match goal with
  | Hp : WAL.segments (wal s) !! ?i = Some ?q,
    Hq : heap s !! ?q = Some ?seg,
    Hi : (Segment.index ?seg =? _) = true |- _ =>
      exists seg; split_and!;
        [ eapply list_elem_of_lookup_2; exact Hp
        | exact Hq
        | apply Z.eqb_eq; exact Hi
        | unfold unloaded in Hun; rewrite Forall_lookup in Hun;
          destruct (Hun _ _ Hp) as (seg' & Hq' & Hd);
          rewrite Hq in Hq'; injection Hq' as <-; exact Hd
        | reflexivity ]
  end.
Qed.

(** What [setupLastSegment] leaves when it succeeds: the handle of the
    tail is open on the file of the segment with the index [lastIndex], and
    that segment holds the bytes of the file. *)
Lemma setupLastSegment_tail s s' :
  unloaded s → setupLastSegment s = Some (None, s') →
  ∃ p seg,
    p ∈ WAL.segments (wal s') ∧ heap s' !! p = Some seg ∧
    Segment.index seg = WAL.lastIndex (wal s') ∧
    WAL.tail (wal s') = Some (mkFMMAP (Segment.path seg) false) ∧
    files s' !! Segment.path seg = Some (Segment.data seg).
Proof.
  intros Hun H. unfold setupLastSegment in H. unfold bind at 1 in H.
  destruct (getLastSegment s) as [[[p|e] s1]|] eqn:G; try discriminate.
  destruct (getLastSegment_Ok_index _ _ _ Hun G)
    as (seg & Hin & Hseg & Hindex & Hdata & _).
  unfold deref, open, fmmap_NewFile, fmmap_Get, store, deref in H.
  mstep. rewrite Hseg in H. mproj H.
  destruct (faults s1 (ticks s1)); [discriminate|]. mproj H.
  unfold Segment.Path in H. exists p.
  destruct (files s1 !! Segment.path seg) as [content|] eqn:E; mproj H.
  - repeat (progress (mproj H; rewrite ?E, ?Hseg in H)).
    injection H as <-. exists (Segment.SetData seg content).
    cbn [wal heap files WAL.segments WAL.tail WAL.lastIndex WAL.set_tail
         default full elems file_name].
    split_and!; [exact Hin| |exact Hindex|reflexivity|].
    + rewrite E. apply list_lookup_insert_eq. eapply lookup_lt_Some; eauto.
    + cbn [Segment.SetData Segment.path Segment.data]. rewrite Hdata, E.
      reflexivity.
  - repeat (progress (mproj H; rewrite ?lookup_insert_eq, ?Hseg in H)).
    injection H as <-. exists (Segment.SetData seg []).
    cbn [wal heap files WAL.segments WAL.tail WAL.lastIndex WAL.set_tail
         default full elems file_name].
    split_and!; [exact Hin| |exact Hindex|reflexivity|].
    + rewrite ?E, ?lookup_insert_eq. cbn [default].
      apply list_lookup_insert_eq. eapply lookup_lt_Some; eauto.
    + cbn [Segment.SetData Segment.path Segment.data]. rewrite Hdata.
      rewrite lookup_insert_eq. reflexivity.
Qed.

Lemma Walk_unloaded entries : ∀ s s',
  unloaded s → Walk entries Open_visit s = Some (None, s') → unloaded s'.
Proof.
  induction entries as [|[name base] rest IH]; intros s s' Hun H.
  - injection H as <-. exact Hun.
  - cbn [Walk] in H. unfold bind at 1 in H.
    destruct (Open_visit name base s) as [[[e|] s1]|] eqn:V; try discriminate.
    apply (IH s1 s'); [|exact H].
    pose proof (Open_visit_None (name, base) s s1 V) as Hv.
    destruct (visit_index (name, base)) as [[[i t]|err]|]; [| |by subst].
    + destruct Hv as (size & Hheap & Hwal).
      unfold unloaded. rewrite Hwal. cbn [WAL.segments].
      apply Forall_app. split.
      * eapply Forall_impl; [exact Hun|]. intros q (seg & Hq & Hd).
        exists seg. split; [|exact Hd]. rewrite Hheap.
        by apply lookup_app_l_Some.
      * constructor; [|constructor]. eexists. split.
        -- rewrite Hheap. by apply list_lookup_middle.
        -- reflexivity.
    + contradiction.
Qed.

(** What [Open] leaves when it succeeds. *)
Lemma Open_tail s s' :
  WAL.segments (wal s) = [] → Open s = Some (None, s') →
  ∃ p seg,
    p ∈ WAL.segments (wal s') ∧ heap s' !! p = Some seg ∧
    Segment.index seg = WAL.lastIndex (wal s') ∧
    WAL.tail (wal s') = Some (mkFMMAP (Segment.path seg) false) ∧
    files s' !! Segment.path seg = Some (Segment.data seg) ∧
    TailPath s' = Some (Ok (Segment.path seg), s').
Proof.
  intros Hsegs H. apply Open_walk in H as [_ H].
  destruct (Walk _ Open_visit (tick s)) as [[[e|] s1]|] eqn:W;
    try discriminate.
  assert (Hun : unloaded (tick s))
    by (unfold unloaded; simpl; rewrite Hsegs; constructor).
  pose proof (Walk_unloaded _ _ _ Hun W) as Hun1.
  destruct (setupLastSegment_tail _ _ Hun1 H)
    as (p & seg & Hin & Hseg & Hindex & Htail & Hfile).
  exists p, seg. split_and!; try assumption.
  unfold TailPath. mstep. rewrite Htail. reflexivity.
Qed.

End open_facts.

Section lexical_facts.

Lemma digit_range c d :
  digit c = Some d → 0 <= d <= 9 ∧ Z.of_N (N_of_ascii c) = d + 48.
Proof.
  unfold digit. intros H.
  destruct ((48 <=? Z.of_N (N_of_ascii c)) && (Z.of_N (N_of_ascii c) <=? 57))
    eqn:E; [|discriminate].
  injection H as <-. apply andb_true_iff in E as [E1 E2].
  apply Z.leb_le in E1, E2. lia.
Qed.

Lemma ParseUint_loop_cons c s n a :
  ParseUint_loop (String c s) n = inl a →
  ∃ d, digit c = Some d ∧ ParseUint_loop s (n * 10 + d) = inl a.
Proof.
  cbn [ParseUint_loop]. destruct (digit c) as [d|]; [|discriminate].
  destruct (maxUint64 / 10 + 1 <=? n); [discriminate|].
  destruct (maxUint64 <? n * 10 + d); [discriminate|].
  eauto.
Qed.

(** Of two numerals of the same length, the one that continues the
    smaller number is the smaller. *)
Lemma ParseUint_loop_lt (s : string) : ∀ t n m a b,
  String.length s = String.length t →
  ParseUint_loop s n = inl a → ParseUint_loop t m = inl b →
  n < m → a < b.
Proof.
  induction s as [|c s IH]; intros [|c' t] n m a b Hlen Ha Hb Hnm;
    try discriminate.
  - injection Ha as <-. injection Hb as <-. exact Hnm.
  - apply ParseUint_loop_cons in Ha as (d & Hd & Ha).
    apply ParseUint_loop_cons in Hb as (d' & Hd' & Hb).
    apply digit_range in Hd as [Hd _]. apply digit_range in Hd' as [Hd' _].
    apply (IH t (n * 10 + d) (m * 10 + d')); try assumption.
    + simpl in Hlen. lia.
    + lia.
Qed.

(** The lexical order of numerals of the same length is the order of
    their values. *)
Lemma compare_numerals (s : string) : ∀ t n a b,
  String.length s = String.length t →
  ParseUint_loop s n = inl a → ParseUint_loop t n = inl b →
  match String.compare s t with
  | Lt => a < b
  | Eq => a = b
  | Gt => b < a
  end.
Proof.
  induction s as [|c s IH]; intros [|c' t] n a b Hlen Ha Hb;
    try discriminate.
  - injection Ha as <-. injection Hb as <-. reflexivity.
  - apply ParseUint_loop_cons in Ha as (d & Hd & Ha).
    apply ParseUint_loop_cons in Hb as (d' & Hd' & Hb).
    pose proof (digit_range _ _ Hd) as [_ Hc].
    pose proof (digit_range _ _ Hd') as [_ Hc'].
    assert (Hl : String.length s = String.length t) by (simpl in Hlen; lia).
    cbn [String.compare]. unfold Ascii.compare.
    destruct (N.compare_spec (N_of_ascii c) (N_of_ascii c')) as [E|E|E].
    + assert (d = d') as <- by lia. apply (IH t (n * 10 + d)); assumption.
    + apply (ParseUint_loop_lt s t (n * 10 + d) (n * 10 + d')); try assumption.
      lia.
    + apply (ParseUint_loop_lt t s (n * 10 + d') (n * 10 + d));
        try assumption; [symmetry; exact Hl|lia].
Qed.

Lemma string_length_zeros k : String.length (zeros k) = k.
Proof. induction k as [|k IH]; [reflexivity|]. simpl. by rewrite IH. Qed.

Lemma padded_length i :
  0 <= i <= max_int → String.length (padded i) = 20%nat.
Proof.
  intros Hi. pose proof (Itoa_length i Hi) as Hlen.
  rewrite (padded_zeros i Hi), string_length_app, string_length_zeros. lia.
Qed.

Lemma ParseUint_loop_padded i :
  0 <= i <= max_int → ParseUint_loop (padded i) 0 = inl i.
Proof.
  intros Hi. rewrite (padded_zeros i Hi), ParseUint_loop_zeros.
  apply ParseUint_loop_Itoa. unfold max_int, maxUint64 in *. lia.
Qed.

(** The stems of the segment files come in the order of the indices. *)
Lemma compare_padded i j :
  0 <= i <= max_int → 0 <= j <= max_int → i < j →
  String.compare (padded i) (padded j) = Lt.
Proof.
  intros Hi Hj Hij.
  pose proof (compare_numerals (padded i) (padded j) 0 i j) as H.
  rewrite !padded_length in H by assumption.
  specialize (H eq_refl (ParseUint_loop_padded i Hi)
                (ParseUint_loop_padded j Hj)).
  destruct (String.compare (padded i) (padded j)); [lia|reflexivity|lia].
Qed.

Lemma compare_app_Lt (a : string) : ∀ b x y,
  String.length a = String.length b →
  String.compare a b = Lt → String.compare (a +:+ x) (b +:+ y) = Lt.
Proof.
  induction a as [|c a IH]; intros [|c' b] x y Hlen H; try discriminate.
  rewrite !append_cons. cbn [String.compare] in *.
  destruct (Ascii.compare c c'); [|reflexivity|discriminate].
  apply IH; [simpl in Hlen; lia|exact H].
Qed.

Lemma compare_segment_base i j t t' :
  0 <= i <= max_int → 0 <= j <= max_int → i < j →
  String.compare (segment_base i t) (segment_base j t') = Lt.
Proof.
  intros Hi Hj Hij. unfold segment_base. apply compare_app_Lt.
  - rewrite !padded_length by assumption. reflexivity.
  - apply compare_padded; assumption.
Qed.

End lexical_facts.

Section walk_facts.

Lemma walk_leb_total (a : list string) : ∀ b,
  walk_leb a b = true ∨ walk_leb b a = true.
Proof.
  induction a as [|x a IH]; intros [|y b]; cbn [walk_leb]; auto.
  rewrite (String.compare_antisym y x).
  destruct (String.compare x y); cbn [CompOpp]; auto.
Qed.

#[global] Instance walk_before_total : Total walk_before.
Proof. intros a b. unfold walk_before. apply walk_leb_total. Qed.

Lemma digit_not_separator c d : digit c = Some d → IsPathSeparator c = false.
Proof.
  intros H. apply digit_range in H as [Hd H]. unfold IsPathSeparator.
  apply Ascii.eqb_neq. intros ->. simpl in H. lia.
Qed.

(** A name of digits and an extension is one path element. *)
Lemma components_digits (s ext : string) :
  all_digits s = true → components ext = [ext] →
  components (s +:+ ext) = [s +:+ ext].
Proof.
  intros Hs Hext. induction s as [|c s IH]; [exact Hext|].
  simpl in Hs. destruct (digit c) as [d|] eqn:E; [|discriminate].
  rewrite append_cons. cbn [components].
  rewrite (digit_not_separator c d E), (IH Hs). reflexivity.
Qed.

Lemma components_segment_base i t :
  0 <= i <= max_int → components (segment_base i t) = [segment_base i t].
Proof.
  intros Hi. unfold segment_base.
  apply components_digits; [apply all_digits_padded, Hi|].
  destruct t; reflexivity.
Qed.

Lemma segment_file_base dir i t :
  segment_file dir i t = (dir +:+ "/") +:+ segment_base i t.
Proof.
  unfold segment_file, segment_base. destruct t.
  - rewrite tail_file_padded, !string_app_assoc. reflexivity.
  - rewrite !string_app_assoc. reflexivity.
Qed.

Lemma below_segment_file dir i t :
  0 <= i <= max_int →
  below dir (segment_file dir i t) = Some [segment_base i t].
Proof.
  intros Hi. unfold below. rewrite segment_file_base, prefix_app.
  rewrite string_length_app.
  replace (String.length dir + 1)%nat with (String.length (dir +:+ "/"))
    by (rewrite string_length_app; reflexivity).
  replace (String.length (dir +:+ "/") + String.length (segment_base i t) -
           String.length (dir +:+ "/"))%nat
    with (String.length (segment_base i t)) by lia.
  rewrite substring_app_skip, substring_all, components_segment_base
    by exact Hi.
  reflexivity.
Qed.

Lemma append_inv_head (a b c : string) : a +:+ b = a +:+ c → b = c.
Proof.
  induction a as [|x a IH]; [auto|].
  rewrite !append_cons. intros H. injection H as H. auto.
Qed.

Lemma visit_segment_file dir i t :
  0 <= i <= max_int →
  visit_index (segment_file dir i t, segment_base i t) = Some (Ok (i, t)).
Proof.
  intros Hi. unfold segment_file, segment_base. destruct t.
  - apply visit_tail_name, Hi.
  - apply visit_sealed_name, Hi.
Qed.

(** The name of a segment file tells the index and the mark. *)
Lemma segment_file_inj dir i t j t' :
  0 <= i <= max_int → 0 <= j <= max_int →
  segment_file dir i t = segment_file dir j t' → i = j ∧ t = t'.
Proof.
  intros Hi Hj E.
  pose proof (visit_segment_file dir i t Hi) as Hv.
  pose proof (visit_segment_file dir j t' Hj) as Hv'.
  assert (Eb : segment_base i t = segment_base j t').
  { rewrite !segment_file_base in E. by apply append_inv_head in E. }
  rewrite E, Eb, Hv' in Hv. injection Hv as -> ->. auto.
Qed.

End walk_facts.

Section directory_facts.

Context (dir : string) (fs : gmap string (list byte)).

Lemma found_elem e :
  e ∈ found dir fs ↔ is_Some (fs !! e.1) ∧ below dir e.1 = Some e.2.
Proof.
  unfold found. rewrite list_elem_of_omap. split.
  - intros ([name content] & Hin & Hg). apply elem_of_map_to_list in Hin.
    cbn [fst] in Hg. destruct (below dir name) as [c|] eqn:E; [|discriminate].
    injection Hg as <-. cbn [fst snd]. split; [eauto|exact E].
  - intros [[content Hc] Hb]. exists (e.1, content). split.
    + apply elem_of_map_to_list. exact Hc.
    + cbn [fst]. rewrite Hb. destruct e. reflexivity.
Qed.

Lemma found_entries :
  segment_dir dir fs → Forall (segment_entry dir fs) (found dir fs).
Proof.
  intros [Hdir _]. apply Forall_forall. intros e He.
  apply found_elem in He as [Hfile Hb].
  assert (Hp : String.prefix (dir +:+ "/") e.1 = true).
  { unfold below in Hb. destruct (String.prefix _ _); [reflexivity|discriminate]. }
  destruct (Hdir e.1 Hfile Hp) as (i & t & Hi & Hname).
  exists i, t. split; [exact Hi|]. split; [by rewrite <- Hname|].
  rewrite Hname, below_segment_file in Hb by exact Hi.
  injection Hb as Hb. destruct e as [name c]. cbn [fst snd] in *.
  by rewrite Hname, Hb.
Qed.

Lemma found_complete i t :
  0 <= i <= max_int → is_Some (fs !! segment_file dir i t) →
  (segment_file dir i t, [segment_base i t]) ∈ found dir fs.
Proof.
  intros Hi Hfile. apply found_elem. cbn [fst snd].
  split; [exact Hfile|apply below_segment_file, Hi].
Qed.

Lemma found_NoDup : NoDup (found dir fs).
Proof.
  unfold found. pose proof (NoDup_fst_map_to_list fs) as Hnd.
  induction (map_to_list fs) as [|[name content] l IH]; [constructor|].
  rewrite fmap_cons in Hnd. apply NoDup_cons in Hnd as [Hnot Hnd].
  cbn [omap list_omap fst].
  destruct (below dir name) as [c|]; cbn [mbind option_bind]; [|by apply IH].
  constructor; [|by apply IH].
  rewrite list_elem_of_omap. intros ([name' content'] & Hin & Hg).
  cbn [fst] in Hg. destruct (below dir name'); [|discriminate].
  injection Hg as <- _. apply Hnot.
  apply list_elem_of_fmap. exists (name', content'). split; [reflexivity|exact Hin].
Qed.

End directory_facts.

Section sorted_walk_facts.

Context (dir : string) (fs : gmap string (list byte)).

Lemma walk_files_found :
  walk_files dir fs = handed <$> merge_sort walk_before (found dir fs).
Proof. reflexivity. Qed.

Lemma walk_indices_entry e rest :
  segment_entry dir fs e →
  ∃ i t, 0 <= i <= max_int ∧
         e = (segment_file dir i t, [segment_base i t]) ∧
         visit_index (handed e) = Some (Ok (i, t)) ∧
         walk_indices (handed e :: rest) = i :: walk_indices rest.
Proof.
  intros (i & t & Hi & _ & ->). exists i, t.
  assert (Hv : visit_index (handed (segment_file dir i t, [segment_base i t]))
               = Some (Ok (i, t))) by (apply visit_segment_file, Hi).
  split; [exact Hi|]. split; [reflexivity|]. split; [exact Hv|].
  unfold walk_indices. cbn [omap list_omap]. cbv beta. rewrite Hv.
  reflexivity.
Qed.

(** Two different entries that the walk meets one after the other have
    indices in ascending order. *)
Lemma walk_before_indices e e' i t i' t' :
  segment_dir dir fs →
  0 <= i <= max_int → 0 <= i' <= max_int →
  e = (segment_file dir i t, [segment_base i t]) →
  e' = (segment_file dir i' t', [segment_base i' t']) →
  is_Some (fs !! segment_file dir i t) →
  is_Some (fs !! segment_file dir i' t') →
  walk_before e e' → e ≠ e' → i < i'.
Proof.
  intros [_ Hone] Hi Hi' -> -> Hf Hf' Hw Hne.
  unfold walk_before in Hw. cbn [snd walk_leb] in Hw.
  destruct (Z.lt_trichotomy i i') as [Hlt|[Heq|Hgt]]; [exact Hlt| |].
  - subst i'. rewrite (Hone i t t' Hi Hf Hf') in Hne. contradiction.
  - rewrite String.compare_antisym,
      (compare_segment_base i' i t' t Hi' Hi Hgt) in Hw.
    discriminate.
Qed.

Lemma walk_indices_sorted (l : list (string * list string)) :
  segment_dir dir fs →
  Sorted walk_before l → Forall (segment_entry dir fs) l → NoDup l →
  Sorted Z.lt (walk_indices (handed <$> l)).
Proof.
  intros Hdir Hs. induction Hs as [|e l Hs IH Hhd]; intros Hall Hnd.
  - constructor.
  - apply Forall_cons in Hall as [He Hall].
    apply NoDup_cons in Hnd as [Hnot Hnd].
    rewrite fmap_cons.
    destruct (walk_indices_entry e (handed <$> l) He)
      as (i & t & Hi & Ee & _ & ->).
    constructor; [by apply IH|].
    destruct Hhd as [|e' l' Hw]; [constructor|].
    apply Forall_cons in Hall as [He' _].
    rewrite fmap_cons.
    destruct (walk_indices_entry e' (handed <$> l') He')
      as (i' & t' & Hi' & Ee' & _ & ->).
    constructor.
    destruct He as (i0 & t0 & _ & Hf & E0).
    destruct He' as (i1 & t1 & _ & Hf' & E1).
    rewrite Ee in E0. rewrite Ee' in E1.
    apply (walk_before_indices e e' i t i' t'); try assumption.
    + injection E0 as E0 _. by rewrite E0.
    + injection E1 as E1 _. by rewrite E1.
    + intros ->. apply Hnot. left.
Qed.

Lemma Sorted_increasing (l : list Z) : Sorted Z.lt l → increasing l.
Proof.
  intros Hs. apply Sorted_StronglySorted in Hs; [|apply _].
  induction Hs as [|a l _ IH Hall]; [apply increasing_nil|].
  apply increasing_cons; assumption.
Qed.

(** In the walk of a directory of segment files the indices ascend. *)
Lemma walk_indices_increasing :
  segment_dir dir fs → increasing (walk_indices (walk_files dir fs)).
Proof.
  intros Hdir. rewrite walk_files_found. apply Sorted_increasing.
  apply walk_indices_sorted; [exact Hdir| | |].
  - apply Sorted_merge_sort. apply _.
  - rewrite merge_sort_Permutation. apply found_entries, Hdir.
  - rewrite merge_sort_Permutation. apply found_NoDup.
Qed.

End sorted_walk_facts.

Section reopen_facts2.

(** Setting up a tail that [getLastSegment] has returned keeps the
    indices and [lastIndex]. *)
Lemma setupLastSegment_keeps s p s1 s' :
  getLastSegment s = Some (Ok p, s1) → live s1 →
  setupLastSegment s = Some (None, s') →
  indices s' = indices s1 ∧ WAL.lastIndex (wal s') = WAL.lastIndex (wal s1).
Proof.
  intros G Hlive1 H. unfold setupLastSegment in H. unfold bind at 1 in H.
  rewrite G in H. clear G.
  unfold deref, open, fmmap_NewFile, fmmap_Get, store, deref in H.
  mstep. repeat mcase H.
  all: injection H as <-.
  all: cbn [wal heap WAL.lastIndex].
  all: split; [|reflexivity].
  all: unfold indices; cbn [wal heap WAL.segments].
  all: apply seg_index_keep; [exact Hlive1|].
  all: cbn [heap].
  all: intros q seg0 Hq.
  all: destruct (decide (q = p)) as [Heq|Hne].
  all: try (rewrite list_lookup_insert_ne by congruence; eauto).
  all: subst q.
  all: rewrite list_lookup_insert_eq by (eapply lookup_lt_Some; eauto).
  all: eexists; split; [reflexivity|].
  all: match goal with
       | E : ?h !! ?k = Some _, Hq : ?h !! ?k = Some _ |- _ =>
           rewrite E in Hq; injection Hq as <-
       end; reflexivity.
Qed.

Lemma walk_tail_cons e rest l :
  walk_tail (e :: rest) l =
  walk_tail rest (match visit_index e with
                  | Some (Ok (i, true)) => i
                  | _ => l
                  end).
Proof. reflexivity. Qed.

(** When one index only is marked as the tail, the walk finds it. *)
Lemma walk_tail_unique (entries : list (string * string)) (L : Z) :
  (∀ e i, e ∈ entries → visit_index e = Some (Ok (i, true)) → i = L) →
  (∃ e, e ∈ entries ∧ visit_index e = Some (Ok (L, true))) →
  ∀ l, walk_tail entries l = L.
Proof.
  intros Hall.
  assert (Hfix : ∀ es, (∀ e i, e ∈ es → visit_index e = Some (Ok (i, true)) →
                                i = L) → walk_tail es L = L).
  { induction es as [|e es IH]; intros Hes; [reflexivity|].
    rewrite walk_tail_cons.
    destruct (visit_index e) as [[[i [|]]|err]|] eqn:E.
    - rewrite (Hes e i (list_elem_of_here _ _) E). apply IH.
      intros e' i' He'. apply Hes. by right.
    - apply IH. intros e' i' He'. apply Hes. by right.
    - apply IH. intros e' i' He'. apply Hes. by right.
    - apply IH. intros e' i' He'. apply Hes. by right. }
  induction entries as [|e es IH]; intros (e0 & Hin & Hv) l.
  - by apply elem_of_nil in Hin.
  - rewrite walk_tail_cons. apply elem_of_cons in Hin as [<-|Hin].
    + rewrite Hv. apply Hfix. intros e' i' He'. apply Hall. by right.
    + assert (Hes : ∀ e i, e ∈ es → visit_index e = Some (Ok (i, true)) →
                           i = L) by (intros e' i' He'; apply Hall; by right).
      destruct (visit_index e) as [[[i [|]]|err]|] eqn:E.
      * rewrite (Hall e i (list_elem_of_here _ _) E). by apply Hfix.
      * apply IH; eauto.
      * apply IH; eauto.
      * apply IH; eauto.
Qed.

(** The entries of the walk of a directory of segment files, by index. *)
Lemma walk_files_entries dir (fs : gmap string (list byte)) e :
  segment_dir dir fs →
  e ∈ walk_files dir fs ↔
  ∃ i t, 0 <= i <= max_int ∧ is_Some (fs !! segment_file dir i t) ∧
         e = (segment_file dir i t, segment_base i t).
Proof.
  intros Hdir. rewrite walk_files_found, list_elem_of_fmap. split.
  - intros (x & -> & Hx). rewrite merge_sort_Permutation in Hx.
    pose proof (found_entries dir fs Hdir) as Hall.
    rewrite Forall_forall in Hall.
    destruct (Hall x Hx) as (i & t & Hi & Hf & ->). exists i, t. auto.
  - intros (i & t & Hi & Hf & ->).
    exists (segment_file dir i t, [segment_base i t]).
    split; [reflexivity|]. rewrite merge_sort_Permutation.
    by apply found_complete.
Qed.

Lemma walk_indices_elem dir (fs : gmap string (list byte)) i :
  segment_dir dir fs →
  i ∈ walk_indices (walk_files dir fs) ↔
  0 <= i <= max_int ∧ ∃ t, is_Some (fs !! segment_file dir i t).
Proof.
  intros Hdir. unfold walk_indices. rewrite list_elem_of_omap. split.
  - intros (e & He & Hv). apply (walk_files_entries dir fs e Hdir) in He
      as (j & t & Hj & Hf & ->).
    rewrite visit_segment_file in Hv by exact Hj. injection Hv as <-. eauto.
  - intros (Hi & t & Hf). exists (segment_file dir i t, segment_base i t).
    split.
    + apply (walk_files_entries dir fs _ Hdir). eauto 6.
    + rewrite visit_segment_file by exact Hi. reflexivity.
Qed.

(** [Open] on the directory that rollovers have left: the segments are
    those of the files, strictly sorted, and the tail is the marked one. *)
Lemma Open_segment_dir s s' L :
  WAL.segments (wal s) = [] →
  segment_dir (WAL.path (wal s)) (files s) →
  0 <= L <= max_int →
  is_Some (files s !! segment_file (WAL.path (wal s)) L true) →
  (∀ i t, 0 <= i <= max_int →
          is_Some (files s !! segment_file (WAL.path (wal s)) i t) →
          i <= L ∧ (t = true → i = L)) →
  Open s = Some (None, s') →
  indices s' = walk_indices (walked s) ∧
  increasing (indices s') ∧
  WAL.lastIndex (wal s') = L ∧
  (∀ i, i ∈ indices s' ↔
        0 <= i <= max_int ∧
        ∃ t, is_Some (files s !! segment_file (WAL.path (wal s)) i t)).
Proof.
  intros Hsegs Hdir HL Htail Hmax H. apply Open_walk in H as [_ H].
  fold (walked s) in H.
  destruct (Walk (walked s) Open_visit (tick s)) as [[[e|] s1]|] eqn:W;
    try discriminate.
  assert (Hlive : live (tick s))
    by (unfold live; simpl; rewrite Hsegs; constructor).
  destruct (Walk_None _ _ _ Hlive W) as (Hlive1 & Hi & Ht).
  assert (Hnil : indices (tick s) = [])
    by (unfold indices; simpl; rewrite Hsegs; reflexivity).
  rewrite Hnil in Hi. simpl in Hi.
  change (WAL.lastIndex (wal (tick s))) with (WAL.lastIndex (wal s)) in Ht.
  assert (Hinc : increasing (indices s1)).
  { rewrite Hi. apply walk_indices_increasing, Hdir. }
  assert (HtL : WAL.lastIndex (wal s1) = L).
  { rewrite Ht. apply walk_tail_unique.
    - intros e i He Hv.
      apply (walk_files_entries _ _ e Hdir) in He as (j & t & Hj & Hf & ->).
      rewrite visit_segment_file in Hv by exact Hj. injection Hv as <- ->.
      by apply (Hmax j true Hj Hf).
    - exists (segment_file (WAL.path (wal s)) L true, segment_base L true).
      split; [|by apply visit_segment_file].
      apply (walk_files_entries _ _ _ Hdir). eauto 6. }
  assert (HLin : L ∈ indices s1).
  { rewrite Hi. apply (walk_indices_elem _ _ L Hdir). eauto. }
  apply list_elem_of_lookup in HLin as [k Hk].
  assert (Hk' := Hk). unfold indices in Hk'. rewrite list_lookup_fmap in Hk'.
  destruct (WAL.segments (wal s1) !! k) as [p|] eqn:Hp; [|discriminate].
  injection Hk' as Hidx.
  unfold live in Hlive1. rewrite Forall_lookup in Hlive1.
  destruct (Hlive1 k p Hp) as [seg Hseg].
  unfold seg_index in Hidx. rewrite Hseg in Hidx.
  assert (Hlive1' : live s1) by (unfold live; by rewrite Forall_lookup).
  assert (G : getLastSegment s1 = Some (Ok p, s1)).
  { apply (getLastSegment_finds s1 k p seg); try assumption.
    by rewrite Hidx, HtL. }
  destruct (setupLastSegment_keeps s1 p s1 s' G Hlive1' H) as [Hi' Hl'].
  split_and!.
  - rewrite Hi', Hi. reflexivity.
  - rewrite Hi'. exact Hinc.
  - rewrite Hl'. exact HtL.
  - intros i. rewrite Hi', Hi. apply walk_indices_elem, Hdir.
Qed.

End reopen_facts2.

Section sample_directory_facts.

(** The sample directory of a sealed segment and a tail. *)
Lemma sample_reopen_files name :
  is_Some (files sample_reopen !! name) →
  name = segment_file "/var/wal" 1 false ∨
  name = segment_file "/var/wal" 2 true.
Proof.
  intros [v Hv]. cbn [files sample_reopen] in Hv.
  apply lookup_insert_Some in Hv as [[<- _]|[_ Hv]]; [left; reflexivity|].
  apply lookup_singleton_Some in Hv as [<- _]. right. reflexivity.
Qed.

Lemma sample_reopen_segments i t :
  0 <= i <= max_int →
  is_Some (files sample_reopen !! segment_file "/var/wal" i t) →
  (i = 1 ∧ t = false) ∨ (i = 2 ∧ t = true).
Proof.
  intros Hi H. apply sample_reopen_files in H as [E|E];
    apply segment_file_inj in E; auto; unfold max_int; lia.
Qed.

Lemma sample_reopen_dir : segment_dir "/var/wal" (files sample_reopen).
Proof.
  split.
  - intros name H _. apply sample_reopen_files in H as [->| ->].
    + exists 1, false. split; [unfold max_int; lia|reflexivity].
    + exists 2, true. split; [unfold max_int; lia|reflexivity].
  - intros i t t' Hi H H'.
    apply (sample_reopen_segments i t Hi) in H.
    apply (sample_reopen_segments i t' Hi) in H'.
    destruct H as [[-> ->]|[-> ->]], H' as [[? ->]|[? ->]];
      first [reflexivity | lia].
Qed.

End sample_directory_facts.

Section sweep_again_facts.

(** The loop of the sweep at or below the low mark does nothing. *)
Lemma cleanLog_loop_done n s :
  Z.of_nat n <= WAL.lowMark (wal s) → cleanLog_loop n s = Some (tt, s).
Proof.
  intros Hn. destruct n as [|n]; cbn [cleanLog_loop]; mstep.
  - change (Z.of_nat 0 - 1) with (-1).
    replace (WAL.lowMark (wal s) <=? -1) with false
      by (symmetry; apply Z.leb_gt; lia).
    reflexivity.
  - replace (WAL.lowMark (wal s) <=? Z.of_nat (S n) - 1) with false
      by (symmetry; apply Z.leb_gt; lia).
    reflexivity.
Qed.

(** After a sweep that ends in silence at most [lowMark] segments are
    left, and a second sweep does nothing. *)
Lemma cleanLog_again s s' :
  0 <= WAL.lowMark (wal s) →
  cleanLog s = Some (tt, s') → console s' = console s →
  Z.of_nat (length (WAL.segments (wal s'))) <= WAL.lowMark (wal s') ∧
  cleanLog s' = Some (tt, s').
Proof.
  intros Hlow Hrun Hcons. unfold cleanLog in Hrun. mstep.
  destruct (cleanLog_loop_inv _ s s' eq_refl Hrun)
    as (k & Hk & Hwal & Hheap & Hfiles & Hcase).
  assert (Hkk : Z.of_nat k = Z.min (WAL.lowMark (wal s))
                  (Z.of_nat (length (WAL.segments (wal s))))).
  { destruct Hcase as [[_ Hkk]|(j & -> & _ & Hc)]; [exact Hkk|].
    rewrite Hc in Hcons. apply (f_equal length) in Hcons.
    rewrite length_app in Hcons. simpl in Hcons. lia. }
  assert (Hlen : Z.of_nat (length (WAL.segments (wal s'))) <=
                 WAL.lowMark (wal s')).
  { rewrite Hwal. destruct (wal s) as [pa sg tl d lm li c].
    cbn [WAL.set_segments WAL.segments WAL.lowMark] in *.
    rewrite length_take. lia. }
  split; [exact Hlen|].
  unfold cleanLog. mstep. apply cleanLog_loop_done. exact Hlen.
Qed.

(** [Open] appends to the segments that the WAL has; it keeps them all. *)
Lemma Open_appends s s' :
  live s → Open s = Some (None, s') →
  indices s' = indices s ++ walk_indices (walked s) ∨
  indices s' =
    indices s ++ walk_indices (walked s) ++
    [int64 (walk_tail (walked s) (WAL.lastIndex (wal s)) + 1)].
Proof.
  intros Hlive H. apply Open_walk in H as [_ H]. fold (walked s) in H.
  destruct (Walk (walked s) Open_visit (tick s)) as [[[e|] s1]|] eqn:W;
    try discriminate.
  destruct (Walk_None _ (tick s) _ Hlive W) as (Hlive1 & Hi & Ht).
  change (indices (tick s)) with (indices s) in Hi.
  change (WAL.lastIndex (wal (tick s))) with (WAL.lastIndex (wal s)) in Ht.
  destruct (setupLastSegment_None _ _ Hlive1 H) as [[Hi' _]|[Hi' _]].
  - left. rewrite Hi', Hi. reflexivity.
  - right. rewrite Hi', Hi, Ht, <- app_assoc. reflexivity.
Qed.

End sweep_again_facts.

Section decode_facts.

Lemma byte_of_Z_of_byte b : byte_of_Z (Z_of_byte b) = b.
Proof. destruct b; reflexivity. Qed.

Lemma byte_of_Z_mod z : byte_of_Z (z mod 256) = byte_of_Z z.
Proof. unfold byte_of_Z. rewrite Z.mod_mod by lia. reflexivity. Qed.

Lemma byte_bit_high b n : 8 <= n → Z.testbit (Z_of_byte b) n = false.
Proof.
  intros Hn. pose proof (Z_of_byte_range b) as Hb.
  rewrite <- (Z.mod_small (Z_of_byte b) (2 ^ 8)) by (change (2 ^ 8) with 256; lia).
  apply Z.mod_pow2_bits_high. lia.
Qed.

(** The bit [n] of a byte laid at the bit [k]. *)
Lemma laid_testbit b k n :
  0 <= k → 0 <= n →
  Z.testbit (Z.shiftl (Z_of_byte b) k) n =
  (k <=? n) && (n <? k + 8) && Z.testbit (Z_of_byte b) (n - k).
Proof.
  intros Hk Hn. rewrite Z.shiftl_spec by lia.
  destruct (Z.leb_spec k n), (Z.ltb_spec n (k + 8)); cbn [andb].
  - reflexivity.
  - apply byte_bit_high. lia.
  - apply Z.testbit_neg_r. lia.
  - apply Z.testbit_neg_r. lia.
Qed.

(** The byte of a number at the bit [k], when the number is a byte laid
    there with nothing else over it. *)
Lemma byte_at v b k :
  0 <= k →
  (∀ n, 0 <= n < 8 → Z.testbit v (n + k) = Z.testbit (Z_of_byte b) n) →
  byte_of_Z (Z.shiftr v k) = b.
Proof.
  intros Hk H.
  transitivity (byte_of_Z (Z_of_byte b)); [|apply byte_of_Z_of_byte].
  rewrite <- byte_of_Z_mod. f_equal. pose proof (Z_of_byte_range b) as Hb.
  rewrite <- (Z.mod_small (Z_of_byte b) 256) by lia.
  change 256 with (2 ^ 8). apply Z.bits_inj'. intros n Hn.
  destruct (Z.lt_ge_cases n 8).
  - rewrite !Z.mod_pow2_bits_low by lia. rewrite Z.shiftr_spec by lia.
    apply H. lia.
  - rewrite !Z.mod_pow2_bits_high by lia. reflexivity.
Qed.

Ltac bits_of_field :=
  intros n Hn; rewrite !Z.lor_spec, ?laid_testbit by lia;
  decide_cmp; cbn [andb orb]; rewrite ?orb_false_r;
  try (rewrite byte_bit_high by lia; cbn [orb]);
  f_equal; lia.

(** Four bytes are what [PutUint32] writes for the number that [Uint32]
    reads in them. *)
Lemma PutUint32_Uint32 b v :
  length b = 4%nat → Uint32 b = Some v → PutUint32 v = b.
Proof.
  destruct b as [|b0 [|b1 [|b2 [|b3 [|? ?]]]]]; try discriminate.
  intros _ H. injection H as <-. unfold PutUint32.
  rewrite <- (Z.shiftr_0_r (Z.lor _ _)) at 1.
  repeat f_equal; apply byte_at; try lia; bits_of_field.
Qed.

Lemma PutUint64_Uint64 b v :
  length b = 8%nat → Uint64 b = Some v → PutUint64 v = b.
Proof.
  destruct b as [|b0 [|b1 [|b2 [|b3 [|b4 [|b5 [|b6 [|b7 [|? ?]]]]]]]]];
    try discriminate.
  intros _ H. injection H as <-. unfold PutUint64.
  rewrite <- (Z.shiftr_0_r (Z.lor _ _)) at 1.
  repeat f_equal; apply byte_at; try lia; bits_of_field.
Qed.

Lemma drop_take_drop {A} (l : list A) (n k : nat) :
  drop n l = take k (drop n l) ++ drop (n + k) l.
Proof. rewrite <- drop_drop, take_drop. reflexivity. Qed.

(** The bytes from [n] on, cut at the fields of a record with [ks] key
    bytes and [vs] value bytes. *)
Lemma record_fields (data : list byte) (n ks vs : nat) (b : byte) :
  data !! (n + 12)%nat = Some b →
  drop n data =
  take 4 (drop n data) ++ take 8 (drop (n + 4) data) ++ [b] ++
  take 8 (drop (n + 13) data) ++ take 8 (drop (n + 21) data) ++
  take ks (drop (n + 29) data) ++ take vs (drop (n + 29 + ks) data) ++
  drop (n + 29 + ks + vs) data.
Proof.
  intros Hb.
  etrans; [apply (drop_take_drop data n 4)|]. f_equal.
  etrans; [apply (drop_take_drop data (n + 4) 8)|]. f_equal.
  replace (n + 4 + 8)%nat with (n + 12)%nat by lia.
  rewrite (drop_S _ _ _ Hb). cbn [app]. f_equal.
  replace (S (n + 12)) with (n + 13)%nat by lia.
  etrans; [apply (drop_take_drop data (n + 13) 8)|]. f_equal.
  replace (n + 13 + 8)%nat with (n + 21)%nat by lia.
  etrans; [apply (drop_take_drop data (n + 21) 8)|]. f_equal.
  replace (n + 21 + 8)%nat with (n + 29)%nat by lia.
  etrans; [apply (drop_take_drop data (n + 29) ks)|]. f_equal.
  apply drop_take_drop.
Qed.

Lemma Uint32_fits b v : length b = 4%nat → Uint32 b = Some v → uint32 v = v.
Proof.
  intros Hl H. pose proof (PutUint32_Uint32 _ _ Hl H) as E.
  rewrite <- E in H. rewrite Uint32_PutUint32 in H. congruence.
Qed.

Lemma convert_step_whole data i e i' :
  convert_step (full data) i = Some (e, i') →
  ∃ r, drop (Z.to_nat i) data = Raw_bytes r ++ drop (Z.to_nat i') data ∧
       e = Raw_entry r ∧ 0 <= i ∧ i < i' ∧ i' <= Z.of_nat (length data).
Proof.
  intros H0. pose proof (convert_step_Some _ _ _ _ H0) as
    (ks & vs & HK & HV & Hi' & Hcap & Hlen).
  revert H0. unfold convert_step. intros H.
  repeat match type of H with
  | (?m ≫= _) = Some _ => destruct m eqn:?; cbn [mbind option_bind] in H;
                          [|discriminate]
  end.
  repeat match goal with
  | R : reslice _ _ _ = Some _ |- _ => apply reslice_Some in R
  end.
  injection H as <- Hnext.
  change C_SIZE with 4 in *. change CRC_SIZE with 12 in *.
  change TOMBSTONE_SIZE with 13 in *. change KEY_SIZE with 21 in *.
  change VALUE_SIZE with 29 in *.
  repeat match goal with
  | R : _ ∧ _ |- _ => destruct R
  end.
  assert (Hi : 0 <= i <= max_int) by lia.
  rewrite !(uint64_small (i + _)) in * by (unfold max_int in *; lia).
  unfold full, slice_cap, slice_len in *. cbn [elems Bytes.spare] in *.
  rewrite !app_nil_r in *.
  repeat match goal with
  | R : elems ?s = _, U : Uint64 (elems ?s) = _ |- _ => rewrite R in U
  | R : elems ?s = _, U : Uint32 (elems ?s) = _ |- _ => rewrite R in U
  end.
  replace (Z.to_nat (i + 4 - i)) with 4%nat in * by lia.
  replace (Z.to_nat (i + 12 - (i + 4))) with 8%nat in * by lia.
  replace (Z.to_nat (i + 21 - (i + 13))) with 8%nat in * by lia.
  replace (Z.to_nat (i + 29 - (i + 21))) with 8%nat in * by lia.
  assert (z1 = ks) by congruence. assert (z2 = vs) by congruence.
  subst z1 z2. cbn [length] in *. rewrite Nat.add_0_r in *.
  pose proof (Uint64_fits _ _ HK) as Hks. pose proof (Uint64_fits _ _ HV) as Hvs.
  assert (E1 : uint64 (i + 29 + ks) = i + 29 + ks)
    by (apply uint64_no_wrap; unfold max_int in *; lia).
  rewrite E1 in *.
  assert (E2 : uint64 (i + 29 + ks + vs) = i + 29 + ks + vs)
    by (apply uint64_no_wrap; unfold max_int in *; lia).
  rewrite E2 in *.
  replace (Z.to_nat (i + 29 + ks - (i + 29))) with (Z.to_nat ks) in * by lia.
  replace (Z.to_nat (i + 29 + ks + vs - (i + 29 + ks))) with (Z.to_nat vs)
    in * by lia.
  assert (Hb : data !! (Z.to_nat i + 12)%nat = Some b).
  { unfold index in Heqo3. cbn [elems] in Heqo3.
    destruct (_ && _) in Heqo3; [|discriminate].
    replace (Z.to_nat i + 12)%nat with (Z.to_nat (i + 12)) by lia.
    exact Heqo3. }
  assert (L4 : length (take 4 (drop (Z.to_nat i) data)) = 4%nat)
    by (rewrite length_take, length_drop; lia).
  assert (L8 : ∀ k, 0 <= k → i + k + 8 <= Z.of_nat (length data) →
                    length (take 8 (drop (Z.to_nat (i + k)) data)) = 8%nat)
    by (intros; rewrite length_take, length_drop; lia).
  assert (Lk : Z.of_nat (length (elems s3)) = ks)
    by (rewrite H8, length_take, length_drop; lia).
  assert (Lv : Z.of_nat (length (elems s4)) = vs)
    by (rewrite H3, length_take, length_drop; lia).
  exists (mkRaw z z0 b (elems s3) (elems s4)).
  split; [|split; [|lia]].
  - unfold Raw_bytes, raw_record. cbn [raw_crc raw_ts raw_tomb raw_key raw_value].
    rewrite Lk, Lv.
    rewrite (PutUint32_Uint32 _ _ L4 Heqo0).
    rewrite (PutUint64_Uint64 _ _ (L8 4 ltac:(lia) ltac:(lia)) Heqo2).
    rewrite (PutUint64_Uint64 _ _ (L8 13 ltac:(lia) ltac:(lia)) HK).
    rewrite (PutUint64_Uint64 _ _ (L8 21 ltac:(lia) ltac:(lia)) HV).
    rewrite H8, H3, <- !app_assoc.
    rewrite (record_fields data (Z.to_nat i) (Z.to_nat ks) (Z.to_nat vs) b Hb)
      at 1.
    subst i'.
    replace (Z.to_nat (i + 4)) with (Z.to_nat i + 4)%nat by lia.
    replace (Z.to_nat (i + 13)) with (Z.to_nat i + 13)%nat by lia.
    replace (Z.to_nat (i + 21)) with (Z.to_nat i + 21)%nat by lia.
    replace (Z.to_nat (i + 29)) with (Z.to_nat i + 29)%nat by lia.
    replace (Z.to_nat (i + 29 + ks))
      with (Z.to_nat i + 29 + Z.to_nat ks)%nat by lia.
    replace (Z.to_nat (i + 29 + ks + vs))
      with (Z.to_nat i + 29 + Z.to_nat ks + Z.to_nat vs)%nat by lia.
    reflexivity.
  - unfold Raw_entry, raw_entry. cbn [raw_crc raw_ts raw_tomb raw_key raw_value].
    rewrite (Uint32_fits _ _ L4 Heqo0).
    rewrite (uint64_small z0) by (eapply Uint64_fits; eassumption).
    destruct (Byte.eqb b x01); reflexivity.
Qed.

Lemma convert_loop_whole data :
  Z.of_nat (length data) <= max_int →
  ∀ (n : nat) i rez out,
    (Z.to_nat (Z.of_nat (length data) - i) < n)%nat →
    0 <= i <= Z.of_nat (length data) →
    convert_loop (full data) i rez = Some out →
    ∃ recs, drop (Z.to_nat i) data = concat (map Raw_bytes recs) ∧
            out = rez ++ map Raw_entry recs.
Proof.
  intros Hmax. induction n as [|n IH]; intros i rez out Hn Hi H; [lia|].
  rewrite convert_loop_eq in H.
  unfold slice_len, full in H. cbn [elems] in H. fold (full data) in H.
  rewrite uint64_small in H by (unfold max_int in Hmax; lia).
  destruct (Z.ltb_spec i (Z.of_nat (length data))) as [Hlt|Hge].
  - destruct (convert_step (full data) i) as [[e i']|] eqn:E; [|discriminate].
    cbn [fst snd] in H.
    apply convert_step_whole in E as (r & Hd & -> & _ & Hfw & Hcap).
    apply IH in H as (recs & Hrest & ->); [|lia|lia].
    exists (r :: recs). cbn [map concat]. rewrite Hd, Hrest.
    split; [reflexivity|]. rewrite <- app_assoc. reflexivity.
  - injection H as <-. exists []. cbn [map concat]. rewrite app_nil_r.
    split; [|reflexivity]. apply drop_ge. lia.
Qed.

(** [convert] returns on a slice without spare capacity exactly when its
    bytes are a sequence of complete records, and then with their
    entries. *)
Lemma convert_whole data es :
  Z.of_nat (length data) <= max_int →
  convert (full data) = Some es ↔
  ∃ recs, data = concat (map Raw_bytes recs) ∧ es = map Raw_entry recs.
Proof.
  intros Hmax. split.
  - unfold convert. unfold slice_len at 1. cbn [elems full].
    destruct (Z.eqb_spec (Z.of_nat (length data)) 0) as [E|E].
    + intros H. injection H as <-. exists []. split; [|reflexivity].
      destruct data; [reflexivity|discriminate].
    + intros H.
      apply (convert_loop_whole data Hmax
               (S (Z.to_nat (Z.of_nat (length data) - 0)))) in H; [|lia|lia].
      exact H.
  - intros (recs & -> & ->). apply convert_records.
    unfold slice_cap. cbn [elems Bytes.spare length]. lia.
Qed.

End decode_facts.

(** * The further properties, one by one *)

(** ** Indices and names *)

(** Property X1. [convertIndex] reads back the decimal form that
    [strconv.Itoa] gives to an index, for every [int64]; so the keys that
    [findInCache] and [cacheit] make of two different indices differ. *)
Theorem X1_convertIndex_reads_Itoa :
  (∀ i, - 2 ^ 63 <= i <= max_int → convertIndex (Itoa i) = Ok i) ∧
  (∀ i j, - 2 ^ 63 <= i <= max_int → - 2 ^ 63 <= j <= max_int →
          Itoa i = Itoa j → i = j).
Proof.
  split.
  - intros i Hi. unfold convertIndex. rewrite ParseInt_Itoa by exact Hi.
    reflexivity.
  - intros i j Hi Hj E. apply (f_equal ParseInt) in E.
    rewrite !ParseInt_Itoa in E by assumption. congruence.
Qed.

Lemma X1_convertIndex_reads_Itoa_witness :
  (- 2 ^ 63 <= -42 <= max_int ∧ Itoa (-42) = Itoa (-42)) ∧
  convertIndex (Itoa (-42)) = Ok (-42) ∧ -42 = -42.
Proof.
  assert (H : - 2 ^ 63 <= -42 <= max_int) by (unfold max_int; lia).
  assert (E : Itoa (-42) = Itoa (-42)) by reflexivity.
  refine (conj (conj H E) (conj _ _)).
  - exact (proj1 X1_convertIndex_reads_Itoa (-42) H).
  - exact (proj2 X1_convertIndex_reads_Itoa (-42) (-42) H H E).
Defined.

(** Property X2. [Open] reads the index back from the names that
    [newSegment] gives to the files. For an index from 0 to the largest
    [int64], the name of the tail is the directory, a slash, the index
    padded with zeros to twenty digits, and [_END.wal]; on that file
    [Open]'s function appends a segment with that path, the index and the
    size of the file, and sets [lastIndex] to the index. On the sealed name,
    without [_END], it appends the segment and leaves [lastIndex]. *)
Theorem X2_Open_reads_names_of_newSegment :
  (∀ dir i, tail_file dir i = dir +:+ "/" +:+ padded i +:+ "_END.wal") ∧
  (∀ dir i s content,
     0 <= i <= max_int → faults s (ticks s) = false →
     files s !! tail_file dir i = Some content →
     Open_visit (tail_file dir i) (padded i +:+ "_END.wal") s =
     Some (None,
           mkSys
             (WAL.mk (WAL.path (wal s))
                (WAL.segments (wal s) ++ [length (heap s)])
                (WAL.tail (wal s)) (WAL.d (wal s)) (WAL.lowMark (wal s))
                i (WAL.cache (wal s)))
             (heap s ++
              [Segment.mk (tail_file dir i) i (Z.of_nat (length content)) []])
             (files s) (console s) (S (ticks s)) (clock s) (faults s))) ∧
  (∀ dir i s content,
     0 <= i <= max_int → faults s (ticks s) = false →
     files s !! (dir +:+ "/" +:+ padded i +:+ ".wal") = Some content →
     Open_visit (dir +:+ "/" +:+ padded i +:+ ".wal") (padded i +:+ ".wal") s =
     Some (None,
           mkSys
             (WAL.mk (WAL.path (wal s))
                (WAL.segments (wal s) ++ [length (heap s)])
                (WAL.tail (wal s)) (WAL.d (wal s)) (WAL.lowMark (wal s))
                (WAL.lastIndex (wal s)) (WAL.cache (wal s)))
             (heap s ++
              [Segment.mk (dir +:+ "/" +:+ padded i +:+ ".wal") i
                 (Z.of_nat (length content)) []])
             (files s) (console s) (S (ticks s)) (clock s) (faults s))).
Proof.
  split_and!.
  - intros dir i. rewrite tail_file_padded, !string_app_assoc. reflexivity.
  - intros dir i s content Hi Hf Hfile.
    exact (Open_visit_run (tail_file dir i, padded i +:+ "_END.wal") s i true
             content (visit_tail_name dir i Hi) Hfile Hf).
  - intros dir i s content Hi Hf Hfile.
    exact (Open_visit_run
             (dir +:+ "/" +:+ padded i +:+ ".wal", padded i +:+ ".wal") s i
             false content (visit_sealed_name dir i Hi) Hfile Hf).
Qed.

Lemma X2_Open_reads_names_of_newSegment_witness :
  (0 <= 3 <= max_int ∧ faults sample_three (ticks sample_three) = false ∧
   files sample_three !! tail_file "/var/wal" 3 = Some [] ∧
   0 <= 2 <= max_int ∧
   files sample_three !! ("/var/wal" +:+ "/" +:+ padded 2 +:+ ".wal") =
     Some []) ∧
  tail_file "/var/wal" 3 = "/var/wal" +:+ "/" +:+ padded 3 +:+ "_END.wal" ∧
  Open_visit (tail_file "/var/wal" 3) (padded 3 +:+ "_END.wal") sample_three =
    Some (None,
          mkSys
            (WAL.mk (WAL.path (wal sample_three))
               (WAL.segments (wal sample_three) ++
                [length (heap sample_three)])
               (WAL.tail (wal sample_three)) (WAL.d (wal sample_three))
               (WAL.lowMark (wal sample_three)) 3
               (WAL.cache (wal sample_three)))
            (heap sample_three ++
             [Segment.mk (tail_file "/var/wal" 3) 3
                (Z.of_nat (length ([] : list byte))) []])
            (files sample_three) (console sample_three)
            (S (ticks sample_three)) (clock sample_three)
            (faults sample_three)) ∧
  Open_visit ("/var/wal" +:+ "/" +:+ padded 2 +:+ ".wal")
    (padded 2 +:+ ".wal") sample_three =
    Some (None,
          mkSys
            (WAL.mk (WAL.path (wal sample_three))
               (WAL.segments (wal sample_three) ++
                [length (heap sample_three)])
               (WAL.tail (wal sample_three)) (WAL.d (wal sample_three))
               (WAL.lowMark (wal sample_three))
               (WAL.lastIndex (wal sample_three))
               (WAL.cache (wal sample_three)))
            (heap sample_three ++
             [Segment.mk ("/var/wal" +:+ "/" +:+ padded 2 +:+ ".wal") 2
                (Z.of_nat (length ([] : list byte))) []])
            (files sample_three) (console sample_three)
            (S (ticks sample_three)) (clock sample_three)
            (faults sample_three)).
Proof.
  assert (H1 : 0 <= 3 <= max_int) by (unfold max_int; lia).
  assert (H2 : faults sample_three (ticks sample_three) = false)
    by reflexivity.
  assert (H3 : files sample_three !! tail_file "/var/wal" 3 = Some [])
    by (vm_compute; reflexivity).
  assert (H4 : 0 <= 2 <= max_int) by (unfold max_int; lia).
  assert (H5 : files sample_three
                 !! ("/var/wal" +:+ "/" +:+ padded 2 +:+ ".wal") = Some [])
    by (vm_compute; reflexivity).
  refine (conj (conj H1 (conj H2 (conj H3 (conj H4 H5)))) (conj _ (conj _ _))).
  - exact (proj1 X2_Open_reads_names_of_newSegment "/var/wal" 3).
  - exact (proj1 (proj2 X2_Open_reads_names_of_newSegment) "/var/wal" 3
             sample_three [] H1 H2 H3).
  - exact (proj2 (proj2 X2_Open_reads_names_of_newSegment) "/var/wal" 2
             sample_three [] H4 H2 H5).
Defined.

(** ** What [Set] and the rollover do when they fail *)

(** Property X3. [Set] panics in one case only, whatever the state of the
    WAL is (also before [Open], without a tail): when an element of the
    batch is a nil pointer, and then after the rollover has been done. In
    every other case it returns. When it returns an error, no segment that
    existed has changed and no byte of the batch is in a segment: either
    the rollover failed, and there is no new segment and [lastIndex] is the
    same; or the rollover was done and the append failed, and there is one
    new segment, without data, and [lastIndex] has moved to its index. *)
Theorem X3_Set_panics_only_at_nil :
  (∀ ts s,
     Set' ts s = None ↔
     None ∈ ts ∧ ∃ p s1, newSegment s = Some (Ok p, s1)) ∧
  (∀ ts s e s',
     Set' ts s = Some (Some e, s') →
     (heap s' = heap s ∧
      WAL.segments (wal s') = WAL.segments (wal s) ∧
      WAL.lastIndex (wal s') = WAL.lastIndex (wal s)) ∨
     (heap s' =
        heap s ++
        [Segment.mk (tail_file (WAL.path (wal s))
                       (int64 (WAL.lastIndex (wal s) + 1)))
           (int64 (WAL.lastIndex (wal s) + 1)) 0 []] ∧
      WAL.segments (wal s') = WAL.segments (wal s) ++ [length (heap s)] ∧
      WAL.lastIndex (wal s') = int64 (WAL.lastIndex (wal s) + 1))).
Proof.
  split.
  - intros ts s. destruct (pointers_or_nil ts) as [Hnil|[rs ->]].
    + rewrite (Set'_nil ts s Hnil).
      destruct (newSegment_total s) as [[[p|e] s1] Hn]; rewrite Hn.
      * split; [eauto|reflexivity].
      * split; [discriminate|]. intros (_ & p & s2 & [=]).
    + destruct (Set'_total rs s) as [r Hr]. rewrite Hr.
      split; [discriminate|]. intros [Hin _]. exfalso.
      apply list_elem_of_fmap in Hin as (x & [=] & _).
  - intros ts s e s' H. destruct (pointers_or_nil ts) as [Hnil|[rs ->]].
    + rewrite (Set'_nil ts s Hnil) in H.
      destruct (newSegment s) as [[[p|e0] s1]|] eqn:Hn; try discriminate.
      injection H as <- <-. left.
      destruct (newSegment_Err _ _ _ Hn) as (H1 & H2 & H3 & _). auto.
    + destruct (Set'_Err _ _ _ _ H) as [Hn|(s1 & Hn & _ & Hwal & Hheap & _)].
      * left. destruct (newSegment_Err _ _ _ Hn) as (H1 & H2 & H3 & _). auto.
      * right. pose proof (newSegment_Ok _ _ _ Hn) as (_ & Hheap1 & Hwal1 & _).
        rewrite Hheap, Hwal, Hheap1, Hwal1. auto.
Qed.

Lemma X3_Set_panics_only_at_nil_witness :
  let s := sample_sweep 1 (λ n, Nat.eqb n 3) in
  let ts := [Some (mkT "a" [x31] false)] in
  Set' ts s =
    Some (Some (ErrOS "update" "/var/wal/00000000000000000004_END.wal"),
          state_after (Set' ts) s) ∧
  Set' [Some (mkT "a" [x31] false); None] sample_opened = None ∧
  (Set' [Some (mkT "a" [x31] false); None] sample_opened = None ↔
   None ∈ [Some (mkT "a" [x31] false); None] ∧
   ∃ p s1, newSegment sample_opened = Some (Ok p, s1)) ∧
  ((heap (state_after (Set' ts) s) = heap s ∧
    WAL.segments (wal (state_after (Set' ts) s)) = WAL.segments (wal s) ∧
    WAL.lastIndex (wal (state_after (Set' ts) s)) = WAL.lastIndex (wal s)) ∨
   (heap (state_after (Set' ts) s) =
      heap s ++
      [Segment.mk (tail_file (WAL.path (wal s))
                     (int64 (WAL.lastIndex (wal s) + 1)))
         (int64 (WAL.lastIndex (wal s) + 1)) 0 []] ∧
    WAL.segments (wal (state_after (Set' ts) s)) =
      WAL.segments (wal s) ++ [length (heap s)] ∧
    WAL.lastIndex (wal (state_after (Set' ts) s)) =
      int64 (WAL.lastIndex (wal s) + 1))).
Proof.
  intros s ts.
  assert (H : Set' ts s =
              Some (Some (ErrOS "update"
                            "/var/wal/00000000000000000004_END.wal"),
                    state_after (Set' ts) s))
    by (vm_compute; reflexivity).
  assert (N : Set' [Some (mkT "a" [x31] false); None] sample_opened = None)
    by (vm_compute; reflexivity).
  refine (conj H (conj N (conj _ _))).
  - exact (proj1 X3_Set_panics_only_at_nil _ _).
  - exact (proj2 X3_Set_panics_only_at_nil _ _ _ _ H).
Defined.

(** Property X4. A rollover that fails adds no segment and keeps
    [lastIndex], the segments and what was printed. It fails in one of two
    ways. The renaming of the file of the previous tail failed: then no
    file has changed and the handle of the tail is closed. Or the file of
    the new tail could not be opened: then the previous tail is already
    renamed and the WAL has no handle of a tail. *)
Theorem X4_failed_rollover (s : Sys) (e : error) (s' : Sys) :
  newSegment s = Some (Err e, s') →
  heap s' = heap s ∧
  WAL.segments (wal s') = WAL.segments (wal s) ∧
  WAL.lastIndex (wal s') = WAL.lastIndex (wal s) ∧
  console s' = console s ∧
  ((∃ h, WAL.tail (wal s) = Some h ∧
         e = ErrOS "rename" (file_name h) ∧
         files s' = files s ∧
         WAL.tail (wal s') = Some (fmmap_Close h)) ∨
   (e = ErrOS "open" (tail_file (WAL.path (wal s))
                        (int64 (WAL.lastIndex (wal s) + 1))) ∧
    files s' = sealed_files s ∧
    WAL.tail (wal s') = None)).
Proof. apply newSegment_Err. Qed.

Lemma X4_failed_rollover_witness :
  newSegment (sample_sweep 1 (λ n, Nat.eqb n 1)) =
    Some (Err (ErrOS "open" "/var/wal/00000000000000000004_END.wal"),
          state_after newSegment (sample_sweep 1 (λ n, Nat.eqb n 1))) ∧
  heap (state_after newSegment (sample_sweep 1 (λ n, Nat.eqb n 1))) =
    heap (sample_sweep 1 (λ n, Nat.eqb n 1)) ∧
  WAL.segments (wal (state_after newSegment
                       (sample_sweep 1 (λ n, Nat.eqb n 1)))) =
    WAL.segments (wal (sample_sweep 1 (λ n, Nat.eqb n 1))) ∧
  WAL.lastIndex (wal (state_after newSegment
                        (sample_sweep 1 (λ n, Nat.eqb n 1)))) =
    WAL.lastIndex (wal (sample_sweep 1 (λ n, Nat.eqb n 1))) ∧
  console (state_after newSegment (sample_sweep 1 (λ n, Nat.eqb n 1))) =
    console (sample_sweep 1 (λ n, Nat.eqb n 1)) ∧
  ((∃ h, WAL.tail (wal (sample_sweep 1 (λ n, Nat.eqb n 1))) = Some h ∧
         ErrOS "open" "/var/wal/00000000000000000004_END.wal" =
           ErrOS "rename" (file_name h) ∧
         files (state_after newSegment (sample_sweep 1 (λ n, Nat.eqb n 1))) =
           files (sample_sweep 1 (λ n, Nat.eqb n 1)) ∧
         WAL.tail (wal (state_after newSegment
                          (sample_sweep 1 (λ n, Nat.eqb n 1)))) =
           Some (fmmap_Close h)) ∨
   (ErrOS "open" "/var/wal/00000000000000000004_END.wal" =
      ErrOS "open"
        (tail_file (WAL.path (wal (sample_sweep 1 (λ n, Nat.eqb n 1))))
           (int64 (WAL.lastIndex (wal (sample_sweep 1 (λ n, Nat.eqb n 1)))
                   + 1))) ∧
    files (state_after newSegment (sample_sweep 1 (λ n, Nat.eqb n 1))) =
      sealed_files (sample_sweep 1 (λ n, Nat.eqb n 1)) ∧
    WAL.tail (wal (state_after newSegment
                     (sample_sweep 1 (λ n, Nat.eqb n 1)))) = None)).
Proof.
  assert (H : newSegment (sample_sweep 1 (λ n, Nat.eqb n 1)) =
              Some (Err (ErrOS "open"
                           "/var/wal/00000000000000000004_END.wal"),
                    state_after newSegment
                      (sample_sweep 1 (λ n, Nat.eqb n 1))))
    by (vm_compute; reflexivity).
  exact (conj H (X4_failed_rollover _ _ _ H)).
Defined.

(** ** Writing and reading back *)

(** Property X5. What [Set] has written, [ReadConverted] returns. After a
    [Set] that succeeds on a WAL whose segments are strictly sorted and not
    above [lastIndex], with [lastIndex] below the largest [int64], when no
    file had the name of the new tail and the batch fits a slice, [ReadConverted] of any index from the new
    [lastIndex] on returns one entry per record of the batch, in order,
    with its key, value, deleted flag, the CRC-32 of the value and the time
    of its encoding; it changes nothing but the count of system calls. *)
Theorem X5_Set_then_ReadConverted (ts : list T) (s s' : Sys) (index : Z) :
  Set' (pointers ts) s = Some (None, s') →
  live s → ordered s →
  - 2 ^ 63 <= WAL.lastIndex (wal s) < max_int →
  files s !! tail_file (WAL.path (wal s)) (WAL.lastIndex (wal s) + 1) = None →
  (∀ h, WAL.tail (wal s) = Some h →
        Replace (file_name h) END_EXT EmptyString ≠
        tail_file (WAL.path (wal s)) (WAL.lastIndex (wal s) + 1)) →
  Z.of_nat (batch_size ts) <= max_int →
  faults s' (ticks s') = false →
  WAL.lastIndex (wal s') <= index →
  ∃ t0,
    ReadConverted index s' =
    Some (Ok (map expected_entry (stamp (clock s) t0 ts)),
          mkSys (wal s') (heap s') (files s') (console s') (S (ticks s'))
            (clock s') (faults s')).
Proof. apply Set'_read_back. Qed.

Lemma X5_Set_then_ReadConverted_witness :
  (Set' (pointers sample_batch) sample_opened = Some (None, sample_written) ∧
   live sample_opened ∧ ordered sample_opened ∧
   - 2 ^ 63 <= WAL.lastIndex (wal sample_opened) < max_int ∧
   files sample_opened
     !! tail_file (WAL.path (wal sample_opened))
          (WAL.lastIndex (wal sample_opened) + 1) = None ∧
   (∀ h, WAL.tail (wal sample_opened) = Some h →
         Replace (file_name h) END_EXT EmptyString ≠
         tail_file (WAL.path (wal sample_opened))
           (WAL.lastIndex (wal sample_opened) + 1)) ∧
   Z.of_nat (batch_size sample_batch) <= max_int ∧
   faults sample_written (ticks sample_written) = false ∧
   WAL.lastIndex (wal sample_written) <= 5) ∧
  ∃ t0,
    ReadConverted 5 sample_written =
    Some (Ok (map expected_entry (stamp (clock sample_opened) t0 sample_batch)),
          mkSys (wal sample_written) (heap sample_written)
            (files sample_written) (console sample_written)
            (S (ticks sample_written)) (clock sample_written)
            (faults sample_written)).
Proof.
  assert (H1 : Set' (pointers sample_batch) sample_opened = Some (None, sample_written))
    by (vm_compute; reflexivity).
  assert (H2 : live sample_opened).
  { unfold live. simpl. repeat constructor. eexists. reflexivity. }
  assert (H3 : ordered sample_opened).
  { split; change (indices sample_opened) with [1].
    - apply increasing_cons; [constructor|apply increasing_nil].
    - simpl. constructor; [lia|constructor]. }
  assert (H4 : - 2 ^ 63 <= WAL.lastIndex (wal sample_opened) < max_int)
    by (simpl; unfold max_int; lia).
  assert (H5 : files sample_opened
                 !! tail_file (WAL.path (wal sample_opened))
                      (WAL.lastIndex (wal sample_opened) + 1) = None)
    by (vm_compute; reflexivity).
  assert (H6 : ∀ h, WAL.tail (wal sample_opened) = Some h →
                    Replace (file_name h) END_EXT EmptyString ≠
                    tail_file (WAL.path (wal sample_opened))
                      (WAL.lastIndex (wal sample_opened) + 1)).
  { intros h Hh. injection Hh as <-. vm_compute. discriminate. }
  assert (H7 : Z.of_nat (batch_size sample_batch) <= max_int)
    by (vm_compute; discriminate).
  assert (H8 : faults sample_written (ticks sample_written) = false)
    by (vm_compute; reflexivity).
  assert (H9 : WAL.lastIndex (wal sample_written) <= 5)
    by (vm_compute; discriminate).
  refine (conj (conj H1 (conj H2 (conj H3 (conj H4 (conj H5 (conj H6
            (conj H7 (conj H8 H9)))))))) _).
  exact (X5_Set_then_ReadConverted sample_batch sample_opened sample_written 5
           H1 H2 H3 H4 H5 H6 H7 H8 H9).
Defined.

(** Property X6. After an [Open] that succeeds on a WAL without segments,
    the handle of the tail is open on the file of a segment of [segments]
    whose index is [lastIndex]; that file exists, the segment holds
    exactly its bytes, and [TailPath] returns its path. *)
Theorem X6_Open_sets_up_the_tail (s s' : Sys) :
  WAL.segments (wal s) = [] → Open s = Some (None, s') →
  ∃ p seg,
    p ∈ WAL.segments (wal s') ∧ heap s' !! p = Some seg ∧
    Segment.index seg = WAL.lastIndex (wal s') ∧
    WAL.tail (wal s') = Some (mkFMMAP (Segment.path seg) false) ∧
    files s' !! Segment.path seg = Some (Segment.data seg) ∧
    TailPath s' = Some (Ok (Segment.path seg), s').
Proof. apply Open_tail. Qed.

Lemma X6_Open_sets_up_the_tail_witness :
  (WAL.segments (wal sample_reopen) = [] ∧
   Open sample_reopen = Some (None, state_after Open sample_reopen)) ∧
  ∃ p seg,
    p ∈ WAL.segments (wal (state_after Open sample_reopen)) ∧
    heap (state_after Open sample_reopen) !! p = Some seg ∧
    Segment.index seg = WAL.lastIndex (wal (state_after Open sample_reopen)) ∧
    WAL.tail (wal (state_after Open sample_reopen)) =
      Some (mkFMMAP (Segment.path seg) false) ∧
    files (state_after Open sample_reopen) !! Segment.path seg =
      Some (Segment.data seg) ∧
    TailPath (state_after Open sample_reopen) =
      Some (Ok (Segment.path seg), state_after Open sample_reopen).
Proof.
  assert (H1 : WAL.segments (wal sample_reopen) = []) by reflexivity.
  assert (H2 : Open sample_reopen = Some (None, state_after Open sample_reopen))
    by (vm_compute; reflexivity).
  exact (conj (conj H1 H2) (X6_Open_sets_up_the_tail _ _ H1 H2)).
Defined.

(** ** Reading below [lastIndex] *)

(** Property X7. [Read] of an index below [lastIndex] that is not in the
    cache and that no segment has returns the error "Segment do not exists"
    and changes nothing: it creates no segment and no file. The segments
    need not be sorted. *)
Theorem X7_Read_of_a_missing_index (s : Sys) (index : Z) :
  live s → index < WAL.lastIndex (wal s) →
  (lru_Get (Itoa index) (WAL.cache (wal s))).1 = None →
  index ∉ indices s →
  Read index s = Some (Err ErrNoSegment, s).
Proof. apply Read_missing. Qed.

Lemma X7_Read_of_a_missing_index_witness :
  (live sample_three ∧ 0 < WAL.lastIndex (wal sample_three) ∧
   (lru_Get (Itoa 0) (WAL.cache (wal sample_three))).1 = None ∧
   0 ∉ indices sample_three) ∧
  Read 0 sample_three = Some (Err ErrNoSegment, sample_three).
Proof.
  assert (H1 : live sample_three).
  { unfold live. simpl. repeat constructor; eexists; reflexivity. }
  assert (H2 : 0 < WAL.lastIndex (wal sample_three)) by (simpl; lia).
  assert (H3 : (lru_Get (Itoa 0) (WAL.cache (wal sample_three))).1 = None)
    by reflexivity.
  assert (H4 : 0 ∉ indices sample_three).
  { change (indices sample_three) with [1; 2; 3]. intros H.
    repeat (apply elem_of_cons in H as [H|H]; [discriminate|]).
    by apply elem_of_nil in H. }
  exact (conj (conj H1 (conj H2 (conj H3 H4)))
           (X7_Read_of_a_missing_index sample_three 0 H1 H2 H3 H4)).
Defined.

(** Property X8. [Read] of the index of a segment below [lastIndex], on
    strictly sorted segments and with the index not in the cache, returns
    the bytes of the file at the path of the segment (no bytes when there
    is no such file, which the opening then creates), and puts them in the
    cache under the decimal form of the index. The segments are unchanged;
    the file is opened twice. *)
Theorem X8_Read_of_a_sealed_segment (s : Sys) (index : Z) (k p : nat)
    (seg : Segment.t) :
  live s → increasing (indices s) →
  index < WAL.lastIndex (wal s) →
  (lru_Get (Itoa index) (WAL.cache (wal s))).1 = None →
  WAL.segments (wal s) !! k = Some p → heap s !! p = Some seg →
  Segment.index seg = index →
  faults s (ticks s) = false → faults s (S (ticks s)) = false →
  Read index s =
  Some (Ok (full (default [] (files s !! Segment.path seg))),
        mkSys
          (WAL.set_cache
             (lru_Put (Itoa index)
                (default [] (files s !! Segment.path seg))
                (WAL.cache (wal s))).2 (wal s))
          (heap s) (created (Segment.path seg) (files s)) (console s)
          (S (S (ticks s))) (clock s) (faults s)).
Proof. apply Read_sealed. Qed.

Lemma X8_Read_of_a_sealed_segment_witness :
  (live sample_reopened ∧ increasing (indices sample_reopened) ∧
   1 < WAL.lastIndex (wal sample_reopened) ∧
   (lru_Get (Itoa 1) (WAL.cache (wal sample_reopened))).1 = None ∧
   WAL.segments (wal sample_reopened) !! 0%nat = Some 0%nat ∧
   heap sample_reopened !! 0%nat =
     Some (Segment.mk "/var/wal/00000000000000000001.wal" 1 1 []) ∧
   Segment.index (Segment.mk "/var/wal/00000000000000000001.wal" 1 1 []) = 1 ∧
   faults sample_reopened (ticks sample_reopened) = false ∧
   faults sample_reopened (S (ticks sample_reopened)) = false) ∧
  Read 1 sample_reopened =
  Some (Ok (full (default []
               (files sample_reopened
                  !! Segment.path
                       (Segment.mk "/var/wal/00000000000000000001.wal" 1 1
                          [])))),
        mkSys
          (WAL.set_cache
             (lru_Put (Itoa 1)
                (default []
                   (files sample_reopened
                      !! Segment.path
                           (Segment.mk "/var/wal/00000000000000000001.wal" 1
                              1 [])))
                (WAL.cache (wal sample_reopened))).2 (wal sample_reopened))
          (heap sample_reopened)
          (created
             (Segment.path
                (Segment.mk "/var/wal/00000000000000000001.wal" 1 1 []))
             (files sample_reopened))
          (console sample_reopened) (S (S (ticks sample_reopened)))
          (clock sample_reopened) (faults sample_reopened)).
Proof.
  assert (H1 : live sample_reopened).
  { unfold live. simpl. repeat constructor; eexists; reflexivity. }
  assert (H2 : increasing (indices sample_reopened)).
  { change (indices sample_reopened) with [1; 2].
    repeat (apply increasing_cons;
            [repeat (constructor; [lia|]); constructor|]).
    apply increasing_nil. }
  assert (H3 : 1 < WAL.lastIndex (wal sample_reopened)) by (simpl; lia).
  assert (H4 : (lru_Get (Itoa 1) (WAL.cache (wal sample_reopened))).1 = None)
    by reflexivity.
  assert (H5 : WAL.segments (wal sample_reopened) !! 0%nat = Some 0%nat)
    by reflexivity.
  assert (H6 : heap sample_reopened !! 0%nat =
               Some (Segment.mk "/var/wal/00000000000000000001.wal" 1 1 []))
    by reflexivity.
  assert (H7 : Segment.index
                 (Segment.mk "/var/wal/00000000000000000001.wal" 1 1 []) = 1)
    by reflexivity.
  assert (H8 : faults sample_reopened (ticks sample_reopened) = false)
    by reflexivity.
  assert (H9 : faults sample_reopened (S (ticks sample_reopened)) = false)
    by reflexivity.
  exact (conj (conj H1 (conj H2 (conj H3 (conj H4 (conj H5 (conj H6
                 (conj H7 (conj H8 H9))))))))
           (X8_Read_of_a_sealed_segment sample_reopened 1 0%nat 0%nat _
              H1 H2 H3 H4 H5 H6 H7 H8 H9)).
Defined.

(** Property X9. A second [Read] of the same index is served from the
    cache: after the [Read] of X8, with a cache of positive capacity, the
    same [Read] returns the same bytes and changes nothing at all: no file
    is opened and the cache stays as it is. *)
Theorem X9_second_Read_from_cache (s : Sys) (index : Z) (k p : nat)
    (seg : Segment.t) :
  live s → increasing (indices s) →
  index < WAL.lastIndex (wal s) →
  (lru_Get (Itoa index) (WAL.cache (wal s))).1 = None →
  0 < capacity (WAL.cache (wal s)) →
  WAL.segments (wal s) !! k = Some p → heap s !! p = Some seg →
  Segment.index seg = index →
  faults s (ticks s) = false → faults s (S (ticks s)) = false →
  ∃ s1,
    Read index s =
      Some (Ok (full (default [] (files s !! Segment.path seg))), s1) ∧
    Read index s1 =
      Some (Ok (full (default [] (files s !! Segment.path seg))), s1).
Proof. apply Read_twice. Qed.

Lemma X9_second_Read_from_cache_witness :
  (live sample_reopened ∧ increasing (indices sample_reopened) ∧
   1 < WAL.lastIndex (wal sample_reopened) ∧
   (lru_Get (Itoa 1) (WAL.cache (wal sample_reopened))).1 = None ∧
   0 < capacity (WAL.cache (wal sample_reopened)) ∧
   WAL.segments (wal sample_reopened) !! 0%nat = Some 0%nat ∧
   heap sample_reopened !! 0%nat =
     Some (Segment.mk "/var/wal/00000000000000000001.wal" 1 1 []) ∧
   Segment.index (Segment.mk "/var/wal/00000000000000000001.wal" 1 1 []) = 1 ∧
   faults sample_reopened (ticks sample_reopened) = false ∧
   faults sample_reopened (S (ticks sample_reopened)) = false) ∧
  ∃ s1,
    Read 1 sample_reopened =
      Some (Ok (full (default []
                  (files sample_reopened
                     !! Segment.path
                          (Segment.mk "/var/wal/00000000000000000001.wal" 1 1
                             [])))), s1) ∧
    Read 1 s1 =
      Some (Ok (full (default []
                  (files sample_reopened
                     !! Segment.path
                          (Segment.mk "/var/wal/00000000000000000001.wal" 1 1
                             [])))), s1).
Proof.
  assert (H1 : live sample_reopened).
  { unfold live. simpl. repeat constructor; eexists; reflexivity. }
  assert (H2 : increasing (indices sample_reopened)).
  { change (indices sample_reopened) with [1; 2].
    repeat (apply increasing_cons;
            [repeat (constructor; [lia|]); constructor|]).
    apply increasing_nil. }
  assert (H3 : 1 < WAL.lastIndex (wal sample_reopened)) by (simpl; lia).
  assert (H4 : (lru_Get (Itoa 1) (WAL.cache (wal sample_reopened))).1 = None)
    by reflexivity.
  assert (Hc : 0 < capacity (WAL.cache (wal sample_reopened)))
    by (simpl; lia).
  assert (H5 : WAL.segments (wal sample_reopened) !! 0%nat = Some 0%nat)
    by reflexivity.
  assert (H6 : heap sample_reopened !! 0%nat =
               Some (Segment.mk "/var/wal/00000000000000000001.wal" 1 1 []))
    by reflexivity.
  assert (H7 : Segment.index
                 (Segment.mk "/var/wal/00000000000000000001.wal" 1 1 []) = 1)
    by reflexivity.
  assert (H8 : faults sample_reopened (ticks sample_reopened) = false)
    by reflexivity.
  assert (H9 : faults sample_reopened (S (ticks sample_reopened)) = false)
    by reflexivity.
  exact (conj (conj H1 (conj H2 (conj H3 (conj H4 (conj Hc (conj H5 (conj H6
                 (conj H7 (conj H8 H9)))))))))
           (X9_second_Read_from_cache sample_reopened 1 0%nat 0%nat _
              H1 H2 H3 H4 Hc H5 H6 H7 H8 H9)).
Defined.

(** ** The files and the paths at a rollover *)

(** Property X10. A rollover that succeeds on a WAL with a tail has found
    the file of that tail, and leaves its bytes under the name with every
    [_END] taken out; the file of the new tail exists; under the old name
    there is no file any more (when the two other names differ from it);
    every other file is as it was. The segments that existed are not
    touched: the segment of the previous tail keeps the path with [_END]. *)
Theorem X10_rollover_seals_the_file (s : Sys) (p : nat) (s' : Sys)
    (h : FMMAP) :
  newSegment s = Some (Ok p, s') → WAL.tail (wal s) = Some h →
  ∃ content,
    files s !! file_name h = Some content ∧
    files s' !! Replace (file_name h) END_EXT EmptyString = Some content ∧
    is_Some (files s' !! tail_file (WAL.path (wal s))
                           (int64 (WAL.lastIndex (wal s) + 1))) ∧
    (file_name h ≠ Replace (file_name h) END_EXT EmptyString →
     file_name h ≠ tail_file (WAL.path (wal s))
                     (int64 (WAL.lastIndex (wal s) + 1)) →
     files s' !! file_name h = None) ∧
    (∀ name,
       name ≠ file_name h →
       name ≠ Replace (file_name h) END_EXT EmptyString →
       name ≠ tail_file (WAL.path (wal s))
                (int64 (WAL.lastIndex (wal s) + 1)) →
       files s' !! name = files s !! name) ∧
    (∀ q seg, heap s !! q = Some seg → heap s' !! q = Some seg).
Proof. apply newSegment_seals. Qed.

Lemma X10_rollover_seals_the_file_witness :
  (newSegment sample_reopened =
     Some (Ok 2%nat, state_after newSegment sample_reopened) ∧
   WAL.tail (wal sample_reopened) =
     Some (mkFMMAP "/var/wal/00000000000000000002_END.wal" false)) ∧
  ∃ content,
    files sample_reopened
      !! file_name (mkFMMAP "/var/wal/00000000000000000002_END.wal" false) =
      Some content ∧
    files (state_after newSegment sample_reopened)
      !! Replace
           (file_name (mkFMMAP "/var/wal/00000000000000000002_END.wal" false))
           END_EXT EmptyString = Some content ∧
    is_Some (files (state_after newSegment sample_reopened)
               !! tail_file (WAL.path (wal sample_reopened))
                    (int64 (WAL.lastIndex (wal sample_reopened) + 1))) ∧
    (file_name (mkFMMAP "/var/wal/00000000000000000002_END.wal" false) ≠
       Replace
         (file_name (mkFMMAP "/var/wal/00000000000000000002_END.wal" false))
         END_EXT EmptyString →
     file_name (mkFMMAP "/var/wal/00000000000000000002_END.wal" false) ≠
       tail_file (WAL.path (wal sample_reopened))
         (int64 (WAL.lastIndex (wal sample_reopened) + 1)) →
     files (state_after newSegment sample_reopened)
       !! file_name (mkFMMAP "/var/wal/00000000000000000002_END.wal" false) =
       None) ∧
    (∀ name,
       name ≠
         file_name (mkFMMAP "/var/wal/00000000000000000002_END.wal" false) →
       name ≠
         Replace
           (file_name (mkFMMAP "/var/wal/00000000000000000002_END.wal" false))
           END_EXT EmptyString →
       name ≠ tail_file (WAL.path (wal sample_reopened))
                (int64 (WAL.lastIndex (wal sample_reopened) + 1)) →
       files (state_after newSegment sample_reopened) !! name =
         files sample_reopened !! name) ∧
    (∀ q seg, heap sample_reopened !! q = Some seg →
              heap (state_after newSegment sample_reopened) !! q = Some seg).
Proof.
  assert (H1 : newSegment sample_reopened =
               Some (Ok 2%nat, state_after newSegment sample_reopened))
    by (vm_compute; reflexivity).
  assert (H2 : WAL.tail (wal sample_reopened) =
               Some (mkFMMAP "/var/wal/00000000000000000002_END.wal" false))
    by reflexivity.
  exact (conj (conj H1 H2)
           (X10_rollover_seals_the_file sample_reopened 2%nat _ _ H1 H2)).
Defined.

(** Property X11. After a rollover the segment of the previous tail still
    has the path with [_END], under which no file is left. So a [Read] of
    its index (now below [lastIndex], and not in the cache) does not return
    the bytes that were written to it, which lie under the sealed name: it
    creates an empty file under the old name and returns no bytes. *)
Theorem X11_Read_after_rollover (s : Sys) (p : nat) (s1 : Sys) (h : FMMAP)
    (k q : nat) (seg : Segment.t) :
  newSegment s = Some (Ok p, s1) →
  live s → ordered s →
  - 2 ^ 63 <= WAL.lastIndex (wal s) < max_int →
  WAL.tail (wal s) = Some h →
  WAL.segments (wal s) !! k = Some q → heap s !! q = Some seg →
  Segment.path seg = file_name h →
  Segment.index seg = WAL.lastIndex (wal s) →
  file_name h ≠ Replace (file_name h) END_EXT EmptyString →
  file_name h ≠ tail_file (WAL.path (wal s)) (WAL.lastIndex (wal s) + 1) →
  (lru_Get (Itoa (WAL.lastIndex (wal s))) (WAL.cache (wal s))).1 = None →
  faults s1 (ticks s1) = false → faults s1 (S (ticks s1)) = false →
  ∃ content s2,
    files s !! file_name h = Some content ∧
    files s1 !! Replace (file_name h) END_EXT EmptyString = Some content ∧
    Read (WAL.lastIndex (wal s)) s1 = Some (Ok (full []), s2) ∧
    files s2 !! file_name h = Some [].
Proof. apply Read_after_rollover. Qed.

Lemma X11_Read_after_rollover_witness :
  (newSegment sample_loaded =
     Some (Ok 2%nat, state_after newSegment sample_loaded) ∧
   live sample_loaded ∧ ordered sample_loaded ∧
   - 2 ^ 63 <= WAL.lastIndex (wal sample_loaded) < max_int ∧
   WAL.tail (wal sample_loaded) =
     Some (mkFMMAP "/var/wal/00000000000000000002_END.wal" false) ∧
   WAL.segments (wal sample_loaded) !! 1%nat = Some 1%nat ∧
   heap sample_loaded !! 1%nat =
     Some (Segment.mk "/var/wal/00000000000000000002_END.wal" 2 2
             [x07; x08]) ∧
   Segment.path
     (Segment.mk "/var/wal/00000000000000000002_END.wal" 2 2 [x07; x08]) =
     file_name (mkFMMAP "/var/wal/00000000000000000002_END.wal" false) ∧
   Segment.index
     (Segment.mk "/var/wal/00000000000000000002_END.wal" 2 2 [x07; x08]) =
     WAL.lastIndex (wal sample_loaded) ∧
   file_name (mkFMMAP "/var/wal/00000000000000000002_END.wal" false) ≠
     Replace (file_name (mkFMMAP "/var/wal/00000000000000000002_END.wal" false))
       END_EXT EmptyString ∧
   file_name (mkFMMAP "/var/wal/00000000000000000002_END.wal" false) ≠
     tail_file (WAL.path (wal sample_loaded))
       (WAL.lastIndex (wal sample_loaded) + 1) ∧
   (lru_Get (Itoa (WAL.lastIndex (wal sample_loaded)))
      (WAL.cache (wal sample_loaded))).1 = None ∧
   faults (state_after newSegment sample_loaded)
     (ticks (state_after newSegment sample_loaded)) = false ∧
   faults (state_after newSegment sample_loaded)
     (S (ticks (state_after newSegment sample_loaded))) = false) ∧
  ∃ content s2,
    files sample_loaded
      !! file_name (mkFMMAP "/var/wal/00000000000000000002_END.wal" false) =
      Some content ∧
    files (state_after newSegment sample_loaded)
      !! Replace
           (file_name (mkFMMAP "/var/wal/00000000000000000002_END.wal" false))
           END_EXT EmptyString = Some content ∧
    Read (WAL.lastIndex (wal sample_loaded))
      (state_after newSegment sample_loaded) = Some (Ok (full []), s2) ∧
    files s2
      !! file_name (mkFMMAP "/var/wal/00000000000000000002_END.wal" false) =
      Some [].
Proof.
  assert (H1 : newSegment sample_loaded =
               Some (Ok 2%nat, state_after newSegment sample_loaded))
    by (vm_compute; reflexivity).
  assert (H2 : live sample_loaded).
  { unfold live. simpl. repeat constructor; eexists; reflexivity. }
  assert (H3 : ordered sample_loaded).
  { split; change (indices sample_loaded) with [1; 2].
    - repeat (apply increasing_cons;
              [repeat (constructor; [lia|]); constructor|]).
      apply increasing_nil.
    - simpl. repeat (constructor; [lia|]). constructor. }
  assert (H4 : - 2 ^ 63 <= WAL.lastIndex (wal sample_loaded) < max_int)
    by (simpl; unfold max_int; lia).
  assert (H5 : WAL.tail (wal sample_loaded) =
               Some (mkFMMAP "/var/wal/00000000000000000002_END.wal" false))
    by reflexivity.
  assert (H6 : WAL.segments (wal sample_loaded) !! 1%nat = Some 1%nat)
    by reflexivity.
  assert (H7 : heap sample_loaded !! 1%nat =
               Some (Segment.mk "/var/wal/00000000000000000002_END.wal" 2 2
                       [x07; x08])) by reflexivity.
  assert (H8 : Segment.path
                 (Segment.mk "/var/wal/00000000000000000002_END.wal" 2 2
                    [x07; x08]) =
               file_name
                 (mkFMMAP "/var/wal/00000000000000000002_END.wal" false))
    by reflexivity.
  assert (H9 : Segment.index
                 (Segment.mk "/var/wal/00000000000000000002_END.wal" 2 2
                    [x07; x08]) = WAL.lastIndex (wal sample_loaded))
    by reflexivity.
  assert (H10 : file_name
                  (mkFMMAP "/var/wal/00000000000000000002_END.wal" false) ≠
                Replace
                  (file_name
                     (mkFMMAP "/var/wal/00000000000000000002_END.wal" false))
                  END_EXT EmptyString) by (vm_compute; discriminate).
  assert (H11 : file_name
                  (mkFMMAP "/var/wal/00000000000000000002_END.wal" false) ≠
                tail_file (WAL.path (wal sample_loaded))
                  (WAL.lastIndex (wal sample_loaded) + 1))
    by (vm_compute; discriminate).
  assert (H12 : (lru_Get (Itoa (WAL.lastIndex (wal sample_loaded)))
                   (WAL.cache (wal sample_loaded))).1 = None) by reflexivity.
  assert (H13 : faults (state_after newSegment sample_loaded)
                  (ticks (state_after newSegment sample_loaded)) = false)
    by (vm_compute; reflexivity).
  assert (H14 : faults (state_after newSegment sample_loaded)
                  (S (ticks (state_after newSegment sample_loaded))) = false)
    by (vm_compute; reflexivity).
  exact (conj (conj H1 (conj H2 (conj H3 (conj H4 (conj H5 (conj H6 (conj H7
                 (conj H8 (conj H9 (conj H10 (conj H11 (conj H12
                    (conj H13 H14)))))))))))))
           (X11_Read_after_rollover sample_loaded 2%nat _ _ 1%nat 1%nat _
              H1 H2 H3 H4 H5 H6 H7 H8 H9 H10 H11 H12 H13 H14)).
Defined.

(** ** The sweep at its edges *)

(** Property X12. With a negative low mark a sweep never ends in silence:
    on a WAL without segments it panics at once, indexing [segments] at
    [-1]; and on any WAL, if it returns then it has printed the error of a
    removal that failed. *)
Theorem X12_sweep_with_negative_lowMark :
  (∀ s, WAL.lowMark (wal s) < 0 → WAL.segments (wal s) = [] →
        cleanLog s = None) ∧
  (∀ s s', WAL.lowMark (wal s) < 0 → cleanLog s = Some (tt, s') →
           console s' ≠ console s).
Proof. split; [apply cleanLog_negative_empty | apply cleanLog_negative]. Qed.

Lemma X12_sweep_with_negative_lowMark_witness :
  (WAL.lowMark (wal (with_wal (λ w, WAL.mk (WAL.path w) [] None (WAL.d w) (-1)
                                      0 (WAL.cache w)) sample_fresh)) < 0 ∧
   WAL.segments (wal (with_wal (λ w, WAL.mk (WAL.path w) [] None (WAL.d w)
                                       (-1) 0 (WAL.cache w)) sample_fresh)) =
     [] ∧
   WAL.lowMark (wal (sample_sweep (-1) (λ n, Nat.eqb n 2))) < 0 ∧
   cleanLog (sample_sweep (-1) (λ n, Nat.eqb n 2)) =
     Some (tt, state_after cleanLog (sample_sweep (-1) (λ n, Nat.eqb n 2)))) ∧
  cleanLog (with_wal (λ w, WAL.mk (WAL.path w) [] None (WAL.d w) (-1) 0
                             (WAL.cache w)) sample_fresh) = None ∧
  console (state_after cleanLog (sample_sweep (-1) (λ n, Nat.eqb n 2))) ≠
    console (sample_sweep (-1) (λ n, Nat.eqb n 2)).
Proof.
  assert (H1 : WAL.lowMark
                 (wal (with_wal (λ w, WAL.mk (WAL.path w) [] None (WAL.d w)
                                        (-1) 0 (WAL.cache w)) sample_fresh))
               < 0) by (simpl; lia).
  assert (H2 : WAL.segments
                 (wal (with_wal (λ w, WAL.mk (WAL.path w) [] None (WAL.d w)
                                        (-1) 0 (WAL.cache w)) sample_fresh)) =
               []) by reflexivity.
  assert (H3 : WAL.lowMark (wal (sample_sweep (-1) (λ n, Nat.eqb n 2))) < 0)
    by (simpl; lia).
  assert (H4 : cleanLog (sample_sweep (-1) (λ n, Nat.eqb n 2)) =
               Some (tt, state_after cleanLog
                           (sample_sweep (-1) (λ n, Nat.eqb n 2))))
    by (vm_compute; reflexivity).
  refine (conj (conj H1 (conj H2 (conj H3 H4))) (conj _ _)).
  - exact (proj1 X12_sweep_with_negative_lowMark _ H1 H2).
  - exact (proj2 X12_sweep_with_negative_lowMark _ _ H3 H4).
Defined.

(** Property X13. A sweep removes the tail as any other segment. After a
    sweep that ends in silence and whose range holds the segment of the
    tail, the file of the tail is gone while the handle stays; then every
    [Set] fails with the error of the renaming, writes nothing, adds no
    segment, and leaves the WAL in that same condition, so that the next
    [Set] fails as well. *)
Theorem X13_Set_after_the_tail_was_swept (s s' : Sys) (h : FMMAP) (i p : nat)
    (ts : list T) :
  cleanLog s = Some (tt, s') → console s' = console s →
  WAL.tail (wal s) = Some h →
  WAL.lowMark (wal s) <= Z.of_nat i →
  WAL.segments (wal s) !! i = Some p → seg_path s p = file_name h →
  ∃ s2,
    Set' (pointers ts) s' = Some (Some (ErrOS "rename" (file_name h)), s2) ∧
    heap s2 = heap s' ∧ files s2 = files s' ∧
    WAL.segments (wal s2) = WAL.segments (wal s') ∧
    WAL.lastIndex (wal s2) = WAL.lastIndex (wal s') ∧
    WAL.tail (wal s2) = Some (fmmap_Close h) ∧
    files s2 !! file_name (fmmap_Close h) = None.
Proof.
  intros Hrun Hcons Htail Hi Hp Hpath.
  destruct (cleanLog_removes s s' i p Hrun Hcons Hi Hp) as [Hgone Ht].
  rewrite Hpath in Hgone. rewrite Htail in Ht.
  eexists. split; [apply (Set'_tail_gone ts s' h Ht Hgone)|].
  cbn [heap files wal]. destruct (wal s').
  cbn [WAL.set_tail WAL.segments WAL.lastIndex WAL.tail fmmap_Close file_name].
  split_and!; try reflexivity. exact Hgone.
Qed.

Lemma X13_Set_after_the_tail_was_swept_witness :
  (cleanLog sample_three = Some (tt, sample_swept) ∧
   console sample_swept = console sample_three ∧
   WAL.tail (wal sample_three) =
     Some (mkFMMAP "/var/wal/00000000000000000003_END.wal" false) ∧
   WAL.lowMark (wal sample_three) <= Z.of_nat 2 ∧
   WAL.segments (wal sample_three) !! 2%nat = Some 2%nat ∧
   seg_path sample_three 2 =
     file_name (mkFMMAP "/var/wal/00000000000000000003_END.wal" false)) ∧
  ∃ s2,
    Set' (pointers sample_batch) sample_swept =
      Some (Some (ErrOS "rename"
                    (file_name
                       (mkFMMAP "/var/wal/00000000000000000003_END.wal"
                          false))), s2) ∧
    heap s2 = heap sample_swept ∧ files s2 = files sample_swept ∧
    WAL.segments (wal s2) = WAL.segments (wal sample_swept) ∧
    WAL.lastIndex (wal s2) = WAL.lastIndex (wal sample_swept) ∧
    WAL.tail (wal s2) =
      Some (fmmap_Close
              (mkFMMAP "/var/wal/00000000000000000003_END.wal" false)) ∧
    files s2
      !! file_name
           (fmmap_Close
              (mkFMMAP "/var/wal/00000000000000000003_END.wal" false)) = None.
Proof.
  assert (H1 : cleanLog sample_three = Some (tt, sample_swept))
    by (vm_compute; reflexivity).
  assert (H2 : console sample_swept = console sample_three)
    by (vm_compute; reflexivity).
  assert (H3 : WAL.tail (wal sample_three) =
               Some (mkFMMAP "/var/wal/00000000000000000003_END.wal" false))
    by reflexivity.
  assert (H4 : WAL.lowMark (wal sample_three) <= Z.of_nat 2)
    by (vm_compute; discriminate).
  assert (H5 : WAL.segments (wal sample_three) !! 2%nat = Some 2%nat)
    by reflexivity.
  assert (H6 : seg_path sample_three 2 =
               file_name
                 (mkFMMAP "/var/wal/00000000000000000003_END.wal" false))
    by reflexivity.
  exact (conj (conj H1 (conj H2 (conj H3 (conj H4 (conj H5 H6)))))
           (X13_Set_after_the_tail_was_swept sample_three sample_swept _
              2%nat 2%nat sample_batch H1 H2 H3 H4 H5 H6)).
Defined.

(** ** Opening the directory again *)

(** Property X14. The names that [newSegment] gives to the files put them
    in the order of their indices: for two indices from 0 to the largest
    [int64] the base names, sealed or tail, compare in the lexical order
    as the indices do, and a path tells the index and the mark. So in the
    walk of a directory in which every file is the file of a segment and no
    index has two files, the indices ascend strictly. *)
Theorem X14_names_keep_the_order_of_indices :
  (∀ i j t t',
     0 <= i <= max_int → 0 <= j <= max_int → i < j →
     String.compare (segment_base i t) (segment_base j t') = Lt) ∧
  (∀ dir i j t t',
     0 <= i <= max_int → 0 <= j <= max_int →
     segment_file dir i t = segment_file dir j t' → i = j ∧ t = t') ∧
  (∀ dir fs, segment_dir dir fs →
             increasing (walk_indices (walk_files dir fs))).
Proof.
  split_and!.
  - apply compare_segment_base.
  - intros dir i j t t'. apply segment_file_inj.
  - apply walk_indices_increasing.
Qed.

Lemma X14_names_keep_the_order_of_indices_witness :
  (0 <= 1 <= max_int ∧ 0 <= 2 <= max_int ∧ 1 < 2 ∧
   segment_file "/var/wal" 1 false = segment_file "/var/wal" 1 false ∧
   segment_dir "/var/wal" (files sample_reopen)) ∧
  String.compare (segment_base 1 false) (segment_base 2 true) = Lt ∧
  (1 = 1 ∧ false = false) ∧
  increasing (walk_indices (walk_files "/var/wal" (files sample_reopen))).
Proof.
  assert (H1 : 0 <= 1 <= max_int) by (unfold max_int; lia).
  assert (H2 : 0 <= 2 <= max_int) by (unfold max_int; lia).
  assert (H3 : 1 < 2) by lia.
  assert (H4 : segment_file "/var/wal" 1 false =
               segment_file "/var/wal" 1 false) by reflexivity.
  pose proof sample_reopen_dir as H5.
  refine (conj (conj H1 (conj H2 (conj H3 (conj H4 H5))))
            (conj _ (conj _ _))).
  - exact (proj1 X14_names_keep_the_order_of_indices 1 2 false true H1 H2 H3).
  - exact (proj1 (proj2 X14_names_keep_the_order_of_indices) "/var/wal" 1 1
             false false H1 H1 H4).
  - exact (proj2 (proj2 X14_names_keep_the_order_of_indices) "/var/wal" _ H5).
Defined.

(** Property X15. [Open] on a directory as the rollovers leave it, on a
    WAL without segments: when every file below the path is the file of a
    segment, no index has two files, and one file only is marked as the
    tail, that of the largest index, then an [Open] that succeeds creates
    no segment; [segments] holds exactly the indices of the files, strictly
    sorted, and [lastIndex] is the index of the marked file. *)
Theorem X15_Open_on_a_directory_of_segments (s s' : Sys) (L : Z) :
  WAL.segments (wal s) = [] →
  segment_dir (WAL.path (wal s)) (files s) →
  0 <= L <= max_int →
  is_Some (files s !! segment_file (WAL.path (wal s)) L true) →
  (∀ i t, 0 <= i <= max_int →
          is_Some (files s !! segment_file (WAL.path (wal s)) i t) →
          i <= L ∧ (t = true → i = L)) →
  Open s = Some (None, s') →
  indices s' = walk_indices (walked s) ∧
  increasing (indices s') ∧
  WAL.lastIndex (wal s') = L ∧
  (∀ i, i ∈ indices s' ↔
        0 <= i <= max_int ∧
        ∃ t, is_Some (files s !! segment_file (WAL.path (wal s)) i t)).
Proof. apply Open_segment_dir. Qed.

Lemma X15_Open_on_a_directory_of_segments_witness :
  (WAL.segments (wal sample_reopen) = [] ∧
   segment_dir (WAL.path (wal sample_reopen)) (files sample_reopen) ∧
   0 <= 2 <= max_int ∧
   is_Some (files sample_reopen
              !! segment_file (WAL.path (wal sample_reopen)) 2 true) ∧
   (∀ i t, 0 <= i <= max_int →
           is_Some (files sample_reopen
                      !! segment_file (WAL.path (wal sample_reopen)) i t) →
           i <= 2 ∧ (t = true → i = 2)) ∧
   Open sample_reopen = Some (None, state_after Open sample_reopen)) ∧
  indices (state_after Open sample_reopen) =
    walk_indices (walked sample_reopen) ∧
  increasing (indices (state_after Open sample_reopen)) ∧
  WAL.lastIndex (wal (state_after Open sample_reopen)) = 2 ∧
  (∀ i, i ∈ indices (state_after Open sample_reopen) ↔
        0 <= i <= max_int ∧
        ∃ t, is_Some (files sample_reopen
                        !! segment_file (WAL.path (wal sample_reopen)) i t)).
Proof.
  assert (H1 : WAL.segments (wal sample_reopen) = []) by reflexivity.
  pose proof sample_reopen_dir as H2.
  assert (H3 : 0 <= 2 <= max_int) by (unfold max_int; lia).
  assert (H4 : is_Some (files sample_reopen
                          !! segment_file (WAL.path (wal sample_reopen)) 2
                               true)).
  { exists []. vm_compute. reflexivity. }
  assert (H5 : ∀ i t, 0 <= i <= max_int →
                 is_Some (files sample_reopen
                            !! segment_file (WAL.path (wal sample_reopen)) i
                                 t) →
                 i <= 2 ∧ (t = true → i = 2)).
  { intros i t Hi H.
    destruct (sample_reopen_segments i t Hi H) as [[-> ->]|[-> ->]].
    - split; [lia|discriminate].
    - split; [lia|reflexivity]. }
  assert (H6 : Open sample_reopen =
               Some (None, state_after Open sample_reopen))
    by (vm_compute; reflexivity).
  exact (conj (conj H1 (conj H2 (conj H3 (conj H4 (conj H5 H6)))))
           (X15_Open_on_a_directory_of_segments sample_reopen _ 2
              H1 H2 H3 H4 H5 H6)).
Defined.

(** Property X16. [Open] never drops or replaces a segment that the WAL
    has: it appends a segment for every file of the walk to the segments
    that are there, and then at most the segment of a rollover. Called
    again on an open WAL it appends every file a second time. *)
Theorem X16_Open_appends_to_the_segments (s s' : Sys) :
  live s → Open s = Some (None, s') →
  indices s' = indices s ++ walk_indices (walked s) ∨
  indices s' =
    indices s ++ walk_indices (walked s) ++
    [int64 (walk_tail (walked s) (WAL.lastIndex (wal s)) + 1)].
Proof. apply Open_appends. Qed.

Lemma X16_Open_appends_to_the_segments_witness :
  (live sample_reopened ∧
   Open sample_reopened = Some (None, state_after Open sample_reopened)) ∧
  indices sample_reopened = [1; 2] ∧
  indices (state_after Open sample_reopened) = [1; 2; 1; 2] ∧
  (indices (state_after Open sample_reopened) =
     indices sample_reopened ++ walk_indices (walked sample_reopened) ∨
   indices (state_after Open sample_reopened) =
     indices sample_reopened ++ walk_indices (walked sample_reopened) ++
     [int64 (walk_tail (walked sample_reopened)
               (WAL.lastIndex (wal sample_reopened)) + 1)]).
Proof.
  assert (H1 : live sample_reopened).
  { unfold live. simpl. repeat constructor; eexists; reflexivity. }
  assert (H2 : Open sample_reopened =
               Some (None, state_after Open sample_reopened))
    by (vm_compute; reflexivity).
  refine (conj (conj H1 H2) (conj _ (conj _ _))).
  - reflexivity.
  - vm_compute. reflexivity.
  - exact (X16_Open_appends_to_the_segments _ _ H1 H2).
Defined.

(** Property X17. After a sweep that ends in silence, with a low mark
    that is not negative, at most [lowMark] segments are left, and a second
    sweep does nothing: it removes no file and changes no state. *)
Theorem X17_second_sweep_does_nothing (s s' : Sys) :
  0 <= WAL.lowMark (wal s) →
  cleanLog s = Some (tt, s') → console s' = console s →
  Z.of_nat (length (WAL.segments (wal s'))) <= WAL.lowMark (wal s') ∧
  cleanLog s' = Some (tt, s').
Proof. apply cleanLog_again. Qed.

Lemma X17_second_sweep_does_nothing_witness :
  (0 <= WAL.lowMark (wal sample_three) ∧
   cleanLog sample_three = Some (tt, sample_swept) ∧
   console sample_swept = console sample_three) ∧
  Z.of_nat (length (WAL.segments (wal sample_swept))) <=
    WAL.lowMark (wal sample_swept) ∧
  cleanLog sample_swept = Some (tt, sample_swept).
Proof.
  assert (H1 : 0 <= WAL.lowMark (wal sample_three)) by (simpl; lia).
  assert (H2 : cleanLog sample_three = Some (tt, sample_swept))
    by (vm_compute; reflexivity).
  assert (H3 : console sample_swept = console sample_three)
    by (vm_compute; reflexivity).
  exact (conj (conj H1 (conj H2 H3))
           (X17_second_sweep_does_nothing _ _ H1 H2 H3)).
Defined.

(** Property X18. On a byte slice without spare capacity, of a length that
    a Go slice can have, [convert] returns exactly when the bytes are a
    sequence of complete records (a 29-byte header followed by as many key
    and value bytes as the header announces), and then it returns the
    entries of these records in order; on any other input it panics. *)
Theorem X18_convert_returns_on_whole_records_only (data : list byte)
    (es : list Entry) :
  Z.of_nat (length data) <= max_int →
  convert (full data) = Some es ↔
  ∃ recs, data = concat (map Raw_bytes recs) ∧ es = map Raw_entry recs.
Proof. apply convert_whole. Qed.

Lemma X18_convert_returns_on_whole_records_only_witness :
  let data := Raw_bytes (mkRaw 0 5 x00 [x6b] [x76]) in
  let es := [mkEntry 0 5 false "k" [x76]] in
  Z.of_nat (length data) <= max_int ∧
  (convert (full data) = Some es ↔
   ∃ recs, data = concat (map Raw_bytes recs) ∧ es = map Raw_entry recs).
Proof.
  intros data es.
  assert (H : Z.of_nat (length data) <= max_int) by (vm_compute; discriminate).
  split; [exact H | exact (X18_convert_returns_on_whole_records_only data es H)].
Defined.
